(** * llmpapers: the paper ingestion pipeline, embedded and verified

    A shallow embedding of the ingestion scripts of the repository
    (fetch-arxiv.js, utils/xml-parser.js, categorize-papers.js,
    utils/deduplicator.js, update-incremental.js, update-full.js and
    build-index.js) together with the properties the specification
    states about them.

    Conventions of the embedding:
    - a JavaScript property that may be absent ([undefined]) is an
      [option]; an array or object is always truthy, a string is truthy
      when it is not empty;
    - a string is the sequence of its UTF-16 code units; the
      development covers the strings whose code units are below 256,
      each written as one [ascii] (the character with that code);
    - a [Map] keeps its keys in insertion order, so it is an association
      list updated in place; a [Set] of ids that is only tested for
      membership is a [gset string]; the paper files of one directory
      are a [gmap] from the year key to the file contents, and the two
      directories the scripts work on are kept apart;
    - [new Date(s)] is a parameter of the development: it maps a string
      to its time value, [None] standing for an invalid date ([NaN]);
    - the upstream service is an oracle indexed by the number of calls
      made so far, so that any behaviour of the network is covered. *)

From Stdlib Require Import ZArith Ascii String.
From Stdlib Require QArith.
From stdpp Require Import base tactics option list gmap strings sorting.

Local Open Scope string_scope.
Local Open Scope Z_scope.
Local Open Scope list_scope.

(** ** Host-language operations used by the scripts *)

Module Js.

(** [a || b] where [a] is an array or an object: only [undefined] is falsy. *)
Definition or_else {A : Type} (a b : option A) : option A :=
  match a with
  | Some x => Some x
  | None => b
  end.

(** [a || d] with a default [d] that is always defined. *)
Definition or_default {A : Type} (a : option A) (d : A) : A :=
  match a with
  | Some x => x
  | None => d
  end.

(** Truthiness of a string-valued property. *)
Definition truthy (s : option string) : bool :=
  match s with
  | Some EmptyString => false
  | Some _ => true
  | None => false
  end.

(** [a || b] on strings. *)
Definition str_or (a : option string) (b : string) : string :=
  match a with
  | Some EmptyString => b
  | Some s => s
  | None => b
  end.

(** Comparison of two time values with [>]: false as soon as one is [NaN]. *)
Definition date_gt (a b : option Z) : bool :=
  match a, b with
  | Some x, Some y => bool_decide (y < x)
  | _, _ => false
  end.

(** Subtraction of two numbers used as a sort comparator; a [NaN]
    result counts as [+0]. *)
Definition minus_cmp (a b : option Z) : Z :=
  match a, b with
  | Some x, Some y => x - y
  | _, _ => 0
  end.

(** [Array.prototype.sort(cmp)]: a stable sort.  [x] is placed before
    the first element it does not compare greater than.  When [cmp] is
    a total preorder the result is the sorted list in which equal
    elements keep their order, whatever algorithm the engine uses; when
    it is not (a [NaN] among the keys), the order is the engine's own
    and the results below only use that the output is a permutation. *)
Fixpoint insert {A : Type} (cmp : A → A → Z) (x : A) (l : list A) : list A :=
  match l with
  | [] => [x]
  | y :: l' => if bool_decide (0 < cmp x y) then y :: insert cmp x l' else x :: y :: l'
  end.

Definition sort {A : Type} (cmp : A → A → Z) (l : list A) : list A :=
  foldr (insert cmp) [] l.

(** [[...new Set(l)]]: the distinct values of [l] in first-seen order. *)
Fixpoint set_values {A : Type} `{EqDecision A} (seen l : list A) : list A :=
  match l with
  | [] => []
  | x :: l' =>
      if bool_decide (x ∈ seen) then set_values seen l'
      else x :: set_values (x :: seen) l'
  end.

(** [String.prototype.toLowerCase].  Among the characters below 256
    the upper-case letters are A to Z (65 to 90) and À to Þ (192 to
    222) without the multiplication sign (215); the lower-case letter
    of each is 32 above it, and every other character is left as it
    is.  Lowering such a string is lowering each of its characters. *)
Definition is_upper (c : ascii) : bool :=
  let n := nat_of_ascii c in
  bool_decide (65 ≤ n ≤ 90 ∨ 192 ≤ n ≤ 214 ∨ 216 ≤ n ≤ 222)%nat.

Definition lower_ascii (c : ascii) : ascii :=
  if is_upper c then ascii_of_nat (nat_of_ascii c + 32) else c.

Fixpoint toLowerCase (s : string) : string :=
  match s with
  | EmptyString => EmptyString
  | String c s' => String (lower_ascii c) (toLowerCase s')
  end.

(** [kw] is found at the very start of [text]. *)
Fixpoint startsWith (text kw : string) {struct kw} : bool :=
  match kw, text with
  | EmptyString, _ => true
  | String a kw', String b text' => if decide (a = b) then startsWith text' kw' else false
  | String _ _, EmptyString => false
  end.

(** [String.prototype.includes]: [kw] is found at some position of [text]. *)
Fixpoint includes (text kw : string) : bool :=
  if startsWith text kw then true
  else match text with
       | EmptyString => false
       | String _ text' => includes text' kw
       end.

(** The value of a decimal digit. *)
Definition digit (c : ascii) : option Z :=
  let n := nat_of_ascii c in
  if bool_decide (48 ≤ n ≤ 57)%nat then Some (Z.of_nat n - 48) else None.

Definition is_digit (c : ascii) : bool :=
  match digit c with Some _ => true | None => false end.

(** [parseInt(s)] without a radix: leading white space, a sign, an
    optional [0x] prefix, then the longest run of digits; [None] is
    [NaN].  White space, among the characters below 256, is tab to
    carriage return, the space and the no-break space. *)
Definition is_space (c : ascii) : bool :=
  let n := nat_of_ascii c in bool_decide (9 ≤ n ≤ 13 ∨ n = 32 ∨ n = 160)%nat.

Fixpoint skipSpaces (l : list ascii) : list ascii :=
  match l with
  | c :: l' => if is_space c then skipSpaces l' else l
  | [] => []
  end.

Definition hexDigit (c : ascii) : option Z :=
  let n := nat_of_ascii c in
  if bool_decide (48 ≤ n ≤ 57)%nat then Some (Z.of_nat n - 48)
  else if bool_decide (97 ≤ n ≤ 102)%nat then Some (Z.of_nat n - 87)
  else if bool_decide (65 ≤ n ≤ 70)%nat then Some (Z.of_nat n - 55)
  else None.

Fixpoint digitsValue (d : ascii → option Z) (radix : Z) (acc : option Z)
    (l : list ascii) : option Z :=
  match l with
  | c :: l' =>
      match d c with
      | Some v => digitsValue d radix (Some (radix * or_default acc 0 + v)) l'
      | None => acc
      end
  | [] => acc
  end.

Definition parseInt (s : string) : option Z :=
  let s1 := skipSpaces (list_ascii_of_string s) in
  let '(sign, s2) :=
    match s1 with
    | "-"%char :: r => (-1, r)
    | "+"%char :: r => (1, r)
    | _ => (1, s1)
    end in
  match s2 with
  | "0"%char :: "x"%char :: r | "0"%char :: "X"%char :: r =>
      (λ v, sign * v) <$> digitsValue hexDigit 16 None r
  | _ => (λ v, sign * v) <$> digitsValue digit 10 None s2
  end.

(** The default comparison of [Array.prototype.sort()] on strings. *)
Definition string_cmp (a b : string) : Z :=
  match String.compare a b with
  | Lt => -1
  | Eq => 0
  | Gt => 1
  end.

End Js.

(** ** A concrete clock for the examples

    The time value, in milliseconds since the epoch, of a timestamp
    written [YYYY-MM-DDTHH:MM:SSZ], the form the upstream feed uses;
    every other string is an invalid date here.  The general results
    below hold for any [Date] function; this one instantiates them. *)

Module IsoDate.

Fixpoint number (acc : Z) (l : list ascii) : option Z :=
  match l with
  | [] => Some acc
  | c :: l' => d ← Js.digit c; number (10 * acc + d) l'
  end.

Definition days_from_civil (y m d : Z) : Z :=
  let y' := if bool_decide (m ≤ 2) then y - 1 else y in
  let era := y' `div` 400 in
  let yoe := y' - era * 400 in
  let mp := (m + 9) `mod` 12 in
  let doy := (153 * mp + 2) `div` 5 + d - 1 in
  let doe := yoe * 365 + yoe `div` 4 - yoe `div` 100 + doy in
  era * 146097 + doe - 719468.

Definition value (s : string) : option Z :=
  match list_ascii_of_string s with
  | [y1; y2; y3; y4; "-"; m1; m2; "-"; d1; d2; "T"; h1; h2; ":"; n1; n2; ":"; s1; s2; "Z"]%char =>
      y ← number 0 [y1; y2; y3; y4];
      m ← number 0 [m1; m2];
      d ← number 0 [d1; d2];
      h ← number 0 [h1; h2];
      n ← number 0 [n1; n2];
      sec ← number 0 [s1; s2];
      if bool_decide (1 ≤ m ≤ 12 ∧ 1 ≤ d ≤ 31 ∧ h ≤ 23 ∧ n ≤ 59 ∧ sec ≤ 59)
      then Some (((days_from_civil y m d * 24 + h) * 60 + n) * 60 * 1000 + sec * 1000)
      else None
  | _ => None
  end.

End IsoDate.

(** ** Data model *)

Module Author.
Record t := mk { name : string; affiliation : option string }.
End Author.

Module Tags.
Record t := mk { auto : option (list string); manual : option (list string) }.
End Tags.

Module Paper.
(** A paper object as produced by [parseEntry] and enriched by the
    pipeline.  [rest] carries the properties the pipeline only copies
    (primaryCategory, arxivCategories, pdfUrl, comment, journalRef, doi). *)
Record t := mk {
  id : string;
  title : string;
  authors : list Author.t;
  abstract : option string;
  publishedDate : string;
  updatedDate : option string;
  arxivUrl : option string;
  categories : option (list string);
  tags : option Tags.t;
  fetchedAt : option string;
  rest : list (string * string)
}.
End Paper.

Module Category.
Record t := mk {
  id : string;
  name : string;
  keywords : list string;
  description : option string
}.
End Category.

#[global] Instance author_eq_dec : EqDecision Author.t.
Proof. solve_decision. Defined.
#[global] Instance tags_eq_dec : EqDecision Tags.t.
Proof. solve_decision. Defined.
#[global] Instance paper_eq_dec : EqDecision Paper.t.
Proof. solve_decision. Defined.

(** ** utils/deduplicator.js *)

Module Deduplicator.

Module Duplicate.
Record t := mk { id : string; title : string; duplicate_of : string }.
End Duplicate.

(** A [Map] from ids to papers, in insertion order. *)
Definition PaperMap := list (string * Paper.t).

Fixpoint map_get (k : string) (m : PaperMap) : option Paper.t :=
  match m with
  | [] => None
  | (k', v) :: m' => if decide (k = k') then Some v else map_get k m'
  end.

(** [Map.prototype.set]: an existing key keeps its position. *)
Fixpoint map_set (k : string) (v : Paper.t) (m : PaperMap) : PaperMap :=
  match m with
  | [] => [(k, v)]
  | (k', v') :: m' =>
      if decide (k = k') then (k, v) :: m' else (k', v') :: map_set k v m'
  end.

Definition map_values (m : PaperMap) : list Paper.t := m.*2.

(** Every entry of the map is filed under the id of its paper. *)
Definition keyed (m : PaperMap) : Prop :=
  Forall (λ kv, Paper.id kv.2 = kv.1) m.

Record DedupResult := mkDedup {
  unique : list Paper.t;
  duplicates : list Duplicate.t
}.

Record DedupState := mkDedupState {
  seenIds : PaperMap;
  d_unique : list Paper.t;
  d_duplicates : list Duplicate.t
}.

Definition dedupStep (st : DedupState) (paper : Paper.t) : DedupState :=
  match map_get (Paper.id paper) (seenIds st) with
  | None =>
      {| seenIds := map_set (Paper.id paper) paper (seenIds st);
         d_unique := d_unique st ++ [paper];
         d_duplicates := d_duplicates st |}
  | Some first =>
      {| seenIds := seenIds st;
         d_unique := d_unique st;
         d_duplicates := d_duplicates st ++
           [Duplicate.mk (Paper.id paper) (Paper.title paper) (Paper.title first)] |}
  end.

Definition deduplicatePapers (papers : list Paper.t) : DedupResult :=
  let st := foldl dedupStep (mkDedupState [] [] []) papers in
  mkDedup (d_unique st) (d_duplicates st).

Section Merge.

(** [new Date(s).valueOf()]; [None] is an invalid date. *)
Variable Date : string → option Z.

(** [new Date(p.updatedDate || p.publishedDate)] *)
Definition revisionDate (p : Paper.t) : option Z :=
  Date (Js.str_or (Paper.updatedDate p) (Paper.publishedDate p)).

Definition optTagsAuto (p : Paper.t) : option (list string) :=
  t ← Paper.tags p; Tags.auto t.

Definition optTagsManual (p : Paper.t) : option (list string) :=
  t ← Paper.tags p; Tags.manual t.

(** The object stored when [newPaper] replaces [existing]. *)
Definition replacement (newPaper existing : Paper.t) : Paper.t :=
  {| Paper.id := Paper.id newPaper;
     Paper.title := Paper.title newPaper;
     Paper.authors := Paper.authors newPaper;
     Paper.abstract := Paper.abstract newPaper;
     Paper.publishedDate := Paper.publishedDate newPaper;
     Paper.updatedDate := Paper.updatedDate newPaper;
     Paper.arxivUrl := Paper.arxivUrl newPaper;
     Paper.categories :=
       Js.or_else (Paper.categories existing) (Paper.categories newPaper);
     Paper.tags := Some
       {| Tags.auto := Some
            (Js.or_default
               (Js.or_else (optTagsAuto newPaper) (Paper.categories newPaper)) []);
          Tags.manual := Some (Js.or_default (optTagsManual existing) []) |};
     Paper.fetchedAt := Paper.fetchedAt newPaper;
     Paper.rest := Paper.rest newPaper |}.

Record MergeState := mkMergeState {
  paperMap : PaperMap;
  st_added : nat;
  st_updated : nat
}.

Definition mergeStep (st : MergeState) (newPaper : Paper.t) : MergeState :=
  match map_get (Paper.id newPaper) (paperMap st) with
  | None =>
      {| paperMap := map_set (Paper.id newPaper) newPaper (paperMap st);
         st_added := S (st_added st);
         st_updated := st_updated st |}
  | Some existing =>
      if Js.date_gt (revisionDate newPaper) (revisionDate existing)
      then {| paperMap :=
                map_set (Paper.id newPaper) (replacement newPaper existing) (paperMap st);
              st_added := st_added st;
              st_updated := S (st_updated st) |}
      else st
  end.

(** Processing [p] again against the map [m] would change nothing:
    its id is present and [p] is not strictly newer than the entry. *)
Definition settled (m : PaperMap) (p : Paper.t) : Prop :=
  ∃ e, map_get (Paper.id p) m = Some e ∧
       Js.date_gt (revisionDate p) (revisionDate e) = false.

(** What a merge with the batch [incoming] makes of an existing
    record: it is replaced when the batch has a strictly newer
    record of the same id and is left alone otherwise. *)
Definition revised (incoming : list Paper.t) (e : Paper.t) : Paper.t :=
  match list_find (λ n, Paper.id n = Paper.id e) incoming with
  | Some (_, n) =>
      if Js.date_gt (revisionDate n) (revisionDate e) then replacement n e else e
  | None => e
  end.

(** The record stored for the id of [e] keeps the curation of [e] and
    is not older than [e]. *)
Definition curationKept (e : Paper.t) (m : PaperMap) : Prop :=
  ∃ r, map_get (Paper.id e) m = Some r ∧
       Js.date_gt (revisionDate e) (revisionDate r) = false ∧
       (∀ mt, optTagsManual e = Some mt → optTagsManual r = Some mt) ∧
       (∀ c, Paper.categories e = Some c → Paper.categories r = Some c).

Record MergeResult := mkMerge {
  merged : list Paper.t;
  added : nat;
  updated : nat
}.

Definition initialMap (existingPapers : list Paper.t) : PaperMap :=
  foldl (λ m paper, map_set (Paper.id paper) paper m) [] existingPapers.

Definition mergePapers (existingPapers newPapers : list Paper.t) : MergeResult :=
  let st := foldl mergeStep (mkMergeState (initialMap existingPapers) 0 0) newPapers in
  mkMerge (map_values (paperMap st)) (st_added st) (st_updated st).

End Merge.

(** Example records: paper X as curated in the 2024 partition, and a
    newer revision of it coming from the upstream feed. *)
Definition paperX_curated : Paper.t :=
  {| Paper.id := "2401.12345";
     Paper.title := "Agents that plan";
     Paper.authors := [Author.mk "A. Author" None];
     Paper.abstract := Some "We study agents.";
     Paper.publishedDate := "2024-01-15T10:00:00Z";
     Paper.updatedDate := Some "2024-01-15T10:00:00Z";
     Paper.arxivUrl := Some "https://arxiv.org/abs/2401.12345";
     Paper.categories := Some ["agents"];
     Paper.tags := Some (Tags.mk (Some ["agents"]) (Some ["agents"]));
     Paper.fetchedAt := Some "2024-01-16T00:00:00.000Z";
     Paper.rest := [] |}.

Definition paperX_revised : Paper.t :=
  {| Paper.id := "2401.12345";
     Paper.title := "Agents that plan and reason";
     Paper.authors := [Author.mk "A. Author" None];
     Paper.abstract := Some "We study reasoning.";
     Paper.publishedDate := "2024-01-15T10:00:00Z";
     Paper.updatedDate := Some "2024-03-02T08:30:00Z";
     Paper.arxivUrl := Some "https://arxiv.org/abs/2401.12345";
     Paper.categories := Some ["reasoning"];
     Paper.tags := Some (Tags.mk (Some ["reasoning"]) (Some []));
     Paper.fetchedAt := Some "2024-03-03T00:00:00.000Z";
     Paper.rest := [] |}.

(** The same paper as first stored when no keyword matched it. *)
Definition paperX_uncategorized : Paper.t :=
  {| Paper.id := "2401.12345";
     Paper.title := "Agents that plan";
     Paper.authors := [Author.mk "A. Author" None];
     Paper.abstract := Some "We study agents.";
     Paper.publishedDate := "2024-01-15T10:00:00Z";
     Paper.updatedDate := Some "2024-01-15T10:00:00Z";
     Paper.arxivUrl := Some "https://arxiv.org/abs/2401.12345";
     Paper.categories := Some [];
     Paper.tags := Some (Tags.mk (Some []) (Some []));
     Paper.fetchedAt := Some "2024-01-16T00:00:00.000Z";
     Paper.rest := [] |}.

Definition paperY : Paper.t :=
  {| Paper.id := "2402.00001";
     Paper.title := "Retrieval for code";
     Paper.authors := [Author.mk "B. Author" (Some "Lab")];
     Paper.abstract := Some "RAG for code generation.";
     Paper.publishedDate := "2024-02-01T09:00:00Z";
     Paper.updatedDate := Some "2024-02-01T09:00:00Z";
     Paper.arxivUrl := None;
     Paper.categories := Some ["rag"];
     Paper.tags := Some (Tags.mk (Some ["rag"]) (Some []));
     Paper.fetchedAt := None;
     Paper.rest := [] |}.

End Deduplicator.

(** ** categorize-papers.js *)

Module Categorizer.

(** Minimum keyword matches to assign a category. *)
Definition MIN_KEYWORD_MATCHES : nat := 1.

(** An entry of [matchedCategories]. *)
Module Matched.
Record t := mk { id : string; matches : nat }.
End Matched.

(** [`${paper.title} ${paper.abstract}`]: a missing abstract is
    rendered as the word undefined. *)
Definition rawText (paper : Paper.t) : string :=
  Paper.title paper +:+ " " +:+ Js.or_default (Paper.abstract paper) "undefined".

Definition paperText (paper : Paper.t) : string := Js.toLowerCase (rawText paper).

(** The inner loop: one increment per keyword found in the text. *)
Definition matchCount (text : string) (category : Category.t) : nat :=
  foldl (λ count keyword,
           if Js.includes text (Js.toLowerCase keyword) then S count else count)
        0%nat (Category.keywords category).

Definition pushMatch (text : string) (matchedCategories : list Matched.t)
    (category : Category.t) : list Matched.t :=
  let count := matchCount text category in
  if bool_decide (MIN_KEYWORD_MATCHES ≤ count)%nat
  then matchedCategories ++ [Matched.mk (Category.id category) count]
  else matchedCategories.

(** The comparator [(a, b) => b.matches - a.matches]. *)
Definition byMatchesDesc (a b : Matched.t) : Z :=
  Z.of_nat (Matched.matches b) - Z.of_nat (Matched.matches a).

Definition categorizePaper (paper : Paper.t) (categories : list Category.t) : list string :=
  let text := paperText paper in
  let matchedCategories := foldl (pushMatch text) [] categories in
  Matched.id <$> Js.sort byMatchesDesc matchedCategories.

(** [categorizePapers], without its console report. *)
Definition categorizePapers (papers : list Paper.t) (categories : list Category.t)
    : list Paper.t :=
  (λ paper,
     let categoryIds := categorizePaper paper categories in
     {| Paper.id := Paper.id paper;
        Paper.title := Paper.title paper;
        Paper.authors := Paper.authors paper;
        Paper.abstract := Paper.abstract paper;
        Paper.publishedDate := Paper.publishedDate paper;
        Paper.updatedDate := Paper.updatedDate paper;
        Paper.arxivUrl := Paper.arxivUrl paper;
        Paper.categories := Some categoryIds;
        Paper.tags := Some (Tags.mk (Some categoryIds) (Some []));
        Paper.fetchedAt := Paper.fetchedAt paper;
        Paper.rest := Paper.rest paper |}) <$> papers.

(** The words of the specification, written without the functions of
    the code.  [l] is the lower-case letter of the upper-case letter
    [u]: among the characters below 256, A to Z and À to Þ without
    the multiplication sign, each 32 below its lower-case letter. *)
Definition lowerCaseOf (u l : ascii) : Prop :=
  (65 ≤ nat_of_ascii u ≤ 90 ∨ 192 ≤ nat_of_ascii u ≤ 214 ∨
   216 ≤ nat_of_ascii u ≤ 222)%nat ∧
  nat_of_ascii l = (nat_of_ascii u + 32)%nat.

(** Two characters are the same letter, case apart. *)
Definition sameLetter (a b : ascii) : Prop :=
  a = b ∨ lowerCaseOf a b ∨ lowerCaseOf b a.

(** Two strings are equal, letter case apart: they have the same
    length and the same letters, place by place. *)
Definition equalIgnoringCase (s t : string) : Prop :=
  Forall2 sameLetter (list_ascii_of_string s) (list_ascii_of_string t).

(** The keyword [kw] occurs in the text [s], letter case apart: some
    substring of [s] is [kw] up to case. *)
Definition occursIgnoringCase (kw s : string) : Prop :=
  ∃ pre mid post, s = pre +:+ mid +:+ post ∧ equalIgnoringCase mid kw.

(** [n] of the elements of a list, counted with repetitions, have the
    property [P]. *)
Inductive Counted {A : Type} (P : A → Prop) : list A → nat → Prop :=
| counted_nil : Counted P [] 0
| counted_yes x l n : P x → Counted P l n → Counted P (x :: l) (S n)
| counted_no x l n : ¬ P x → Counted P l n → Counted P (x :: l) n.

(** The count the inner loop arrives at for a category: the keywords
    the lowered text includes, with repetitions of the keyword list. *)
Definition keywordHits (paper : Paper.t) (category : Category.t) : nat :=
  length (filter (λ kw, Is_true (Js.includes (paperText paper) (Js.toLowerCase kw)))
                 (Category.keywords category)).

Definition exampleCategories : list Category.t :=
  [ Category.mk "agents" "Agents" ["agent"; "autonomous"] None;
    Category.mk "rag" "RAG" ["Retrieval"; "RAG"; "augmented"] None;
    Category.mk "robotics" "Robotics" ["robot"] (Some "Embodied systems");
    Category.mk "reasoning" "Reasoning" ["chain of thought"; "Reasoning"] None ].

Definition examplePaper : Paper.t :=
  {| Paper.id := "2403.00007";
     Paper.title := "Retrieval-Augmented Agents";
     Paper.authors := [];
     Paper.abstract := Some "An agent that uses RAG and reasoning.";
     Paper.publishedDate := "2024-03-01T00:00:00Z";
     Paper.updatedDate := None;
     Paper.arxivUrl := None;
     Paper.categories := None;
     Paper.tags := None;
     Paper.fetchedAt := None;
     Paper.rest := [] |}.

(** A title in capitals with an accented letter, É (201), and
    keywords in small letters, one with é (233). *)
Definition accentedPaper : Paper.t :=
  {| Paper.id := "2403.00008";
     Paper.title := "R" +:+ String (ascii_of_nat 201) "SUM" +:+ String (ascii_of_nat 201) " OF LLM";
     Paper.authors := [];
     Paper.abstract := Some "";
     Paper.publishedDate := "2024-03-02T00:00:00Z";
     Paper.updatedDate := None;
     Paper.arxivUrl := None;
     Paper.categories := None;
     Paper.tags := None;
     Paper.fetchedAt := None;
     Paper.rest := [] |}.

Definition accentedCategories : list Category.t :=
  [ Category.mk "hr" "Human resources"
      ["r" +:+ String (ascii_of_nat 233) "sum" +:+ String (ascii_of_nat 233) ""] None;
    Category.mk "llm" "LLM" ["llm"] None;
    Category.mk "agents" "Agents" ["agent"] None ].

End Categorizer.

(** ** utils/xml-parser.js: the identifier of an entry *)

Module XmlParser.

(** A thrown [Error] with its message. *)
Inductive Error := mkError (message : string).

(** [\d{n}] at the head of the input: the digits read and what follows. *)
Fixpoint takeDigits (n : nat) (s : list ascii) : option (list ascii * list ascii) :=
  match n with
  | O => Some ([], s)
  | S n' =>
      match s with
      | c :: s' =>
          if Js.is_digit c
          then '(d, r) ← takeDigits n' s'; Some (c :: d, r)
          else None
      | [] => None
      end
  end.

(** [(v\d+)?$]: nothing is left, or a [v] and one digit or more up
    to the end of the input. *)
Definition versionToEnd (s : list ascii) : bool :=
  match s with
  | [] => true
  | "v"%char :: d :: ds => forallb Js.is_digit (d :: ds)
  | _ => false
  end.

(** [\d{k}(v\d+)?$] after the dot. *)
Definition minorToEnd (k : nat) (s : list ascii) : option (list ascii) :=
  '(d, r) ← takeDigits k s;
  if versionToEnd r then Some d else None.

(** One attempt of [/(\d{4}\.\d{4,5})(v\d+)?$/] at the head of the
    input; the greedy [\d{4,5}] tries five digits before four.  The
    result is the first capture group. *)
Definition matchAt (s : list ascii) : option (list ascii) :=
  '(major, r) ← takeDigits 4 s;
  match r with
  | "."%char :: r' =>
      match minorToEnd 5 r' with
      | Some minor => Some (major ++ "."%char :: minor)
      | None => minor ← minorToEnd 4 r'; Some (major ++ "."%char :: minor)
      end
  | _ => None
  end.

(** [String.prototype.match] without the [g] flag: the leftmost
    position at which the pattern matches. *)
Fixpoint search (s : list ascii) : option (list ascii) :=
  match matchAt s with
  | Some m => Some m
  | None =>
      match s with
      | [] => None
      | _ :: s' => search s'
      end
  end.

Definition extractArxivId (url : string) : Error + string :=
  match search (list_ascii_of_string url) with
  | Some m => inr (string_of_list_ascii m)
  | None => inl (mkError ("Failed to extract arXiv ID from: " +:+ url))
  end.

(** White space as [\s] and [trim] see it, among the characters
    below 256: tab to carriage return, the space and the no-break
    space. *)
Definition is_white (c : ascii) : bool :=
  let n := nat_of_ascii c in bool_decide (9 ≤ n ≤ 13 ∨ n = 32 ∨ n = 160)%nat.

(** [text.replace(/\s+/g, ' ')]: every maximal run of white space
    becomes one space.  [inRun] tells that the character before
    belongs to a run already replaced. *)
Fixpoint collapse (inRun : bool) (s : list ascii) : list ascii :=
  match s with
  | [] => []
  | c :: s' =>
      if is_white c
      then if inRun then collapse true s' else " "%char :: collapse true s'
      else c :: collapse false s'
  end.

Fixpoint trimStart (s : list ascii) : list ascii :=
  match s with
  | c :: s' => if is_white c then trimStart s' else s
  | [] => []
  end.

Definition trimEnd (s : list ascii) : list ascii := reverse (trimStart (reverse s)).

(** [String.prototype.trim] *)
Definition trim (s : list ascii) : list ascii := trimEnd (trimStart s).

(** [cleanText] on a text: a missing or empty text gives the empty
    string.  What it does with the other values the XML parser hands
    over, [cleanValue] tells. *)
Definition cleanText (text : option string) : string :=
  if Js.truthy text
  then string_of_list_ascii
         (trim (collapse false (list_ascii_of_string (Js.or_default text ""))))
  else "".

(** A value as the XML parser hands it over for an element or an
    attribute that the code reads as text.  As the parser is set up
    (values parsed, attributes kept), a text that is a numeral comes
    as a number and the texts true and false as booleans, and an
    element that carries an attribute or has children comes as an
    object.  A number is given by the string it prints as ([String(x)],
    as in 42, 0.5, 1e+21 or NaN), which is all the code can see of it;
    0 and its negative print alike. *)
Inductive Value :=
| Text (s : string)
| Num (printed : string)
| Bool (b : bool)
| Obj.

(** Truthiness of a value that may be absent: the falsy numbers are
    0 and NaN. *)
Definition truthy (v : option Value) : bool :=
  match v with
  | Some (Text s) => Js.truthy (Some s)
  | Some (Num printed) => negb (bool_decide (printed = "0" ∨ printed = "NaN"))
  | Some (Bool b) => b
  | Some Obj => true
  | None => false
  end.

(** [v || null] *)
Definition orNull (v : option Value) : option Value :=
  if truthy v then v else None.

(** [extractArxivId] on what the parser hands over for the [id]: only
    a text has a [match] method. *)
Definition extractIdOf (url : option Value) : Error + string :=
  match url with
  | Some (Text s) => extractArxivId s
  | Some _ => inl (mkError "url.match is not a function")
  | None => inl (mkError "Cannot read properties of undefined (reading 'match')")
  end.

(** [cleanText] on what the parser hands over: a falsy value gives
    the empty string, a text is cleaned, and any other value has no
    [replace] method. *)
Definition cleanValue (text : option Value) : Error + string :=
  match text with
  | Some (Text s) => inr (cleanText (Some s))
  | _ =>
      if truthy text then inl (mkError "text.replace is not a function")
      else inr ""
  end.

(** [x ? cleanText(x) : null] *)
Definition cleanOrNull (v : option Value) : Error + option string :=
  if truthy v
  then match cleanValue v with
       | inl e => inl e
       | inr s => inr (Some s)
       end
  else inr None.

(** [parseInt(x || 0)]; [None] is [NaN].  [parseInt] reads the
    string its argument prints as; the boolean true and an object
    print as words, which hold no number. *)
Definition parseCount (v : option Value) : option Z :=
  if truthy v
  then match v with
       | Some (Text s) => Js.parseInt s
       | Some (Num printed) => Js.parseInt printed
       | _ => None
       end
  else Some 0.

(** Sequencing of steps that may throw. *)
Definition andThen {A B : Type} (step : Error + A) (rest : A → Error + B) : Error + B :=
  match step with
  | inl e => inl e
  | inr a => rest a
  end.

(** A child of an element as the XML parser hands it over: the one
    object when the element occurs once, an array when it occurs
    several times. *)
Inductive OneOrMany (A : Type) :=
| One (x : A)
| Many (l : list A).

Global Arguments One {A} x.
Global Arguments Many {A} l.

(** [Array.isArray(x) ? x : [x]] *)
Definition asArray {A : Type} (x : OneOrMany A) : list A :=
  match x with
  | One a => [a]
  | Many l => l
  end.

(** An [author] element: what its properties [name] and
    [affiliation] give; both are missing on an author element that
    has no children. *)
Module RawAuthor.
Record t := mk { name : option Value; affiliation : option Value }.
End RawAuthor.

(** An author of the paper object returned. *)
Module ParsedAuthor.
Record t := mk { name : option Value; affiliation : option Value }.
End ParsedAuthor.

(** A [link] element with its attributes [title] and [href]. *)
Module RawLink.
Record t := mk { title : option Value; href : option Value }.
End RawLink.

(** An [entry] of the feed as the XML parser yields it.  [category]
    holds the [term] attribute of each category element and
    [primary_category] that of [arxiv:primary_category]; [author],
    [category] and [link] are [None] when the property of the entry
    is missing (for [category]: is falsy, as it also is with a single
    empty category element). *)
Module RawEntry.
Record t := mk {
  id : option Value;
  author : option (OneOrMany RawAuthor.t);
  category : option (OneOrMany (option Value));
  primary_category : option Value;
  link : option (OneOrMany RawLink.t);
  title : option Value;
  summary : option Value;
  published : option Value;
  updated : option Value;
  comment : option Value;
  journal_ref : option Value;
  doi : option Value
}.
End RawEntry.

(** The paper object [parseEntry] returns. *)
Module ArxivEntry.
Record t := mk {
  id : string;
  title : string;
  authors : list ParsedAuthor.t;
  abstract : string;
  publishedDate : option Value;
  updatedDate : option Value;
  primaryCategory : option Value;
  arxivCategories : list (option Value);
  pdfUrl : option Value;
  arxivUrl : string;
  comment : option string;
  journalRef : option string;
  doi : option Value
}.
End ArxivEntry.

(** [entry.author] as an array: a missing author becomes the array
    of one [undefined], whose [name] cannot be read. *)
Definition rawAuthors (entry : RawEntry.t) : Error + list RawAuthor.t :=
  match RawEntry.author entry with
  | Some authors => inr (asArray authors)
  | None => inl (mkError "Cannot read properties of undefined (reading 'name')")
  end.

Definition rawCategories (entry : RawEntry.t) : list (option Value) :=
  match RawEntry.category entry with
  | Some categories => asArray categories
  | None => []
  end.

(** [link?.['@_title'] === 'pdf'] *)
Definition isPdf (link : RawLink.t) : bool :=
  match RawLink.title link with
  | Some (Text s) => bool_decide (s = "pdf")
  | _ => false
  end.

(** [links.find(link => link?.['@_title'] === 'pdf')] *)
Definition pdfLink (entry : RawEntry.t) : option RawLink.t :=
  match RawEntry.link entry with
  | Some links => snd <$> list_find (λ link, isPdf link = true) (asArray links)
  | None => None
  end.

(** [parseEntry]: the identifier and the authors first, then the
    properties of the object returned in the order they are
    written. *)
Definition parseEntry (entry : RawEntry.t) : Error + ArxivEntry.t :=
  andThen (extractIdOf (RawEntry.id entry)) (λ arxivId,
  andThen (rawAuthors entry) (λ rawAuthorList,
    let authors :=
      (λ author, ParsedAuthor.mk (RawAuthor.name author)
                                 (orNull (RawAuthor.affiliation author)))
        <$> rawAuthorList in
    let arxivCategories := rawCategories entry in
    let primaryCategory :=
      if truthy (RawEntry.primary_category entry)
      then RawEntry.primary_category entry
      else head arxivCategories ≫= id in
    let pdfUrl := pdfLink entry ≫= RawLink.href in
    let arxivUrl := "https://arxiv.org/abs/" +:+ arxivId in
    andThen (cleanValue (RawEntry.title entry)) (λ title,
    andThen (cleanValue (RawEntry.summary entry)) (λ abstract,
    andThen (cleanOrNull (RawEntry.comment entry)) (λ comment,
    andThen (cleanOrNull (RawEntry.journal_ref entry)) (λ journalRef,
      inr {| ArxivEntry.id := arxivId;
             ArxivEntry.title := title;
             ArxivEntry.authors := authors;
             ArxivEntry.abstract := abstract;
             ArxivEntry.publishedDate := RawEntry.published entry;
             ArxivEntry.updatedDate := RawEntry.updated entry;
             ArxivEntry.primaryCategory := primaryCategory;
             ArxivEntry.arxivCategories := arxivCategories;
             ArxivEntry.pdfUrl := pdfUrl;
             ArxivEntry.arxivUrl := arxivUrl;
             ArxivEntry.comment := comment;
             ArxivEntry.journalRef := journalRef;
             ArxivEntry.doi := orNull (RawEntry.doi entry) |})))))).

(** [entries.map(parseEntry)]: the first entry that throws ends the
    mapping. *)
Fixpoint parseEntries (entries : list RawEntry.t) : Error + list ArxivEntry.t :=
  match entries with
  | [] => inr []
  | entry :: rest =>
      match parseEntry entry with
      | inl e => inl e
      | inr paper =>
          match parseEntries rest with
          | inl e => inl e
          | inr papers => inr (paper :: papers)
          end
      end
  end.

(** The [feed] element, with the OpenSearch counts as the parser
    hands them over; [entry] is [None] when [feed.entry] is falsy. *)
Module Feed.
Record t := mk {
  entry : option (OneOrMany RawEntry.t);
  totalResults : option Value;
  startIndex : option Value;
  itemsPerPage : option Value
}.
End Feed.

(** What [parser.parse(xmlData)] does: it throws, or returns an
    object with a [feed] or with none (a falsy one). *)
Inductive ParserOutcome :=
| ParserThrows (message : string)
| ParserReturns (feed : option Feed.t).

(** The object [parseArxivXML] returns; a count that is [None] is
    [NaN]. *)
Module Parsed.
Record t := mk {
  totalResults : option Z;
  startIndex : option Z;
  itemsPerPage : option Z;
  entries : list ArxivEntry.t
}.
End Parsed.

Definition feedEntries (feed : Feed.t) : list RawEntry.t :=
  match Feed.entry feed with
  | Some entries => asArray entries
  | None => []
  end.

(** The body of the [try] block of [parseArxivXML]. *)
Definition parseFeed (outcome : ParserOutcome) : Error + Parsed.t :=
  match outcome with
  | ParserThrows message => inl (mkError message)
  | ParserReturns None => inl (mkError "Invalid XML: no feed element found")
  | ParserReturns (Some feed) =>
      match parseEntries (feedEntries feed) with
      | inl e => inl e
      | inr entries =>
          inr {| Parsed.totalResults := parseCount (Feed.totalResults feed);
                 Parsed.startIndex := parseCount (Feed.startIndex feed);
                 Parsed.itemsPerPage := parseCount (Feed.itemsPerPage feed);
                 Parsed.entries := entries |}
      end
  end.

(** [parseArxivXML], from the outcome of the XML parser on: whatever
    is thrown is thrown again with its message prefixed. *)
Definition parseArxivXML (outcome : ParserOutcome) : Error + Parsed.t :=
  match parseFeed outcome with
  | inl (mkError message) => inl (mkError ("XML parsing failed: " +:+ message))
  | inr parsed => inr parsed
  end.

(** A value the code can read as text: it is falsy, or it is a
    text. *)
Definition readableText (v : option Value) : Prop :=
  truthy v = true → ∃ s, v = Some (Text s).

(** Example data: an entry with one author, two categories and two
    links. *)
Definition exampleEntry : RawEntry.t :=
  {| RawEntry.id := Some (Text "http://arxiv.org/abs/2401.12345v2");
     RawEntry.author := Some (One (RawAuthor.mk (Some (Text "A. Author")) None));
     RawEntry.category := Some (Many [Some (Text "cs.CL"); Some (Text "cs.AI")]);
     RawEntry.primary_category := Some (Text "cs.CL");
     RawEntry.link :=
       Some (Many [RawLink.mk None (Some (Text "http://arxiv.org/abs/2401.12345v2"));
                   RawLink.mk (Some (Text "pdf"))
                              (Some (Text "http://arxiv.org/pdf/2401.12345v2"))]);
     RawEntry.title := Some (Text "Agents that  plan");
     RawEntry.summary := Some (Text "We study agents.");
     RawEntry.published := Some (Text "2024-01-15T10:00:00Z");
     RawEntry.updated := Some (Text "2024-03-02T08:30:00Z");
     RawEntry.comment := None;
     RawEntry.journal_ref := None;
     RawEntry.doi := None |}.

(** The same entry with an identifier of the old scheme. *)
Definition oldStyleEntry : RawEntry.t :=
  {| RawEntry.id := Some (Text "http://arxiv.org/abs/hep-th/9901001v1");
     RawEntry.author := RawEntry.author exampleEntry;
     RawEntry.category := RawEntry.category exampleEntry;
     RawEntry.primary_category := RawEntry.primary_category exampleEntry;
     RawEntry.link := RawEntry.link exampleEntry;
     RawEntry.title := RawEntry.title exampleEntry;
     RawEntry.summary := RawEntry.summary exampleEntry;
     RawEntry.published := RawEntry.published exampleEntry;
     RawEntry.updated := RawEntry.updated exampleEntry;
     RawEntry.comment := None;
     RawEntry.journal_ref := None;
     RawEntry.doi := None |}.

(** The same entry with a comment element that carries an attribute,
    as the namespace declaration a feed may put on it: the comment
    comes as an object. *)
Definition commentedEntry : RawEntry.t :=
  {| RawEntry.id := RawEntry.id exampleEntry;
     RawEntry.author := RawEntry.author exampleEntry;
     RawEntry.category := RawEntry.category exampleEntry;
     RawEntry.primary_category := RawEntry.primary_category exampleEntry;
     RawEntry.link := RawEntry.link exampleEntry;
     RawEntry.title := RawEntry.title exampleEntry;
     RawEntry.summary := RawEntry.summary exampleEntry;
     RawEntry.published := RawEntry.published exampleEntry;
     RawEntry.updated := RawEntry.updated exampleEntry;
     RawEntry.comment := Some Obj;
     RawEntry.journal_ref := None;
     RawEntry.doi := None |}.

(** A text in normal form: its only white space is the space
    character, never at either end and never twice in a row. *)
Definition normalized (l : list ascii) : Prop :=
  (∀ c, c ∈ l → is_white c = true → c = " "%char) ∧
  (∀ c, head l = Some c → is_white c = false) ∧
  (∀ c, last l = Some c → is_white c = false) ∧
  (∀ pre post, l ≠ pre ++ " "%char :: " "%char :: post).

(** The characters of a text that are not white space. *)
Definition visible (l : list ascii) : list ascii :=
  filter (λ c, is_white c = false) l.

(** Every white character is a space that does not follow white
    space; [afterWhite] tells what precedes the list. *)
Fixpoint tidy (afterWhite : bool) (l : list ascii) : Prop :=
  match l with
  | [] => True
  | c :: l' =>
      if is_white c
      then c = " "%char ∧ afterWhite = false ∧ tidy true l'
      else tidy false l'
  end.

(** The words of the specification: a string is a version suffix when
    it is [v] followed by one digit or more. *)
Definition isVersionSuffix (s : list ascii) : Prop :=
  ∃ d ds, s = "v"%char :: d :: ds ∧ Forall (λ c, Is_true (Js.is_digit c)) (d :: ds).

(** Four digits, then four or five digits, then nothing or a version
    suffix. *)
Definition idParts (major minor suffix : list ascii) : Prop :=
  length major = 4%nat ∧ Forall (λ c, Is_true (Js.is_digit c)) major ∧
  (length minor = 4%nat ∨ length minor = 5%nat) ∧
  Forall (λ c, Is_true (Js.is_digit c)) minor ∧
  (suffix = [] ∨ isVersionSuffix suffix).

(** The input ends in the identifier [m], after the prefix [pre]. *)
Definition idAtEnd (pre s m : list ascii) : Prop :=
  ∃ major minor suffix,
    s = pre ++ major ++ "."%char :: minor ++ suffix ∧
    m = major ++ "."%char :: minor ∧
    idParts major minor suffix.

(** [url] ends in the identifier [id]: four digits, a dot, four or
    five digits, then nothing or a version suffix. *)
Definition endsInId (url id : string) : Prop :=
  ∃ pre m, idAtEnd pre (list_ascii_of_string url) m ∧ id = string_of_list_ascii m.

End XmlParser.

(** ** The first-seen rule, in the words of the specification *)

(** The first record of every id, in encounter order: a record is kept
    and every later record of the same id is dropped. *)
Definition firstOccurrences (l : list Paper.t) : list Paper.t :=
  foldr (λ p kept, p :: filter (λ q, Paper.id q ≠ Paper.id p) kept) [] l.

Global Arguments firstOccurrences : simpl never.

(** ** utils/rate-limiter.js *)

Module RateLimiter.

Record t := mk { delayMs : Z; lastRequestTime : Z }.

(** [new RateLimiter(delayMs)] *)
Definition create (delayMs : Z) : t := mk delayMs 0.

(** The delay of the timer that [wait] sets when it is entered at
    the time [now]; [None] when it sets none. *)
Definition waitTime (limiter : t) (now : Z) : option Z :=
  let timeSinceLastRequest := now - lastRequestTime limiter in
  if bool_decide (timeSinceLastRequest < delayMs limiter)
  then Some (delayMs limiter - timeSinceLastRequest)
  else None.

(** The two readings of [Date.now()] in one call of [wait]: on entry,
    and when the time of the request is recorded. *)
Record Reading := mkReading { entered : Z; resumed : Z }.

Definition wait (limiter : t) (r : Reading) : t :=
  mk (delayMs limiter) (resumed r).

(** The clock does not run backwards during the call, and a timer
    does not fire before its delay has passed. *)
Definition timely (limiter : t) (r : Reading) : Prop :=
  match waitTime limiter (entered r) with
  | Some delay => entered r + delay ≤ resumed r
  | None => entered r ≤ resumed r
  end.

(** Calls made one after the other, as the fetch loop makes them:
    the times recorded. *)
Fixpoint recorded (limiter : t) (rs : list Reading) : list Z :=
  match rs with
  | [] => []
  | r :: rs' => resumed r :: recorded (wait limiter r) rs'
  end.

Fixpoint allTimely (limiter : t) (rs : list Reading) : Prop :=
  match rs with
  | [] => True
  | r :: rs' => timely limiter r ∧ allTimely (wait limiter r) rs'
  end.

End RateLimiter.

(** ** fetch-arxiv.js *)

Module Fetcher.

Definition MAX_RESULTS_PER_REQUEST : nat := 100.

Module Query.
Record t := mk { query : string; description : string; category : string }.
End Query.

(** The options after destructuring with their defaults;
    [maxResults = None] is [Infinity]. *)
Module Options.
Record t := mk {
  maxResults : option nat;
  startDate : option string;
  endDate : option string;
  sortBy : string;
  sortOrder : string
}.
Definition default : t := mk None (Some "2020-01-01") None "submittedDate" "descending".
End Options.

(** The parameters [buildArxivUrl] encodes into the URL. *)
Module Request.
Record t := mk {
  search_query : string;
  start : nat;
  max_results : nat;
  sortBy : string;
  sortOrder : string
}.
End Request.

(** What [parseArxivXML] returns; [totalResults = None] is [NaN]. *)
Module Parsed.
Record t := mk { entries : list Paper.t; totalResults : option Z }.
End Parsed.

(** The outcome of the [try] block of one iteration: anything thrown
    by [fetch], by the status check or by the parser, or a parsed page. *)
Inductive Response :=
| Failed (e : XmlParser.Error)
| Page (parsed : Parsed.t).

(** [s.replace(/-/g, '')] *)
Fixpoint removeDashes (s : string) : string :=
  match s with
  | EmptyString => EmptyString
  | String c s' => if decide (c = "-"%char) then removeDashes s' else String c (removeDashes s')
  end.

(** [isoNow.slice(0, 10)] *)
Definition slice10 (s : string) : string := String.substring 0 10 s.

Section Upstream.

(** The service: the response to the [n]-th request ever made, and
    [new Date().toISOString()] at that moment. *)
Variable upstream : nat → Request.t → Response.
Variable isoNow : nat → string.

Record LoopState := mkLoop {
  allPapers : list Paper.t;
  start : nat;
  hasMore : bool;
  calls : nat
}.

Section Query.
Variable searchQuery : string.
Variable options : Options.t.

(** [allPapers.length >= maxResults] *)
Definition reachedMax (n : nat) : bool :=
  match Options.maxResults options with
  | Some m => bool_decide (m ≤ n)%nat
  | None => false
  end.

(** The loop condition [hasMore && allPapers.length < maxResults]. *)
Definition loopGuard (st : LoopState) : bool :=
  hasMore st && negb (reachedMax (length (allPapers st))).

Definition resultsToFetch (st : LoopState) : nat :=
  match Options.maxResults options with
  | Some m => MAX_RESULTS_PER_REQUEST `min` (m - length (allPapers st))
  | None => MAX_RESULTS_PER_REQUEST
  end.

Definition datedQuery (now : string) : string :=
  if Js.truthy (Options.startDate options) || Js.truthy (Options.endDate options)
  then
    let startDateFormatted :=
      match Options.startDate options with
      | Some (String c d) => removeDashes (String c d) +:+ "0000"
      | _ => "20000101000"
      end in
    let endDateFormatted :=
      match Options.endDate options with
      | Some (String c d) => removeDashes (String c d) +:+ "2359"
      | _ => removeDashes (slice10 now) +:+ "2359"
      end in
    "(" +:+ searchQuery +:+ ") AND submittedDate:[" +:+ startDateFormatted
      +:+ " TO " +:+ endDateFormatted +:+ "]"
  else searchQuery.

Definition request (st : LoopState) : Request.t :=
  Request.mk (datedQuery (isoNow (calls st))) (start st) (resultsToFetch st)
             (Options.sortBy options) (Options.sortOrder options).

(** [start >= parsed.totalResults] *)
Definition exhausted (start' : nat) (total : option Z) : bool :=
  match total with
  | Some t => bool_decide (t ≤ Z.of_nat start')
  | None => false
  end.

(** The state after a page with at least one entry. *)
Definition advance (st : LoopState) (parsed : Parsed.t) : LoopState :=
  let entries := Parsed.entries parsed in
  let allPapers' := allPapers st ++ entries in
  let start' := (start st + length entries)%nat in
  let hasMore1 :=
    if exhausted start' (Parsed.totalResults parsed)
       || bool_decide (length entries < resultsToFetch st)%nat
    then false else hasMore st in
  let hasMore2 := if reachedMax (length allPapers') then false else hasMore1 in
  mkLoop allPapers' start' hasMore2 (S (calls st)).

(** How one iteration of the [while] loop ends. *)
Inductive Iteration :=
| Continue (st : LoopState)
| Break (st : LoopState)
| Throw (e : XmlParser.Error) (calls : nat).

Definition iteration (st : LoopState) : Iteration :=
  match upstream (calls st) (request st) with
  | Page parsed =>
      if bool_decide (length (Parsed.entries parsed) = 0%nat)
      then Break (mkLoop (allPapers st) (start st) false (S (calls st)))
      else Continue (advance st parsed)
  | Failed e =>
      if bool_decide (start st = 0%nat)
      then Throw e (S (calls st))
      else Continue (mkLoop (allPapers st) (start st) false (S (calls st)))
  end.

(** The [while] loop; [None] when the fuel does not suffice.  The
    result is the returned array or the error thrown, with the
    number of requests made so far. *)
Fixpoint loop (fuel : nat) (st : LoopState)
    : option ((XmlParser.Error + list Paper.t) * nat) :=
  if loopGuard st then
    match fuel with
    | O => None
    | S fuel' =>
        match iteration st with
        | Continue st' => loop fuel' st'
        | Break st' => Some (inr (allPapers st'), calls st')
        | Throw e n => Some (inl e, n)
        end
    end
  else Some (inr (allPapers st), calls st).

Definition fetchPapersForQuery (fuel : nat) (calls0 : nat)
    : option ((XmlParser.Error + list Paper.t) * nat) :=
  loop fuel (mkLoop [] 0 true calls0).

(** Pagination from one state to another through pages that were
    fetched successfully, each with at least one entry. *)
Inductive Paginated : LoopState → list (list Paper.t) → LoopState → Prop :=
| paginated_nil st : Paginated st [] st
| paginated_cons st parsed pages st' :
    loopGuard st = true →
    upstream (calls st) (request st) = Page parsed →
    Parsed.entries parsed ≠ [] →
    Paginated (advance st parsed) pages st' →
    Paginated st (Parsed.entries parsed :: pages) st'.

End Query.

Record MultiState := mkMulti {
  m_allPapers : list Paper.t;
  seenIds : gset string;
  m_calls : nat
}.

(** The body of the inner [for] loop of [fetchPapersMultiQuery]. *)
Definition addIfNew (st : MultiState) (paper : Paper.t) : MultiState :=
  if bool_decide (Paper.id paper ∈ seenIds st) then st
  else mkMulti (m_allPapers st ++ [paper]) ({[Paper.id paper]} ∪ seenIds st)
               (m_calls st).

(** The ids in [seenIds] are those of the papers collected so far. *)
Definition seenCollected (st : MultiState) : Prop :=
  ∀ i, i ∈ seenIds st ↔ i ∈ Paper.id <$> m_allPapers st.

(** One query: a failed fetch is caught and skipped. *)
Definition runQuery (fuel : nat) (options : Options.t) (st : MultiState) (q : Query.t)
    : option MultiState :=
  r ← fetchPapersForQuery (Query.query q) options fuel (m_calls st);
  match r with
  | (inr papers, n) =>
      Some (foldl addIfNew (mkMulti (m_allPapers st) (seenIds st) n) papers)
  | (inl _, n) => Some (mkMulti (m_allPapers st) (seenIds st) n)
  end.

Definition fetchPapersMultiQuery (fuel : nat) (queries : list Query.t)
    (options : Options.t) (calls0 : nat) : option (list Paper.t * nat) :=
  st ← foldl (λ st q, st ≫= λ st, runQuery fuel options st q)
             (Some (mkMulti [] ∅ calls0)) queries;
  Some (m_allPapers st, m_calls st).

(** The outcomes of the fetches of a list of queries run in order. *)
Inductive Outcomes (fuel : nat) (options : Options.t)
    : nat → list Query.t → list (XmlParser.Error + list Paper.t) → nat → Prop :=
| outcomes_nil n : Outcomes fuel options n [] [] n
| outcomes_cons n q r n' queries rs n'' :
    fetchPapersForQuery (Query.query q) options fuel n = Some (r, n') →
    Outcomes fuel options n' queries rs n'' →
    Outcomes fuel options n (q :: queries) (r :: rs) n''.

End Upstream.

(** The papers of the fetches that succeeded, in order. *)
Definition successes (rs : list (XmlParser.Error + list Paper.t)) : list Paper.t :=
  concat (omap (λ r, match r with inr papers => Some papers | inl _ => None end) rs).

(** A service that never returns more entries than the request asks
    for in [max_results]. *)
Definition wellBehaved (upstream : nat → Request.t → Response) : Prop :=
  ∀ n req parsed, upstream n req = Page parsed →
    (length (Parsed.entries parsed) ≤ Request.max_results req)%nat.

(** The window of a result list that a request addresses with
    [start] and [max_results]. *)
Definition window (corpus : list Paper.t) (req : Request.t) : list Paper.t :=
  take (Request.max_results req) (drop (Request.start req) corpus).

(** A service that holds one fixed result list and answers every
    request with the window asked for; the total it reports is not
    below the length of the list, or is not a number. *)
Definition serves (corpus : list Paper.t) (upstream : nat → Request.t → Response) : Prop :=
  ∀ n req, ∃ total,
    upstream n req = Page (Parsed.mk (window corpus req) total) ∧
    (∀ t, total = Some t → Z.of_nat (length corpus) ≤ t).

Definition serve (corpus : list Paper.t) (n : nat) (req : Request.t) : Response :=
  Page (Parsed.mk (window corpus req) (Some (Z.of_nat (length corpus)))).

(** A service whose every page is full and reports no usable total. *)
Definition endless (upstream : nat → Request.t → Response) : Prop :=
  ∀ n req, ∃ entries,
    upstream n req = Page (Parsed.mk entries None) ∧
    length entries = Request.max_results req.

(** The first [maxResults] records of a list. *)
Definition capped (options : Options.t) (l : list Paper.t) : list Paper.t :=
  match Options.maxResults options with
  | Some m => take m l
  | None => l
  end.

(** Example data: an entry as [parseEntry] returns it. *)
Definition entry (id title : string) : Paper.t :=
  {| Paper.id := id;
     Paper.title := title;
     Paper.authors := [Author.mk "A. Author" None];
     Paper.abstract := Some "Abstract.";
     Paper.publishedDate := "2024-05-01T00:00:00Z";
     Paper.updatedDate := Some "2024-05-01T00:00:00Z";
     Paper.arxivUrl := Some ("https://arxiv.org/abs/" +:+ id);
     Paper.categories := None;
     Paper.tags := None;
     Paper.fetchedAt := None;
     Paper.rest := [("primaryCategory", "cs.CL")] |}.

Definition paperA : Paper.t := entry "2405.00001" "A".
Definition paperB : Paper.t := entry "2405.00002" "B".
Definition paperB_again : Paper.t := entry "2405.00002" "B, as the second query returns it".
Definition paperC : Paper.t := entry "2405.00003" "C".

Definition exampleQueries : list Query.t :=
  [ Query.mk "abs:agent" "Q1" "agents"; Query.mk "abs:planning" "Q2" "planning" ].

Definition exampleClock (n : nat) : string := "2024-05-02T12:00:00.000Z".

(** Q1 returns [A, B] and Q2 returns [B, C]. *)
Definition twoQueriesUpstream (n : nat) (req : Request.t) : Response :=
  match n with
  | 0%nat => Page (Parsed.mk [paperA; paperB] (Some 2))
  | 1%nat => Page (Parsed.mk [paperB_again; paperC] (Some 2))
  | _ => Failed (XmlParser.mkError "HTTP 503: Service Unavailable")
  end.

(** A full first page of a hundred entries, then a failure. *)
Definition numbered (n : nat) : Paper.t :=
  entry ("2405.1" +:+ string_of_list_ascii
           [ascii_of_nat (48 + (n `div` 10) `mod` 10); ascii_of_nat (48 + n `mod` 10);
            "0"%char; "0"%char])
        "numbered".

Definition fullPage : list Paper.t := numbered <$> seq 0 100.

Definition secondPageFails (n : nat) (req : Request.t) : Response :=
  match n with
  | 0%nat => Page (Parsed.mk fullPage (Some 250))
  | _ => Failed (XmlParser.mkError "HTTP 503: Service Unavailable")
  end.

Definition alwaysFails (n : nat) (req : Request.t) : Response :=
  Failed (XmlParser.mkError "HTTP 503: Service Unavailable").

Definition alwaysFull (n : nat) (req : Request.t) : Response :=
  Page (Parsed.mk (replicate (Request.max_results req) paperA) None).

End Fetcher.

(** ** The paper files: one partition per publication year *)

(** The key of a partition is the number [parseInt] reads from the
    first four characters of [publishedDate]; [None] is the key [NaN]. *)
Definition yearOf (paper : Paper.t) : option Z :=
  Js.parseInt (String.substring 0 4 (Paper.publishedDate paper)).

Module YearFile.
Record t := mk { year : option Z; count : nat; papers : list Paper.t }.
End YearFile.

Module YearStore.

(** [loadYearPapers]: a missing file is an empty partition. *)
Definition loadYearPapers (store : gmap (option Z) YearFile.t) (year : option Z)
    : list Paper.t :=
  match store !! year with
  | Some data => YearFile.papers data
  | None => []
  end.

Definition saveYearPapers (year : option Z) (papers : list Paper.t)
    (store : gmap (option Z) YearFile.t) : gmap (option Z) YearFile.t :=
  <[year := YearFile.mk year (length papers) papers]> store.

(** [loadAllPapers] of build-index.js: the partitions, concatenated in
    directory order. *)
Definition loadAllPapers (store : gmap (option Z) YearFile.t) : list Paper.t :=
  concat (YearFile.papers <$> (map_to_list store).*2).

End YearStore.

(** ** build-index.js *)

Module IndexBuilder.

Module Entry.
Record t := mk {
  id : string;
  title : string;
  authors : list string;
  abstract : string;
  publishedDate : string;
  arxivUrl : string;
  categories : list string;
  year : option Z
}.
End Entry.

Module Meta.
Record t := mk {
  lastUpdated : string;
  totalPapers : nat;
  categories : list string;
  years : list (option Z)
}.
End Meta.

Module Index.
Record t := mk { meta : Meta.t; papers : list Entry.t }.
End Index.

(** The projection of a paper to its index entry. *)
Definition project (paper : Paper.t) : Entry.t :=
  {| Entry.id := Paper.id paper;
     Entry.title := Paper.title paper;
     Entry.authors := Author.name <$> Paper.authors paper;
     Entry.abstract := Js.str_or (Paper.abstract paper) "";
     Entry.publishedDate := Paper.publishedDate paper;
     Entry.arxivUrl :=
       Js.str_or (Paper.arxivUrl paper) ("https://arxiv.org/abs/" +:+ Paper.id paper);
     Entry.categories := Js.or_default (Paper.categories paper) [];
     Entry.year := yearOf paper |}.

Section Build.

Variable Date : string → option Z.

(** [(a, b) => new Date(b.publishedDate) - new Date(a.publishedDate)] *)
Definition newestFirst (a b : Entry.t) : Z :=
  Js.minus_cmp (Date (Entry.publishedDate b)) (Date (Entry.publishedDate a)).

(** [buildIndex]; [now] is [new Date().toISOString()]. *)
Definition buildIndex (now : string) (papers : list Paper.t) (blocklist : gset string)
    : Index.t :=
  let indexPapers :=
    Js.sort newestFirst (project <$> filter (λ paper, Paper.id paper ∉ blocklist) papers) in
  let years :=
    Js.sort (λ a b, Js.minus_cmp b a) (Js.set_values [] (Entry.year <$> indexPapers)) in
  let categoriesSet := Js.set_values [] (indexPapers ≫= Entry.categories) in
  {| Index.meta :=
       {| Meta.lastUpdated := now;
          Meta.totalPapers := length indexPapers;
          Meta.categories := Js.sort Js.string_cmp categoriesSet;
          Meta.years := years |};
     Index.papers := indexPapers |}.

(** [buildAndSaveIndex], on the year files [store] of the directory
    it reads, [public/data/papers]: the index written, or [None] when
    no paper was found and the previous index is left alone. *)
Definition buildAndSaveIndex (now : string) (store : gmap (option Z) YearFile.t)
    (blocklist : gset string) : option Index.t :=
  let papers := YearStore.loadAllPapers store in
  if bool_decide (length papers = 0%nat) then None
  else Some (buildIndex now papers blocklist).

End Build.

(** Example partitions: p1 alone in 2023, p2 and p3 in 2024. *)
Definition indexed (id published : string) : Paper.t :=
  {| Paper.id := id;
     Paper.title := "Paper " +:+ id;
     Paper.authors := [Author.mk "A. Author" None; Author.mk "B. Author" (Some "Lab")];
     Paper.abstract := Some "Abstract.";
     Paper.publishedDate := published;
     Paper.updatedDate := Some published;
     Paper.arxivUrl := None;
     Paper.categories := Some ["agents"];
     Paper.tags := Some (Tags.mk (Some ["agents"]) (Some []));
     Paper.fetchedAt := None;
     Paper.rest := [] |}.

Definition p1 : Paper.t := indexed "2306.00001" "2023-06-01T00:00:00Z".
Definition p2 : Paper.t := indexed "2402.00002" "2024-02-01T00:00:00Z".
Definition p3 : Paper.t := indexed "2403.00003" "2024-03-01T00:00:00Z".

Definition examplePartitions : gmap (option Z) YearFile.t :=
  YearStore.saveYearPapers (Some 2023) [p1]
    (YearStore.saveYearPapers (Some 2024) [p2; p3] ∅).

Definition exampleBlocklist : gset string := {[ "2306.00001" ]}.

End IndexBuilder.

(** ** update-incremental.js and update-full.js *)

Module Pipeline.

(** What one run works on: the papers [fetchPapersMultiQuery] returned,
    the category definitions loaded and the timestamp of the run. *)
Module Batch.
Record t := mk {
  fetched : list Paper.t;
  categories : list Category.t;
  timestamp : string
}.
End Batch.

Inductive Run :=
| Incremental (batch : Batch.t)
| Full (batch : Batch.t).

Definition batchOf (r : Run) : Batch.t :=
  match r with
  | Incremental batch => batch
  | Full batch => batch
  end.

(** The two scripts. *)
Inductive Script :=
| UpdateIncremental
| UpdateFull.

#[global] Instance script_eq_dec : EqDecision Script.
Proof. solve_decision. Defined.

Definition scriptOf (r : Run) : Script :=
  match r with
  | Incremental _ => UpdateIncremental
  | Full _ => UpdateFull
  end.

(** The runs of one script among the runs made. *)
Definition runsOf (script : Script) (rs : list Run) : list Run :=
  filter (λ r, scriptOf r = script) rs.

(** The paper files on disk.  The scripts do not share a directory:
    update-incremental.js sets [DATA_DIR] to [scripts/../data] and so
    reads and writes the year files of [data/papers], while
    update-full.js (and build-index.js, for the index) sets it to
    [scripts/../public/data] and works on [public/data/papers]. *)
Module Disk.
Record t := mk {
  dataPapers : gmap (option Z) YearFile.t;
  publicPapers : gmap (option Z) YearFile.t
}.

Definition empty : t := mk ∅ ∅.

(** [PAPERS_DIR] of a script. *)
Definition papersOf (disk : t) (script : Script) : gmap (option Z) YearFile.t :=
  match script with
  | UpdateIncremental => dataPapers disk
  | UpdateFull => publicPapers disk
  end.
End Disk.

(** [paper.fetchedAt = timestamp] *)
Definition stamp (timestamp : string) (paper : Paper.t) : Paper.t :=
  {| Paper.id := Paper.id paper;
     Paper.title := Paper.title paper;
     Paper.authors := Paper.authors paper;
     Paper.abstract := Paper.abstract paper;
     Paper.publishedDate := Paper.publishedDate paper;
     Paper.updatedDate := Paper.updatedDate paper;
     Paper.arxivUrl := Paper.arxivUrl paper;
     Paper.categories := Paper.categories paper;
     Paper.tags := Paper.tags paper;
     Paper.fetchedAt := Some timestamp;
     Paper.rest := Paper.rest paper |}.

Definition organizePapersByYear (papers : list Paper.t) : gmap (option Z) (list Paper.t) :=
  foldl (λ papersByYear paper,
           let year := yearOf paper in
           <[year := Js.or_default (papersByYear !! year) [] ++ [paper]]> papersByYear)
        ∅ papers.

(** [Object.keys(papersByYear).sort((a, b) => b - a)].  The order in
    which the keys are enumerated before sorting is that of the map;
    the partitions written do not depend on it. *)
Definition yearsOf (papersByYear : gmap (option Z) (list Paper.t)) : list (option Z) :=
  Js.sort (λ a b, Js.minus_cmp b a) (map_to_list papersByYear).*1.

(** Categorize, deduplicate within the batch and group by year. *)
Definition prepare (batch : Batch.t) : gmap (option Z) (list Paper.t) :=
  let papers := stamp (Batch.timestamp batch) <$> Batch.fetched batch in
  let categorizedPapers := Categorizer.categorizePapers papers (Batch.categories batch) in
  let dedupResult := Deduplicator.deduplicatePapers categorizedPapers in
  organizePapersByYear (Deduplicator.unique dedupResult).

Section Runs.

Variable Date : string → option Z.

(** The body of the loop over the years in update-incremental.js. *)
Definition mergeYear (papersByYear : gmap (option Z) (list Paper.t))
    (store : gmap (option Z) YearFile.t) (year : option Z) : gmap (option Z) YearFile.t :=
  let newPapers := Js.or_default (papersByYear !! year) [] in
  let existingPapers := YearStore.loadYearPapers store year in
  let mergeResult := Deduplicator.mergePapers Date existingPapers newPapers in
  YearStore.saveYearPapers year (Deduplicator.merged mergeResult) store.

(** The body of the loop over the years in update-full.js: a year
    without stored papers is written as it comes. *)
Definition mergeYearFull (papersByYear : gmap (option Z) (list Paper.t))
    (store : gmap (option Z) YearFile.t) (year : option Z) : gmap (option Z) YearFile.t :=
  let newPapers := Js.or_default (papersByYear !! year) [] in
  let existingPapers := YearStore.loadYearPapers store year in
  if bool_decide (0 < length existingPapers)%nat
  then
    let mergeResult := Deduplicator.mergePapers Date existingPapers newPapers in
    YearStore.saveYearPapers year (Deduplicator.merged mergeResult) store
  else YearStore.saveYearPapers year newPapers store.

(** What one run of a script does to the year files [store] of the
    directory it works on; nothing is written when nothing was
    fetched.  Which directory that is, [execute] tells. *)
Definition run (store : gmap (option Z) YearFile.t) (r : Run) : gmap (option Z) YearFile.t :=
  if bool_decide (length (Batch.fetched (batchOf r)) = 0%nat) then store
  else
    let papersByYear := prepare (batchOf r) in
    let years := yearsOf papersByYear in
    match r with
    | Incremental _ => foldl (mergeYear papersByYear) store years
    | Full _ => foldl (mergeYearFull papersByYear) store years
    end.

(** Runs made one after the other on the year files of one
    directory. *)
Definition runs (store : gmap (option Z) YearFile.t) (rs : list Run)
    : gmap (option Z) YearFile.t :=
  foldl run store rs.

(** One run of a script on the disk: it reads and writes the year
    files of its own directory and leaves the other directory alone. *)
Definition execute (disk : Disk.t) (r : Run) : Disk.t :=
  match r with
  | Incremental _ =>
      Disk.mk (run (Disk.dataPapers disk) r) (Disk.publicPapers disk)
  | Full _ =>
      Disk.mk (Disk.dataPapers disk) (run (Disk.publicPapers disk) r)
  end.

Definition executions (disk : Disk.t) (rs : list Run) : Disk.t :=
  foldl execute disk rs.

(** Every record of the store is filed under its year, stems from a
    fetched paper of the same id and year, and shares its id with no
    other record of its partition. *)
Definition sourced (fetched : list Paper.t) (r : Paper.t) : Prop :=
  ∃ p, p ∈ fetched ∧ Paper.id p = Paper.id r ∧ yearOf p = yearOf r.

Definition storeOk (fetched : list Paper.t) (store : gmap (option Z) YearFile.t) : Prop :=
  ∀ year data, store !! year = Some data →
    NoDup (Paper.id <$> YearFile.papers data) ∧
    YearFile.count data = length (YearFile.papers data) ∧
    ∀ r, r ∈ YearFile.papers data → yearOf r = year ∧ sourced fetched r.

(** What a year's new papers satisfy when they reach the merge. *)
Definition freshOk (fetched : list Paper.t) (year : option Z) (newPapers : list Paper.t)
    : Prop :=
  NoDup (Paper.id <$> newPapers) ∧
  ∀ n, n ∈ newPapers → yearOf n = year ∧ sourced fetched n.

End Runs.

(** All the papers the runs fetched. *)
Definition fetchedBy (rs : list Run) : list Paper.t :=
  rs ≫= (λ r, Batch.fetched (batchOf r)).

(** Every id comes with one publication year. *)
Definition yearStable (papers : list Paper.t) : Prop :=
  ∀ p q, p ∈ papers → q ∈ papers → Paper.id p = Paper.id q → yearOf p = yearOf q.

(** Example runs: the same id fetched with a publication date in 2023
    and, in a later run, with one in 2024. *)
Definition firstSeen : Paper.t := Fetcher.entry "2312.09999" "First version".

Definition in2023 : Paper.t :=
  {| Paper.id := Paper.id firstSeen;
     Paper.title := Paper.title firstSeen;
     Paper.authors := Paper.authors firstSeen;
     Paper.abstract := Paper.abstract firstSeen;
     Paper.publishedDate := "2023-12-31T23:50:00Z";
     Paper.updatedDate := Some "2023-12-31T23:50:00Z";
     Paper.arxivUrl := Paper.arxivUrl firstSeen;
     Paper.categories := None;
     Paper.tags := None;
     Paper.fetchedAt := None;
     Paper.rest := [] |}.

Definition in2024 : Paper.t :=
  {| Paper.id := Paper.id firstSeen;
     Paper.title := Paper.title firstSeen;
     Paper.authors := Paper.authors firstSeen;
     Paper.abstract := Paper.abstract firstSeen;
     Paper.publishedDate := "2024-01-01T00:10:00Z";
     Paper.updatedDate := Some "2024-01-02T00:00:00Z";
     Paper.arxivUrl := Paper.arxivUrl firstSeen;
     Paper.categories := None;
     Paper.tags := None;
     Paper.fetchedAt := None;
     Paper.rest := [] |}.

Definition movingRuns : list Run :=
  [ Incremental (Batch.mk [in2023] Categorizer.exampleCategories "2024-01-01T06:00:00.000Z");
    Incremental (Batch.mk [in2024] Categorizer.exampleCategories "2024-01-03T06:00:00.000Z") ].

Definition steadyRuns : list Run :=
  [ Full (Batch.mk [Fetcher.paperA; Fetcher.paperB; IndexBuilder.p1]
                   Categorizer.exampleCategories "2024-05-02T06:00:00.000Z");
    Incremental (Batch.mk [Fetcher.paperB_again; Fetcher.paperC]
                          Categorizer.exampleCategories "2024-05-03T06:00:00.000Z") ].

End Pipeline.

(** ** docs/js/search.js *)

Module SearchFilter.

Module Filters.
Record t := mk {
  searchQuery : string;
  categories : gset string;
  years : gset Z;
  sortBy : string;
  viewMode : string
}.
End Filters.

(** The state of a [SearchFilter] once [initializeSearch] has run;
    the papers are the entries of the index. *)
Record t := mk {
  papers : list IndexBuilder.Entry.t;
  filters : Filters.t;
  blocklist : gset string;
  savedlist : gset string
}.

Definition blockPaper (paperId : string) (sf : t) : t :=
  mk (papers sf) (filters sf) ({[paperId]} ∪ blocklist sf) (savedlist sf).

Definition unblockPaper (paperId : string) (sf : t) : t :=
  mk (papers sf) (filters sf) (blocklist sf ∖ {[paperId]}) (savedlist sf).

(** Saving a paper takes it off the block-list. *)
Definition savePaper (paperId : string) (sf : t) : t :=
  mk (papers sf) (filters sf) (blocklist sf ∖ {[paperId]}) ({[paperId]} ∪ savedlist sf).

Definition unsavePaper (paperId : string) (sf : t) : t :=
  mk (papers sf) (filters sf) (blocklist sf) (savedlist sf ∖ {[paperId]}).

Definition setViewMode (viewMode : string) (sf : t) : t :=
  mk (papers sf)
     (Filters.mk (Filters.searchQuery (filters sf)) (Filters.categories (filters sf))
                 (Filters.years (filters sf)) (Filters.sortBy (filters sf)) viewMode)
     (blocklist sf) (savedlist sf).

(** [this.filters.years.has(paper.year)]; a year that is [null] in
    the index is in no selection. *)
Definition yearSelected (years : gset Z) (year : option Z) : bool :=
  match year with
  | Some y => bool_decide (y ∈ years)
  | None => false
  end.

(** The [switch] on the view mode. *)
Definition byViewMode (sf : t) (results : list IndexBuilder.Entry.t)
    : list IndexBuilder.Entry.t :=
  if decide (Filters.viewMode (filters sf) = "saved")
  then filter (λ paper, IndexBuilder.Entry.id paper ∈ savedlist sf) results
  else if decide (Filters.viewMode (filters sf) = "removed")
  then filter (λ paper, IndexBuilder.Entry.id paper ∈ blocklist sf) results
  else filter (λ paper, IndexBuilder.Entry.id paper ∉ blocklist sf) results.

Definition byCategories (sf : t) (results : list IndexBuilder.Entry.t)
    : list IndexBuilder.Entry.t :=
  if decide (Filters.categories (filters sf) = ∅) then results
  else filter (λ paper, Exists (λ cat, cat ∈ Filters.categories (filters sf))
                               (IndexBuilder.Entry.categories paper))
              results.

Definition byYears (sf : t) (results : list IndexBuilder.Entry.t)
    : list IndexBuilder.Entry.t :=
  if decide (Filters.years (filters sf) = ∅) then results
  else filter (λ paper, yearSelected (Filters.years (filters sf))
                                     (IndexBuilder.Entry.year paper) = true)
              results.

(** [(a, b) => new Date(a.publishedDate) - new Date(b.publishedDate)] *)
Definition oldestFirst (Date : string → option Z) (a b : IndexBuilder.Entry.t) : Z :=
  Js.minus_cmp (Date (IndexBuilder.Entry.publishedDate a))
               (Date (IndexBuilder.Entry.publishedDate b)).

(** [scoreMap.get(id) || 1]: the score of the last result with the
    id; a missing score and the score 0 count as 1. *)
Definition scoreOr1 (searchResults : list (IndexBuilder.Entry.t * QArith_base.Q))
    (id : string) : QArith_base.Q :=
  match list_find (λ r, IndexBuilder.Entry.id r.1 = id) (reverse searchResults) with
  | Some (_, (_, score)) =>
      if QArith_base.Qeq_bool score (QArith_base.Qmake 0 1)
      then QArith_base.Qmake 1 1 else score
  | None => QArith_base.Qmake 1 1
  end.

Definition byScore (searchResults : list (IndexBuilder.Entry.t * QArith_base.Q))
    (a b : IndexBuilder.Entry.t) : Z :=
  match QArith_base.Qcompare (scoreOr1 searchResults (IndexBuilder.Entry.id a))
                             (scoreOr1 searchResults (IndexBuilder.Entry.id b)) with
  | Lt => -1
  | Eq => 0
  | Gt => 1
  end.

Section Search.

Variable Date : string → option Z.

(** [this.fuse.search(query)] over the papers the search was
    initialized with: the items found, with their scores. *)
Variable fuse : list IndexBuilder.Entry.t → string → list (IndexBuilder.Entry.t * QArith_base.Q).

Definition sortPapers (sf : t) (papers : list IndexBuilder.Entry.t)
    : list IndexBuilder.Entry.t :=
  let sortBy := Filters.sortBy (filters sf) in
  if decide (sortBy = "date-desc") then Js.sort (IndexBuilder.newestFirst Date) papers
  else if decide (sortBy = "date-asc") then Js.sort (oldestFirst Date) papers
  else if decide (sortBy = "relevance") then
    if decide (Filters.searchQuery (filters sf) = "")
    then Js.sort (IndexBuilder.newestFirst Date) papers
    else papers
  else papers.

Definition applyFilters (sf : t) : list IndexBuilder.Entry.t :=
  let results := byYears sf (byCategories sf (byViewMode sf (papers sf))) in
  let searchQuery := Filters.searchQuery (filters sf) in
  if decide (searchQuery = "") then sortPapers sf results
  else
    let searchResults := fuse (papers sf) searchQuery in
    let searchIds := (λ r, IndexBuilder.Entry.id r.1) <$> searchResults in
    let results := filter (λ paper, IndexBuilder.Entry.id paper ∈ searchIds) results in
    if decide (Filters.sortBy (filters sf) = "relevance")
    then Js.sort (byScore searchResults) results
    else sortPapers sf results.

End Search.

(** Example state: the three papers of the index examples, no filter
    set, the default view. *)
Definition exampleState : t :=
  mk (IndexBuilder.project <$> [IndexBuilder.p1; IndexBuilder.p2; IndexBuilder.p3])
     (Filters.mk "" ∅ ∅ "date-desc" "all") ∅ ∅.

Definition noHits (papers : list IndexBuilder.Entry.t) (query : string)
    : list (IndexBuilder.Entry.t * QArith_base.Q) := [].

End SearchFilter.

(** * Properties *)

(** ** Lists *)

Section ListFacts.
Context {A : Type}.

Lemma filter_ext_in (P Q : A → Prop) `{!∀ x, Decision (P x), !∀ x, Decision (Q x)}
    (l : list A) :
  (∀ x, x ∈ l → P x ↔ Q x) → filter P l = filter Q l.
Proof.
  induction l as [|x l IH]; intros Hext; [done|].
  rewrite !filter_cons.
  assert (Hx : P x ↔ Q x) by (apply Hext; apply list_elem_of_here).
  rewrite IH by (intros y Hy; apply Hext; by apply list_elem_of_further).
  destruct (decide (P x)), (decide (Q x)); tauto.
Qed.

Lemma filter_all (P : A → Prop) `{!∀ x, Decision (P x)} (l : list A) :
  (∀ x, x ∈ l → P x) → filter P l = l.
Proof.
  induction l as [|x l IH]; intros Hall; [done|].
  rewrite filter_cons_True by (apply Hall, list_elem_of_here).
  f_equal. apply IH. intros y Hy. by apply Hall, list_elem_of_further.
Qed.

Lemma filter_none (P : A → Prop) `{!∀ x, Decision (P x)} (l : list A) :
  (∀ x, x ∈ l → ¬ P x) → filter P l = [].
Proof.
  induction l as [|x l IH]; intros Hall; [done|].
  rewrite filter_cons_False by (apply Hall, list_elem_of_here).
  apply IH. intros y Hy. by apply Hall, list_elem_of_further.
Qed.

Lemma elem_of_concat (x : A) (ls : list (list A)) :
  x ∈ concat ls ↔ ∃ l, x ∈ l ∧ l ∈ ls.
Proof.
  induction ls as [|l0 ls IH]; simpl.
  - split; [by intros ?%elem_of_nil | by intros (l & _ & ?%elem_of_nil)].
  - rewrite elem_of_app, IH. split.
    + intros [Hx|(l & Hx & Hl)].
      * exists l0. split; [done|apply list_elem_of_here].
      * exists l. split; [done|by apply list_elem_of_further].
    + intros (l & Hx & [->|Hl]%elem_of_cons); [by left|].
      right. by exists l.
Qed.

Lemma StronglySorted_weaken (R R' : A → A → Prop) (l : list A) :
  (∀ a b, R a b → R' a b) → StronglySorted R l → StronglySorted R' l.
Proof.
  intros HR. induction 1 as [|x l Hl IH Hx]; constructor; [done|].
  eapply Forall_impl; [exact Hx|]. intros y. apply HR.
Qed.

End ListFacts.

(** ** The insertion-ordered map *)

Section PaperMapFacts.
Import Deduplicator.

Lemma map_get_set_eq k v m : map_get k (map_set k v m) = Some v.
Proof.
  induction m as [|[k' v'] m IH]; simpl.
  - by rewrite decide_True.
  - destruct (decide (k = k')) as [->|Hne]; simpl.
    + by rewrite decide_True.
    + by rewrite decide_False.
Qed.

Lemma map_get_set_ne k k' v m : k ≠ k' → map_get k' (map_set k v m) = map_get k' m.
Proof.
  intros Hne. induction m as [|[k0 v0] m IH]; simpl.
  - by rewrite decide_False.
  - destruct (decide (k = k0)) as [->|Hne0]; simpl.
    + by rewrite !decide_False.
    + by rewrite IH.
Qed.

Lemma map_get_None k m : map_get k m = None ↔ k ∉ m.*1.
Proof.
  induction m as [|[k' v'] m IH]; simpl.
  - split; [intros _; apply not_elem_of_nil | done].
  - rewrite not_elem_of_cons. destruct (decide (k = k')) as [->|Hne]; [split; [done|by intros []]|].
    rewrite IH. split; [done|by intros []].
Qed.

Lemma map_get_Some_elem k v m : map_get k m = Some v → (k, v) ∈ m.
Proof.
  induction m as [|[k' v'] m IH]; simpl; [done|].
  destruct (decide (k = k')) as [->|Hne].
  - intros [= ->]. apply list_elem_of_here.
  - intros H. apply list_elem_of_further. by apply IH.
Qed.

Lemma map_get_elem k v m : NoDup m.*1 → (k, v) ∈ m → map_get k m = Some v.
Proof.
  induction m as [|[k' v'] m IH]; simpl.
  - intros _ H. by apply elem_of_nil in H.
  - rewrite NoDup_cons. intros [Hnotin Hnd] [Heq|Hin]%elem_of_cons.
    + injection Heq as -> ->. by rewrite decide_True.
    + destruct (decide (k = k')) as [->|Hne]; [|by apply IH].
      exfalso. apply Hnotin. apply list_elem_of_fmap. by exists (k', v).
Qed.

Lemma map_set_fresh k v m : k ∉ m.*1 → map_set k v m = m ++ [(k, v)].
Proof.
  induction m as [|[k' v'] m IH]; simpl; [done|].
  rewrite not_elem_of_cons. intros [Hne Hnotin].
  rewrite decide_False by done. by rewrite IH.
Qed.

Lemma map_set_keys_present k v m : k ∈ m.*1 → (map_set k v m).*1 = m.*1.
Proof.
  induction m as [|[k' v'] m IH]; simpl.
  - intros H. by apply elem_of_nil in H.
  - intros Hin. destruct (decide (k = k')) as [->|Hne]; simpl; [done|].
    f_equal. apply IH. apply elem_of_cons in Hin as [?|?]; done.
Qed.

Lemma map_set_NoDup k v m : NoDup m.*1 → NoDup (map_set k v m).*1.
Proof.
  intros Hnd. destruct (decide (k ∈ m.*1)) as [Hin|Hnotin].
  - by rewrite map_set_keys_present.
  - rewrite map_set_fresh by done. rewrite fmap_app. simpl.
    apply NoDup_app. split_and!; [done| |apply NoDup_singleton].
    intros x Hx ->%list_elem_of_singleton. done.
Qed.

Lemma map_set_keyed k v m : Paper.id v = k → keyed m → keyed (map_set k v m).
Proof.
  intros Hk. unfold keyed. induction m as [|[k' v'] m IH]; simpl; intros Hm.
  - by constructor.
  - apply Forall_cons in Hm as [H1 H2].
    destruct (decide (k = k')) as [->|Hne]; constructor; auto.
Qed.

Lemma map_set_elem k v m kv :
  kv ∈ map_set k v m → kv = (k, v) ∨ kv ∈ m.
Proof.
  induction m as [|[k' v'] m IH]; simpl.
  - intros ->%list_elem_of_singleton. by left.
  - destruct (decide (k = k')) as [->|Hne].
    + intros [->|H]%elem_of_cons; [by left|]. right. by apply list_elem_of_further.
    + intros [->|H]%elem_of_cons; [right; apply list_elem_of_here|].
      destruct (IH H) as [->|?]; [by left|]. right. by apply list_elem_of_further.
Qed.

Lemma initialMap_app m1 m2 :
  keyed m2 → NoDup (m1 ++ m2).*1 →
  foldl (λ m paper, map_set (Paper.id paper) paper m) m1 (map_values m2) = m1 ++ m2.
Proof.
  revert m1. induction m2 as [|[k v] m2 IH]; intros m1 Hk Hnd; simpl.
  - by rewrite app_nil_r.
  - apply Forall_cons in Hk as [Hkv Hk]. simpl in Hkv. rewrite Hkv.
    rewrite fmap_app in Hnd. simpl in Hnd.
    rewrite map_set_fresh.
    + unfold map_values in IH. rewrite IH; [by rewrite <- app_assoc|done|].
      rewrite <- app_assoc, fmap_app. done.
    + apply NoDup_app in Hnd as (_ & Hdis & _). intros Hin.
      apply (Hdis k Hin). apply list_elem_of_here.
Qed.

Lemma initialMap_values m : keyed m → NoDup m.*1 → initialMap (map_values m) = m.
Proof. intros Hk Hnd. unfold initialMap. by rewrite initialMap_app. Qed.

Lemma initialMap_wf_from m0 l :
  keyed m0 → NoDup m0.*1 →
  let m := foldl (λ m paper, map_set (Paper.id paper) paper m) m0 l in
  keyed m ∧ NoDup m.*1.
Proof.
  revert m0. induction l as [|p l IH]; intros m0 Hk Hnd; simpl; [done|].
  apply IH; [by apply map_set_keyed | by apply map_set_NoDup].
Qed.

Lemma initialMap_wf l : keyed (initialMap l) ∧ NoDup (initialMap l).*1.
Proof. apply initialMap_wf_from; [constructor | constructor]. Qed.

End PaperMapFacts.

(** ** mergePapers *)

Section MergeFacts.
Import Deduplicator.
Variable Date : string → option Z.

Lemma date_gt_irrefl a : Js.date_gt a a = false.
Proof. destruct a; simpl; [|done]. apply bool_decide_eq_false. lia. Qed.

Lemma date_gt_chain a b c :
  Js.date_gt a b = false → Js.date_gt c b = true → Js.date_gt a c = false.
Proof.
  destruct a, b, c; simpl; try done.
  rewrite bool_decide_eq_false, bool_decide_eq_true, bool_decide_eq_false. lia.
Qed.

Lemma replacement_id n e : Paper.id (replacement n e) = Paper.id n.
Proof. done. Qed.

Lemma replacement_revisionDate n e :
  revisionDate Date (replacement n e) = revisionDate Date n.
Proof. done. Qed.

Lemma mergeStep_wf st n :
  keyed (paperMap st) → NoDup (paperMap st).*1 →
  keyed (paperMap (mergeStep Date st n)) ∧ NoDup (paperMap (mergeStep Date st n)).*1.
Proof.
  intros Hk Hnd. unfold mergeStep.
  destruct (map_get _ _) as [e|]; [destruct (Js.date_gt _ _)|]; simpl;
    auto using map_set_keyed, map_set_NoDup.
Qed.

Lemma mergeLoop_wf st l :
  keyed (paperMap st) → NoDup (paperMap st).*1 →
  keyed (paperMap (foldl (mergeStep Date) st l)) ∧
  NoDup (paperMap (foldl (mergeStep Date) st l)).*1.
Proof.
  revert st. induction l as [|n l IH]; intros st Hk Hnd; simpl; [done|].
  destruct (mergeStep_wf st n Hk Hnd). by apply IH.
Qed.

Lemma mergeStep_settles st n : settled Date (paperMap (mergeStep Date st n)) n.
Proof.
  unfold mergeStep, settled.
  destruct (map_get (Paper.id n) (paperMap st)) as [e|] eqn:Hget.
  - destruct (Js.date_gt _ _) eqn:Hgt; simpl.
    + exists (replacement n e). rewrite map_get_set_eq. split; [done|].
      rewrite replacement_revisionDate. apply date_gt_irrefl.
    + by exists e.
  - simpl. exists n. rewrite map_get_set_eq. split; [done|]. apply date_gt_irrefl.
Qed.

Lemma mergeStep_keeps_settled st n p :
  settled Date (paperMap st) p → settled Date (paperMap (mergeStep Date st n)) p.
Proof.
  intros (e & Hget & Hold). unfold mergeStep, settled.
  destruct (decide (Paper.id n = Paper.id p)) as [Heq|Hne].
  - rewrite Heq, Hget.
    destruct (Js.date_gt (revisionDate Date n) _) eqn:Hgt; simpl.
    + exists (replacement n e). rewrite <- Heq, map_get_set_eq. split; [done|].
      rewrite replacement_revisionDate. exact (date_gt_chain _ _ _ Hold Hgt).
    + by exists e.
  - destruct (map_get (Paper.id n) _) as [e'|];
      [destruct (Js.date_gt (revisionDate Date n) _)|]; simpl;
      exists e; rewrite ?map_get_set_ne by done; done.
Qed.

Lemma mergeLoop_keeps_settled st l p :
  settled Date (paperMap st) p → settled Date (paperMap (foldl (mergeStep Date) st l)) p.
Proof.
  revert st. induction l as [|n l IH]; intros st H; simpl; [done|].
  by apply IH, mergeStep_keeps_settled.
Qed.

Lemma mergeLoop_settles st l :
  Forall (settled Date (paperMap (foldl (mergeStep Date) st l))) l.
Proof.
  revert st. induction l as [|n l IH]; intros st; simpl; constructor.
  - apply mergeLoop_keeps_settled, mergeStep_settles.
  - apply IH.
Qed.

Lemma mergeStep_settled_noop st n : settled Date (paperMap st) n → mergeStep Date st n = st.
Proof. intros (e & Hget & Hold). unfold mergeStep. by rewrite Hget, Hold. Qed.

Lemma mergeLoop_settled_noop st l :
  Forall (settled Date (paperMap st)) l → foldl (mergeStep Date) st l = st.
Proof.
  induction 1 as [|n l Hn Hl IH]; simpl; [done|].
  by rewrite mergeStep_settled_noop.
Qed.

Lemma mergePapers_wf existing incoming :
  let m := paperMap (foldl (mergeStep Date) (mkMergeState (initialMap existing) 0 0) incoming) in
  keyed m ∧ NoDup m.*1.
Proof. destruct (initialMap_wf existing). by apply mergeLoop_wf. Qed.

(** C1. Merging the same incoming batch a second time into the result
    of a merge changes nothing: the merged sequence is the same as
    after one merge and the second merge counts no addition and no
    update.  This holds for every existing sequence and every batch,
    duplicates and unparsable dates included. *)
Theorem mergePapers_idempotent (existing incoming : list Paper.t) :
  let once := mergePapers Date existing incoming in
  let twice := mergePapers Date (merged once) incoming in
  merged twice = merged once ∧ added twice = 0%nat ∧ updated twice = 0%nat.
Proof.
  simpl. unfold mergePapers. simpl.
  set (st := foldl (mergeStep Date) (mkMergeState (initialMap existing) 0 0) incoming).
  destruct (mergePapers_wf existing incoming) as [Hk Hnd]. fold st in Hk, Hnd.
  rewrite (initialMap_values _ Hk Hnd).
  rewrite mergeLoop_settled_noop; [done|]. simpl. apply mergeLoop_settles.
Qed.

Lemma revised_cons_ne n inc e :
  Paper.id n ≠ Paper.id e → revised Date (n :: inc) e = revised Date inc e.
Proof.
  intros Hne. unfold revised. simpl. rewrite decide_False by done.
  destruct (list_find _ inc) as [[i x]|]; done.
Qed.

Lemma revised_cons_eq n inc e :
  Paper.id n = Paper.id e →
  revised Date (n :: inc) e =
    if Js.date_gt (revisionDate Date n) (revisionDate Date e) then replacement n e else e.
Proof. intros Heq. unfold revised. simpl. by rewrite decide_True. Qed.

Lemma revised_absent inc e : Paper.id e ∉ Paper.id <$> inc → revised Date inc e = e.
Proof.
  intros Hnotin. unfold revised.
  destruct (list_find _ inc) as [[i x]|] eqn:Hfind; [|done].
  apply list_find_Some in Hfind as (Hix & Hid & _).
  exfalso. apply Hnotin. apply list_elem_of_fmap. exists x. split; [done|].
  by eapply list_elem_of_lookup_2.
Qed.

Lemma map_set_fmap_replace {B} (F G : string * Paper.t → B) k v e m :
  NoDup m.*1 →
  map_get k m = Some e →
  F (k, v) = G (k, e) →
  (∀ kv, kv ∈ m → kv.1 ≠ k → F kv = G kv) →
  F <$> map_set k v m = G <$> m.
Proof.
  intros Hnd Hget Hat Hoff. induction m as [|[k' v'] m IH]; csimpl in *; [done|].
  apply NoDup_cons in Hnd as [Hk' Hnd].
  destruct (decide (k = k')) as [->|Hne]; csimpl.
  - injection Hget as ->. rewrite Hat. f_equal.
    apply Forall_fmap_ext_1, Forall_forall. intros kv Hkv.
    apply Hoff; [by apply list_elem_of_further|].
    intros Heq. apply Hk'. rewrite <- Heq. apply list_elem_of_fmap. by exists kv.
  - rewrite IH; [|done|done|].
    + f_equal. apply Hoff; [apply list_elem_of_here | simpl; congruence].
    + intros kv Hin. apply Hoff. by apply list_elem_of_further.
Qed.

Lemma filter_fresh_key (k : string) (keys : list string) (inc : list Paper.t) :
  k ∉ Paper.id <$> inc →
  filter (λ n, Paper.id n ∉ keys ++ [k]) inc = filter (λ n, Paper.id n ∉ keys) inc.
Proof.
  intros Hk. apply filter_ext_in. intros x Hx.
  rewrite elem_of_app, list_elem_of_singleton.
  split; [tauto|]. intros Hn [?|Heq]; [done|].
  apply Hk. rewrite <- Heq. apply list_elem_of_fmap. by exists x.
Qed.

(** The map after the loop over a batch of pairwise-distinct ids. *)
Lemma mergeLoop_shape m a u inc :
  keyed m → NoDup m.*1 → NoDup (Paper.id <$> inc) →
  paperMap (foldl (mergeStep Date) (mkMergeState m a u) inc) =
    ((λ kv, (kv.1, revised Date inc kv.2)) <$> m) ++
    ((λ n, (Paper.id n, n)) <$> filter (λ n, Paper.id n ∉ m.*1) inc).
Proof.
  revert m a u. induction inc as [|n inc IH]; intros m a u Hk Hnd Hinc.
  - simpl. rewrite app_nil_r. symmetry. rewrite <- (list_fmap_id m) at 2.
    apply list_fmap_ext. by intros i [k v] _.
  - apply NoDup_cons in Hinc as [Hn Hinc]. simpl foldl. unfold mergeStep at 2. simpl.
    destruct (map_get (Paper.id n) m) as [e|] eqn:Hget.
    + assert (Hin : Paper.id n ∈ m.*1).
      { destruct (decide (Paper.id n ∈ m.*1)) as [|Hnot]; [done|].
        apply map_get_None in Hnot. congruence. }
      assert (He : Paper.id e = Paper.id n).
      { apply map_get_Some_elem in Hget.
        unfold keyed in Hk. rewrite Forall_forall in Hk. apply (Hk _ Hget). }
      rewrite filter_cons_False by (by intros ?).
      destruct (Js.date_gt (revisionDate Date n) (revisionDate Date e)) eqn:Hgt.
      * rewrite IH; [|by apply map_set_keyed|by apply map_set_NoDup|done].
        rewrite (map_set_keys_present _ _ _ Hin). f_equal.
        apply (map_set_fmap_replace _ _ _ _ e); [done|done| |].
        -- simpl. f_equal. rewrite revised_absent by done.
           rewrite revised_cons_eq by done. by rewrite Hgt.
        -- intros [k v] Hkv Hne. simpl in *. f_equal.
           rewrite revised_cons_ne; [done|].
           unfold keyed in Hk. rewrite Forall_forall in Hk.
           specialize (Hk _ Hkv). simpl in Hk. congruence.
      * destruct (mkMergeState m a u) eqn:Est. injection Est as -> -> ->.
        rewrite IH by done. f_equal.
        apply Forall_fmap_ext_1, Forall_forall. intros [k v] Hkv. simpl. f_equal.
        destruct (decide (Paper.id n = k)) as [Heq|Hne].
        -- subst k. rewrite (map_get_elem _ _ _ Hnd Hkv) in Hget. injection Hget as ->.
           rewrite revised_cons_eq by done. rewrite Hgt.
           rewrite revised_absent; [done|]. by rewrite He.
        -- rewrite revised_cons_ne; [done|].
           unfold keyed in Hk. rewrite Forall_forall in Hk.
           specialize (Hk _ Hkv). simpl in Hk. congruence.
    + apply map_get_None in Hget as Hnotin.
      rewrite filter_cons_True by done.
      rewrite IH; [|by apply map_set_keyed|by apply map_set_NoDup|done].
      rewrite map_set_fresh by done. rewrite !fmap_app. simpl.
      rewrite filter_fresh_key by done. rewrite revised_absent by done.
      rewrite <- app_assoc. simpl. f_equal.
      apply Forall_fmap_ext_1, Forall_forall. intros [k v] Hkv. simpl. f_equal.
      rewrite revised_cons_ne; [done|].
      unfold keyed in Hk. rewrite Forall_forall in Hk.
      specialize (Hk _ Hkv). simpl in Hk. intros Heq. apply Hnotin.
      rewrite Heq, Hk. apply list_elem_of_fmap. by exists (k, v).
Qed.

Lemma initialMap_distinct existing :
  NoDup (Paper.id <$> existing) →
  initialMap existing = (λ p, (Paper.id p, p)) <$> existing.
Proof.
  intros Hnd. set (m := (λ p, (Paper.id p, p)) <$> existing).
  assert (Hv : map_values m = existing).
  { unfold map_values, m. rewrite <- list_fmap_compose. apply list_fmap_id. }
  rewrite <- Hv at 1. apply initialMap_values.
  - unfold keyed, m. apply Forall_fmap, Forall_forall. by intros p _.
  - unfold m. rewrite <- list_fmap_compose. done.
Qed.

(** The merged sequence, for an existing sequence and a batch that
    each have pairwise-distinct ids. *)
Lemma mergePapers_shape existing incoming :
  NoDup (Paper.id <$> existing) → NoDup (Paper.id <$> incoming) →
  merged (mergePapers Date existing incoming) =
    (revised Date incoming <$> existing) ++
    filter (λ n, Paper.id n ∉ Paper.id <$> existing) incoming.
Proof.
  intros Hex Hinc. unfold mergePapers. simpl.
  rewrite (initialMap_distinct _ Hex).
  rewrite mergeLoop_shape; [| | |done].
  - unfold map_values. rewrite fmap_app, <- !list_fmap_compose.
    f_equal. etransitivity; [|apply list_fmap_id]. done.
  - apply Forall_fmap, Forall_forall. by intros p _.
  - by rewrite <- list_fmap_compose.
Qed.

Lemma mergePapers_ids_NoDup existing incoming :
  NoDup (Paper.id <$> merged (mergePapers Date existing incoming)).
Proof.
  destruct (mergePapers_wf existing incoming) as [Hk Hnd]. unfold mergePapers. simpl.
  set (m := paperMap _) in *. clearbody m.
  replace (Paper.id <$> map_values m) with m.*1; [done|].
  unfold map_values. rewrite <- list_fmap_compose.
  apply Forall_fmap_ext_1. eapply Forall_impl; [exact Hk|]. by intros [k v].
Qed.

(** C10. When the existing sequence and the incoming batch each have
    pairwise-distinct ids, the merged sequence is the existing records
    in their original order, each one either unchanged or replaced in
    place by its newer revision, followed by the incoming records
    whose id was not in the store, in the order of the batch. *)
Theorem mergePapers_preserves_order (existing incoming : list Paper.t) :
  NoDup (Paper.id <$> existing) →
  NoDup (Paper.id <$> incoming) →
  merged (mergePapers Date existing incoming) =
    (revised Date incoming <$> existing) ++
    filter (λ n, Paper.id n ∉ Paper.id <$> existing) incoming
  ∧ Forall2 (λ e r, Paper.id r = Paper.id e ∧
               (r = e ∨ ∃ n, n ∈ incoming ∧ Paper.id n = Paper.id e ∧
                             r = replacement n e))
      existing (revised Date incoming <$> existing).
Proof.
  intros Hex Hinc. split; [by apply mergePapers_shape|].
  apply Forall2_fmap_r, Forall_Forall2_diag, Forall_forall. intros e _.
  unfold compose, revised.
  destruct (list_find (λ n, Paper.id n = Paper.id e) incoming) as [[i n]|] eqn:Hfind;
    [|by split; [|left]].
  apply list_find_Some in Hfind as (Hi & Hid & _).
  destruct (Js.date_gt _ _); [|by split; [|left]].
  split; [done|]. right. exists n. split_and!; [|done|done].
  by eapply list_elem_of_lookup_2.
Qed.

Lemma revised_found inc n e :
  NoDup (Paper.id <$> inc) → n ∈ inc → Paper.id n = Paper.id e →
  revised Date inc e =
    if Js.date_gt (revisionDate Date n) (revisionDate Date e) then replacement n e else e.
Proof.
  intros Hnd Hin Hid. unfold revised.
  destruct (list_find (λ n, Paper.id n = Paper.id e) inc) as [[i x]|] eqn:Hfind.
  - apply list_find_Some in Hfind as (Hi & Hx & _).
    replace x with n; [done|].
    apply list_elem_of_lookup in Hin as [j Hj].
    assert (i = j) as ->; [|congruence].
    eapply NoDup_lookup; [exact Hnd| |]; rewrite list_lookup_fmap.
    + by rewrite Hi.
    + rewrite Hj. simpl. congruence.
  - apply list_find_None in Hfind. rewrite Forall_forall in Hfind.
    by destruct (Hfind n Hin).
Qed.

(** The record a merge keeps for the id of [e], when the batch has a
    strictly newer record [n] of that id. *)
Lemma mergePapers_newer existing incoming e n :
  NoDup (Paper.id <$> existing) → NoDup (Paper.id <$> incoming) →
  e ∈ existing → n ∈ incoming → Paper.id n = Paper.id e →
  Js.date_gt (revisionDate Date n) (revisionDate Date e) = true →
  replacement n e ∈ merged (mergePapers Date existing incoming) ∧
  ∀ r, r ∈ merged (mergePapers Date existing incoming) →
       Paper.id r = Paper.id e → r = replacement n e.
Proof.
  intros Hex Hinc He Hn Hid Hgt.
  assert (Hin : replacement n e ∈ merged (mergePapers Date existing incoming)).
  { rewrite mergePapers_shape by done. apply elem_of_app. left.
    apply list_elem_of_fmap. exists e. split; [|done].
    by rewrite (revised_found _ n), Hgt. }
  split; [done|]. intros r Hr Hrid.
  pose proof (mergePapers_ids_NoDup existing incoming) as Hnd.
  apply list_elem_of_lookup in Hin as [i Hi]. apply list_elem_of_lookup in Hr as [j Hj].
  assert (j = i) as ->; [|congruence].
  eapply NoDup_lookup; [exact Hnd| |]; rewrite list_lookup_fmap.
  - rewrite Hj. simpl. by rewrite Hrid.
  - rewrite Hi. simpl. by rewrite Hid.
Qed.

(** C2. Let an existing record carry a non-empty [tags.manual] (and,
    as every stored record does, a [categories] array), and let the
    batch have a record of the same id with a strictly newer revision
    date ([updatedDate], or [publishedDate] when that is missing).
    Then the merged sequence has exactly one record for that id; its
    [tags.manual] and its [categories] are those of the existing
    record, and its [tags.auto] are the automatic labels of the
    incoming record. *)
Theorem mergePapers_preserves_manual
    (existing incoming : list Paper.t) (e n : Paper.t) (m c : list string) :
  NoDup (Paper.id <$> existing) →
  NoDup (Paper.id <$> incoming) →
  e ∈ existing → n ∈ incoming → Paper.id n = Paper.id e →
  optTagsManual e = Some m → m ≠ [] →
  Paper.categories e = Some c →
  Js.date_gt (revisionDate Date n) (revisionDate Date e) = true →
  ∃ r, r ∈ merged (mergePapers Date existing incoming) ∧
       (∀ r', r' ∈ merged (mergePapers Date existing incoming) →
              Paper.id r' = Paper.id e → r' = r) ∧
       Paper.id r = Paper.id e ∧
       optTagsManual r = Some m ∧
       Paper.categories r = Some c ∧
       optTagsAuto r =
         Some (Js.or_default (Js.or_else (optTagsAuto n) (Paper.categories n)) []) ∧
       (∀ a, optTagsAuto n = Some a → optTagsAuto r = Some a).
Proof.
  intros Hex Hinc He Hn Hid Hm _ Hc Hgt.
  destruct (mergePapers_newer existing incoming e n) as [Hin Huniq]; try done.
  exists (replacement n e). split_and!; try done.
  - change (Some (Js.or_default (optTagsManual e) []) = Some m). by rewrite Hm.
  - simpl. by rewrite Hc.
  - intros a Ha.
    change (Some (Js.or_default (Js.or_else (optTagsAuto n) (Paper.categories n)) [])
            = Some a).
    by rewrite Ha.
Qed.

End MergeFacts.

(** The scenario of the specification: X, curated as [agents], meets a
    newer revision auto-labelled [reasoning]. *)
Lemma mergePapers_preserves_manual_witness :
  ∃ r, r ∈ Deduplicator.merged
             (Deduplicator.mergePapers IsoDate.value
                [Deduplicator.paperX_curated; Deduplicator.paperY]
                [Deduplicator.paperX_revised]) ∧
       Deduplicator.optTagsManual r = Some ["agents"] ∧
       Paper.categories r = Some ["agents"] ∧
       Deduplicator.optTagsAuto r = Some ["reasoning"].
Proof.
  destruct (mergePapers_preserves_manual IsoDate.value
              [Deduplicator.paperX_curated; Deduplicator.paperY]
              [Deduplicator.paperX_revised]
              Deduplicator.paperX_curated Deduplicator.paperX_revised
              ["agents"] ["agents"])
    as (r & Hin & _ & _ & Hm & Hc & _ & Ha).
  - refine (bool_decide_unpack _ _). vm_compute. exact I.
  - refine (bool_decide_unpack _ _). vm_compute. exact I.
  - apply list_elem_of_here.
  - apply list_elem_of_here.
  - reflexivity.
  - reflexivity.
  - discriminate.
  - reflexivity.
  - vm_compute. reflexivity.
  - exists r. split; [exact Hin|]. split; [exact Hm|]. split; [exact Hc|].
    apply Ha. reflexivity.
Defined.

Lemma mergePapers_preserves_order_witness :
  Deduplicator.merged
    (Deduplicator.mergePapers IsoDate.value
       [Deduplicator.paperX_curated] [Deduplicator.paperY; Deduplicator.paperX_revised]) =
  [Deduplicator.replacement Deduplicator.paperX_revised Deduplicator.paperX_curated;
   Deduplicator.paperY].
Proof.
  destruct (mergePapers_preserves_order IsoDate.value
              [Deduplicator.paperX_curated]
              [Deduplicator.paperY; Deduplicator.paperX_revised]) as [Heq _].
  - refine (bool_decide_unpack _ _). vm_compute. exact I.
  - refine (bool_decide_unpack _ _). vm_compute. exact I.
  - rewrite Heq. vm_compute. reflexivity.
Defined.

(** C4 (the code at the failing input).  An existing record whose
    [categories] array is empty keeps that empty array when a strictly
    newer revision with categories arrives: an empty array is truthy,
    so [existing.categories || newPaper.categories] never reaches the
    incoming categories. *)
Theorem mergePapers_empty_categories_kept :
  Paper.categories Deduplicator.paperX_uncategorized = Some [] ∧
  Paper.categories Deduplicator.paperX_revised = Some ["reasoning"] ∧
  Js.date_gt (Deduplicator.revisionDate IsoDate.value Deduplicator.paperX_revised)
             (Deduplicator.revisionDate IsoDate.value Deduplicator.paperX_uncategorized) = true ∧
  Paper.categories <$>
    Deduplicator.merged
      (Deduplicator.mergePapers IsoDate.value
         [Deduplicator.paperX_uncategorized] [Deduplicator.paperX_revised]) = [Some []].
Proof. vm_compute. done. Qed.

(** ** Strings *)

Section StringFacts.

Lemma string_app_nil (s : string) : "" +:+ s = s.
Proof. reflexivity. Qed.

Lemma string_app_cons (c : ascii) (a b : string) :
  String c a +:+ b = String c (a +:+ b).
Proof. reflexivity. Qed.

Lemma startsWith_spec (t k : string) :
  Js.startsWith t k = true ↔ ∃ post, t = k +:+ post.
Proof.
  revert t. induction k as [|c k IH]; intros t; simpl.
  - split; [intros _; exists t; reflexivity | done].
  - destruct t as [|d t].
    + split; [done | intros [post H]; by rewrite string_app_cons in H].
    + destruct (decide (c = d)) as [->|Hne].
      * rewrite IH. split; intros [post H]; exists post.
        -- by rewrite string_app_cons, H.
        -- rewrite string_app_cons in H. congruence.
      * split; [done | intros [post H]; rewrite string_app_cons in H; congruence].
Qed.

Lemma includes_spec (t k : string) :
  Js.includes t k = true ↔ ∃ pre post, t = pre +:+ k +:+ post.
Proof.
  induction t as [|c t IH]; simpl.
  - destruct (Js.startsWith "" k) eqn:Hp.
    + apply startsWith_spec in Hp as [post Hp]. split; [|done].
      intros _. by exists "", post.
    + split; [done|]. intros (pre & post & H).
      destruct pre; [|by rewrite string_app_cons in H]. rewrite string_app_nil in H.
      assert (Js.startsWith "" k = true) by (apply startsWith_spec; by exists post).
      congruence.
  - destruct (Js.startsWith (String c t) k) eqn:Hp.
    + apply startsWith_spec in Hp as [post Hp]. split; [|done].
      intros _. by exists "", post.
    + rewrite IH. split.
      * intros (pre & post & ->). by exists (String c pre), post.
      * intros (pre & post & H). destruct pre as [|d pre].
        -- rewrite string_app_nil in H.
           assert (Js.startsWith (String c t) k = true)
             by (apply startsWith_spec; by exists post).
           congruence.
        -- rewrite string_app_cons in H. injection H as -> ->. by exists pre, post.
Qed.

Lemma toLowerCase_app (a b : string) :
  Js.toLowerCase (a +:+ b) = Js.toLowerCase a +:+ Js.toLowerCase b.
Proof.
  induction a as [|c a IH]; [done|].
  rewrite string_app_cons. simpl. by rewrite IH.
Qed.

Lemma toLowerCase_split (t a b : string) :
  Js.toLowerCase t = a +:+ b →
  ∃ t1 t2, t = t1 +:+ t2 ∧ Js.toLowerCase t1 = a ∧ Js.toLowerCase t2 = b.
Proof.
  revert t. induction a as [|c a IH]; intros t H.
  - by exists "", t.
  - rewrite string_app_cons in H. destruct t as [|d t]; simpl in H; [done|].
    injection H as Hc Ht. destruct (IH _ Ht) as (t1 & t2 & -> & H1 & H2).
    exists (String d t1), t2. simpl. by rewrite Hc, H1.
Qed.

Lemma nat_of_ascii_inj (a b : ascii) : nat_of_ascii a = nat_of_ascii b → a = b.
Proof.
  intros H. by rewrite <- (ascii_nat_embedding a), <- (ascii_nat_embedding b), H.
Qed.

Lemma nat_of_lower_ascii (c : ascii) :
  nat_of_ascii (Js.lower_ascii c) =
  if Js.is_upper c then (nat_of_ascii c + 32)%nat else nat_of_ascii c.
Proof.
  unfold Js.lower_ascii. destruct (Js.is_upper c) eqn:Hc; [|done].
  apply nat_ascii_embedding. unfold Js.is_upper in Hc. cbv zeta in Hc.
  apply bool_decide_eq_true in Hc. lia.
Qed.

(** Two characters have the same lower-case form exactly when they
    are the same letter. *)
Lemma lower_ascii_same (a b : ascii) :
  Js.lower_ascii a = Js.lower_ascii b ↔ Categorizer.sameLetter a b.
Proof.
  unfold Categorizer.sameLetter, Categorizer.lowerCaseOf. split.
  - intros H. apply (f_equal nat_of_ascii) in H. rewrite !nat_of_lower_ascii in H.
    unfold Js.is_upper in H. cbv zeta in H. repeat case_bool_decide.
    + left. apply nat_of_ascii_inj. lia.
    + right. left. split; [done|lia].
    + right. right. split; [done|lia].
    + left. by apply nat_of_ascii_inj.
  - intros Hsame. apply nat_of_ascii_inj. rewrite !nat_of_lower_ascii.
    unfold Js.is_upper. cbv zeta.
    destruct Hsame as [->|[[Hu Hl]|[Hu Hl]]]; [done| |];
      repeat case_bool_decide; lia.
Qed.

Lemma toLowerCase_same (s t : string) :
  Js.toLowerCase s = Js.toLowerCase t ↔ Categorizer.equalIgnoringCase s t.
Proof.
  unfold Categorizer.equalIgnoringCase. revert t.
  induction s as [|a s IH]; intros [|b t]; simpl.
  - split; [constructor|done].
  - split; [done|by intros ?%Forall2_nil_inv_l].
  - split; [done|by intros ?%Forall2_nil_inv_r].
  - split.
    + intros [= Hc Hs]. constructor; [by apply lower_ascii_same|by apply IH].
    + intros [Hc Hs]%Forall2_cons. apply lower_ascii_same in Hc. apply IH in Hs.
      by rewrite Hc, Hs.
Qed.

Lemma includes_ignoring_case (kw s : string) :
  Js.includes (Js.toLowerCase s) (Js.toLowerCase kw) = true ↔
  Categorizer.occursIgnoringCase kw s.
Proof.
  rewrite includes_spec. unfold Categorizer.occursIgnoringCase. split.
  - intros (pre & post & H).
    apply toLowerCase_split in H as (s1 & s23 & -> & H1 & H23).
    apply toLowerCase_split in H23 as (s2 & s3 & -> & H2 & H3).
    exists s1, s2, s3. split; [done|]. by apply toLowerCase_same.
  - intros (pre & mid & post & -> & Hmid%toLowerCase_same).
    exists (Js.toLowerCase pre), (Js.toLowerCase post).
    by rewrite !toLowerCase_app, Hmid.
Qed.

End StringFacts.

(** ** The stable sort *)

Section SortFacts.
Context {A : Type} (cmp : A → A → Z).

Lemma insert_perm x l : Js.insert cmp x l ≡ₚ x :: l.
Proof.
  induction l as [|y l IH]; simpl; [done|].
  case_bool_decide; [|done]. rewrite IH. apply Permutation_swap.
Qed.

Lemma sort_perm l : Js.sort cmp l ≡ₚ l.
Proof.
  induction l as [|x l IH]; simpl; [done|].
  unfold Js.sort in *. simpl. by rewrite insert_perm, IH.
Qed.

Lemma sort_elem_of x l : x ∈ Js.sort cmp l ↔ x ∈ l.
Proof. by rewrite sort_perm. Qed.

Lemma sort_length l : length (Js.sort cmp l) = length l.
Proof. by rewrite sort_perm. Qed.

(** Stability: elements of a class whose members never compare
    greater than one another keep their relative order. *)
Lemma insert_filter (P : A → Prop) `{!∀ x, Decision (P x)} x l :
  (∀ a b, P a → P b → cmp a b ≤ 0) →
  filter P (Js.insert cmp x l) = filter P (x :: l).
Proof.
  intros Hclass. induction l as [|y l IH]; simpl; [done|].
  case_bool_decide as Hgt; [|done].
  rewrite (filter_cons _ y), IH, !filter_cons.
  destruct (decide (P x)) as [Hx|], (decide (P y)) as [Hy|]; try done.
  specialize (Hclass x y Hx Hy). lia.
Qed.

Lemma sort_stable (P : A → Prop) `{!∀ x, Decision (P x)} l :
  (∀ a b, P a → P b → cmp a b ≤ 0) →
  filter P (Js.sort cmp l) = filter P l.
Proof.
  intros Hclass. induction l as [|x l IH]; [done|].
  unfold Js.sort in *. simpl. rewrite insert_filter by done.
  by rewrite !filter_cons, IH.
Qed.

(** Sortedness, for a comparator that is a total preorder. *)
Hypothesis cmp_total : ∀ a b, 0 < cmp a b → cmp b a ≤ 0.
Hypothesis cmp_trans : ∀ a b c, cmp a b ≤ 0 → cmp b c ≤ 0 → cmp a c ≤ 0.

Lemma insert_sorted x l :
  StronglySorted (λ a b, cmp a b ≤ 0) l →
  StronglySorted (λ a b, cmp a b ≤ 0) (Js.insert cmp x l).
Proof.
  induction 1 as [|y l Hl IH Hy]; simpl.
  - repeat constructor.
  - case_bool_decide as Hgt.
    + constructor; [done|]. rewrite insert_perm. constructor; [|done].
      by apply cmp_total.
    + constructor; [by constructor|]. constructor; [lia|].
      eapply Forall_impl; [exact Hy|]. intros z Hz. simpl in Hz.
      apply (cmp_trans x y z); [lia|done].
Qed.

Lemma sort_sorted l : StronglySorted (λ a b, cmp a b ≤ 0) (Js.sort cmp l).
Proof.
  induction l as [|x l IH]; [constructor|].
  unfold Js.sort in *. simpl. by apply insert_sorted.
Qed.

End SortFacts.

Lemma sort_ext {A : Type} (cmp cmp' : A → A → Z) (l : list A) :
  (∀ a b, cmp a b = cmp' a b) → Js.sort cmp l = Js.sort cmp' l.
Proof.
  intros Hext. induction l as [|x l IH]; [done|].
  unfold Js.sort in *. simpl. rewrite IH.
  generalize (foldr (Js.insert cmp') [] l). intros s.
  induction s as [|y s IHs]; simpl; [done|]. by rewrite Hext, IHs.
Qed.

Lemma sort_fmap {A B : Type} (f : A → B) (cmp : B → B → Z) (l : list A) :
  Js.sort cmp (f <$> l) = f <$> Js.sort (λ a b, cmp (f a) (f b)) l.
Proof.
  induction l as [|x l IH]; [done|].
  unfold Js.sort in *. csimpl. rewrite IH.
  generalize (foldr (Js.insert (λ a b, cmp (f a) (f b))) [] l). intros s.
  induction s as [|y s IHs]; csimpl; [done|].
  case_bool_decide; csimpl; [by rewrite IHs | done].
Qed.

(** ** categorizePaper *)

Section CategorizerFacts.
Import Categorizer.

Lemma count_loop (b : string → bool) (n : nat) (l : list string) :
  foldl (λ count kw, if b kw then S count else count) n l =
  (n + length (filter (λ kw, Is_true (b kw)) l))%nat.
Proof.
  revert n. induction l as [|kw l IH]; intros n; simpl; [lia|].
  rewrite IH, filter_cons. destruct (b kw); simpl; lia.
Qed.

Lemma matchCount_hits paper c : matchCount (paperText paper) c = keywordHits paper c.
Proof. unfold matchCount, keywordHits. by rewrite count_loop. Qed.

Lemma pushMatch_loop text acc categories :
  foldl (pushMatch text) acc categories =
  acc ++ ((λ c, Matched.mk (Category.id c) (matchCount text c)) <$>
          filter (λ c, (1 ≤ matchCount text c)%nat) categories).
Proof.
  revert acc. induction categories as [|c cs IH]; intros acc; simpl.
  - by rewrite app_nil_r.
  - rewrite IH, filter_cons. unfold pushMatch, MIN_KEYWORD_MATCHES.
    case_bool_decide.
    + rewrite decide_True by done. by rewrite <- app_assoc.
    + by rewrite decide_False.
Qed.

(** The categories in the order [categorizePaper] returns their ids. *)
Lemma categorizePaper_sorted_filter paper categories :
  categorizePaper paper categories =
  Category.id <$>
    Js.sort (λ a b, Z.of_nat (keywordHits paper b) - Z.of_nat (keywordHits paper a))
            (filter (λ c, (1 ≤ keywordHits paper c)%nat) categories).
Proof.
  unfold categorizePaper. rewrite pushMatch_loop. simpl.
  rewrite sort_fmap, <- list_fmap_compose.
  rewrite (filter_ext_in _ (λ c, (1 ≤ keywordHits paper c)%nat))
    by (intros c _; by rewrite matchCount_hits).
  f_equal. apply sort_ext. intros a b. unfold byMatchesDesc. simpl.
  by rewrite !matchCount_hits.
Qed.

Lemma hits_positive paper c :
  (1 ≤ keywordHits paper c)%nat ↔
  ∃ kw, kw ∈ Category.keywords c ∧ occursIgnoringCase kw (rawText paper).
Proof.
  unfold keywordHits, paperText.
  set (P := λ kw, Is_true (Js.includes (Js.toLowerCase (rawText paper)) (Js.toLowerCase kw))).
  assert (HP : ∀ kw, P kw ↔ occursIgnoringCase kw (rawText paper)).
  { intros kw. unfold P. by rewrite Is_true_true, includes_ignoring_case. }
  split.
  - destruct (filter P (Category.keywords c)) as [|kw l] eqn:Hf; simpl; [lia|].
    intros _. assert (Hin : kw ∈ filter P (Category.keywords c))
      by (rewrite Hf; apply list_elem_of_here).
    apply list_elem_of_filter in Hin as [Hkw Hin]. exists kw. by rewrite <- HP.
  - intros (kw & Hin & Hocc). apply HP in Hocc.
    assert (Hf : kw ∈ filter P (Category.keywords c)) by by apply list_elem_of_filter.
    destruct (filter P (Category.keywords c)); simpl; [by apply elem_of_nil in Hf | lia].
Qed.

Lemma keywordHits_counted paper c :
  Counted (λ kw, occursIgnoringCase kw (rawText paper)) (Category.keywords c)
          (keywordHits paper c).
Proof.
  unfold keywordHits, paperText.
  induction (Category.keywords c) as [|kw l IH]; [constructor|].
  rewrite filter_cons.
  destruct (decide (Is_true (Js.includes (Js.toLowerCase (rawText paper))
                                        (Js.toLowerCase kw)))) as [Hkw|Hkw].
  - simpl. constructor; [|done].
    apply includes_ignoring_case. by apply Is_true_true.
  - apply counted_no; [|done].
    intros Hocc%includes_ignoring_case. apply Hkw. by apply Is_true_true.
Qed.

(** The count is determined by the property and the list. *)
Lemma Counted_unique {A : Type} (P : A → Prop) (l : list A) (n m : nat) :
  Counted P l n → Counted P l m → n = m.
Proof.
  intros Hn. revert m. induction Hn as [|x l n Hx _ IH|x l n Hx _ IH]; intros m Hm.
  - by inversion Hm.
  - inversion Hm; subst; [f_equal; by apply IH|done].
  - inversion Hm; subst; [done|by apply IH].
Qed.

(** C5. [categorizePaper] assigns exactly the categories that have at
    least one keyword occurring, letter case apart, as a substring of
    the paper's text: the title, a space and the abstract (a missing
    abstract reads as the word undefined); a category none of whose
    keywords occurs is not assigned.  The ids are returned by
    descending number of keywords that occur, and categories with the
    same number keep the order of the category definitions.  So the
    paper titled Retrieval-Augmented Agents gets rag, agents and
    reasoning in this order, and a title in capitals with accented
    letters matches a keyword written in small letters. *)
Theorem categorizePaper_characterization (paper : Paper.t) (categories : list Category.t) :
  let text :=
    Paper.title paper +:+ " " +:+ Js.or_default (Paper.abstract paper) "undefined" in
  (∀ cid, cid ∈ categorizePaper paper categories ↔
     ∃ c, c ∈ categories ∧ Category.id c = cid ∧
          ∃ kw, kw ∈ Category.keywords c ∧ occursIgnoringCase kw text) ∧
  (∃ (hits : Category.t → nat) (assigned : list Category.t),
     (∀ c, Counted (λ kw, occursIgnoringCase kw text) (Category.keywords c) (hits c)) ∧
     categorizePaper paper categories = Category.id <$> assigned ∧
     assigned ≡ₚ filter (λ c, (1 ≤ hits c)%nat) categories ∧
     StronglySorted (λ a b, (hits b ≤ hits a)%nat) assigned ∧
     ∀ k, filter (λ c, hits c = k) assigned =
          filter (λ c, hits c = k) (filter (λ c, (1 ≤ hits c)%nat) categories)) ∧
  categorizePaper examplePaper exampleCategories = ["rag"; "agents"; "reasoning"] ∧
  categorizePaper accentedPaper accentedCategories = ["hr"; "llm"].
Proof.
  cbv zeta. change (Paper.title paper +:+ " " +:+
                    Js.or_default (Paper.abstract paper) "undefined")
    with (rawText paper).
  rewrite categorizePaper_sorted_filter.
  set (cmp := λ a b, Z.of_nat (keywordHits paper b) - Z.of_nat (keywordHits paper a)).
  set (kept := filter (λ c, (1 ≤ keywordHits paper c)%nat) categories).
  split_and!.
  - intros cid. rewrite list_elem_of_fmap. split.
    + intros (c & -> & Hc). apply sort_elem_of in Hc.
      apply list_elem_of_filter in Hc as [Hhits Hc].
      exists c. split_and!; [done|done|]. by apply hits_positive.
    + intros (c & Hc & <- & Hkw). exists c. split; [done|].
      apply sort_elem_of, list_elem_of_filter. split; [|done]. by apply hits_positive.
  - exists (keywordHits paper), (Js.sort cmp kept). split_and!.
    + intros c. apply keywordHits_counted.
    + done.
    + apply sort_perm.
    + eapply StronglySorted_weaken; [|apply (sort_sorted cmp)].
      * intros a b. unfold cmp. lia.
      * intros a b. unfold cmp. lia.
      * intros a b c. unfold cmp. lia.
    + intros k. apply sort_stable. intros a b Ha Hb. unfold cmp. lia.
  - vm_compute. reflexivity.
  - vm_compute. reflexivity.
Qed.

End CategorizerFacts.

(** The keyword agent occurs in the title Retrieval-Augmented Agents,
    with a capital A there: the category agents is assigned. *)
Lemma categorizePaper_characterization_witness :
  "agents" ∈ Categorizer.categorizePaper Categorizer.examplePaper
               Categorizer.exampleCategories.
Proof.
  destruct (categorizePaper_characterization Categorizer.examplePaper
              Categorizer.exampleCategories) as [Hassigned _].
  apply Hassigned.
  exists (Category.mk "agents" "Agents" ["agent"; "autonomous"] None).
  split; [apply list_elem_of_here|]. split; [reflexivity|].
  exists "agent". split; [apply list_elem_of_here|].
  exists "Retrieval-Augmented ", "Agent", "s An agent that uses RAG and reasoning.".
  split; [reflexivity|].
  constructor.
  - right. left. split; [vm_compute; lia|reflexivity].
  - repeat (constructor; [by left|]). constructor.
Defined.

(** ** extractArxivId *)

Section ExtractFacts.
Import XmlParser.

Abbreviation digits := (Forall (λ c, Is_true (Js.is_digit c))).

Lemma takeDigits_Some n s d r :
  takeDigits n s = Some (d, r) ↔ s = d ++ r ∧ length d = n ∧ digits d.
Proof.
  revert s d r. induction n as [|n IH]; intros s d r; simpl.
  - split.
    + intros [= <- <-]. by repeat split.
    + intros (-> & Hlen & _). by destruct d.
  - destruct s as [|c s].
    + split; [done|]. intros (Hs & Hlen & _). by destruct d.
    + destruct (Js.is_digit c) eqn:Hc.
      * destruct (takeDigits n s) as [[d' r']|] eqn:Ht; simpl.
        -- apply IH in Ht as (-> & Hlen & Hd). split.
           ++ intros [= <- <-]. split_and!; [done|simpl; by rewrite Hlen|].
              constructor; [by rewrite Hc|done].
           ++ intros (Hs & Hl & Hds). destruct d as [|c0 d]; [done|].
              injection Hs as <- Hs. injection Hl as Hl. apply Forall_cons in Hds as [_ Hds].
              assert (takeDigits n (d' ++ r') = Some (d, r)) as Ht'
                by (apply IH; by rewrite Hs).
              assert (takeDigits n (d' ++ r') = Some (d', r')) as Ht''
                by (by apply IH).
              congruence.
        -- split; [done|]. intros (Hs & Hl & Hds). destruct d as [|c0 d]; [done|].
           injection Hs as <- Hs. injection Hl as Hl. apply Forall_cons in Hds as [_ Hds].
           assert (takeDigits n s = Some (d, r)) by (by apply IH). congruence.
      * split; [done|]. intros (Hs & Hl & Hds). destruct d as [|c0 d]; [done|].
        injection Hs as <- Hs. apply Forall_cons in Hds as [Hc0 _].
        by rewrite Hc in Hc0.
Qed.

Lemma versionToEnd_spec s :
  versionToEnd s = true ↔ s = [] ∨ isVersionSuffix s.
Proof.
  unfold isVersionSuffix. destruct s as [|c s].
  - split; [by left | done].
  - split.
    + intros H. right. unfold versionToEnd in H.
      destruct (decide (c = "v"%char)) as [->|Hne].
      * destruct s as [|d ds]; [done|]. exists d, ds. split; [done|].
        apply Forall_forall. intros x Hx.
        rewrite forallb_forall in H. apply Is_true_true, H.
        by apply list_elem_of_In.
      * exfalso. destruct c as [[] [] [] [] [] [] [] []]; try done.
    + intros [?|(d & ds & [= -> ->] & Hd)]; [done|].
      unfold versionToEnd. apply forallb_forall. intros x Hx.
      rewrite Forall_forall in Hd. apply Is_true_true, Hd. by apply list_elem_of_In.
Qed.

Lemma minorToEnd_Some k s d :
  minorToEnd k s = Some d ↔
  ∃ r, s = d ++ r ∧ length d = k ∧ digits d ∧ (r = [] ∨ isVersionSuffix r).
Proof.
  unfold minorToEnd. destruct (takeDigits k s) as [[d' r']|] eqn:Ht; simpl.
  - apply takeDigits_Some in Ht as (-> & Hl & Hd).
    destruct (versionToEnd r') eqn:Hv.
    + apply versionToEnd_spec in Hv. split.
      * intros [= <-]. by exists r'.
      * intros (r & Heq & Hl' & _). f_equal.
        apply app_inj_1 in Heq as [? _]; [done|congruence].
    + split; [done|]. intros (r & Heq & Hl' & _ & Hr).
      apply app_inj_1 in Heq as [_ ->]; [|congruence].
      apply versionToEnd_spec in Hr. congruence.
  - split; [done|]. intros (r & -> & Hl & Hd & _).
    assert (takeDigits k (d ++ r) = Some (d, r)) by (by apply takeDigits_Some).
    congruence.
Qed.

Lemma version_head_not_digit s c s' :
  s = [] ∨ isVersionSuffix s → s = c :: s' → Js.is_digit c = false.
Proof. intros [->|(d & ds & -> & _)]; [done|]. by intros [= <- _]. Qed.

(** The digits before a version suffix (or the end) are determined. *)
Lemma digit_span_unique b1 s1 b2 s2 :
  b1 ++ s1 = b2 ++ s2 → digits b1 → digits b2 →
  s1 = [] ∨ isVersionSuffix s1 → s2 = [] ∨ isVersionSuffix s2 →
  b1 = b2 ∧ s1 = s2.
Proof.
  revert b2. induction b1 as [|c b1 IH]; intros b2 Heq H1 H2 Hs1 Hs2.
  - destruct b2 as [|c b2]; [done|]. simpl in Heq.
    apply Forall_cons in H2 as [Hc _].
    rewrite (version_head_not_digit _ _ _ Hs1 Heq) in Hc. done.
  - apply Forall_cons in H1 as [Hc H1]. destruct b2 as [|c' b2]; simpl in Heq.
    + symmetry in Heq. rewrite (version_head_not_digit _ _ _ Hs2 Heq) in Hc. done.
    + injection Heq as <- Heq. apply Forall_cons in H2 as [_ H2].
      destruct (IH b2 Heq H1 H2 Hs1 Hs2) as [-> ->]. done.
Qed.

Lemma digits_no_dot b : digits b → "."%char ∉ b.
Proof.
  intros Hb Hin. rewrite Forall_forall in Hb. by specialize (Hb _ Hin).
Qed.

Lemma tail_no_dot minor suffix :
  digits minor → suffix = [] ∨ isVersionSuffix suffix → "."%char ∉ minor ++ suffix.
Proof.
  intros Hm Hs. rewrite elem_of_app. intros [Hin|Hin].
  - by apply (digits_no_dot minor).
  - destruct Hs as [->|(d & ds & -> & Hd)]; [by apply elem_of_nil in Hin|].
    apply elem_of_cons in Hin as [?|Hin]; [done|]. by apply (digits_no_dot (d :: ds)).
Qed.

(** A list is split at its last dot in one way only. *)
Lemma last_dot_unique (x1 y1 x2 y2 : list ascii) :
  x1 ++ "."%char :: y1 = x2 ++ "."%char :: y2 →
  "."%char ∉ y1 → "."%char ∉ y2 → x1 = x2 ∧ y1 = y2.
Proof.
  revert x2. induction x1 as [|c x1 IH]; intros x2 Heq Hy1 Hy2.
  - destruct x2 as [|c x2]; simpl in Heq; [by injection Heq|].
    injection Heq as <- ->. exfalso. apply Hy1. apply elem_of_app. right.
    apply list_elem_of_here.
  - destruct x2 as [|c' x2]; simpl in Heq.
    + injection Heq as -> <-. exfalso. apply Hy2. apply elem_of_app. right.
      apply list_elem_of_here.
    + injection Heq as <- Heq. destruct (IH x2 Heq Hy1 Hy2) as [-> ->]. done.
Qed.

Lemma idAtEnd_unique pre1 pre2 s m1 m2 :
  idAtEnd pre1 s m1 → idAtEnd pre2 s m2 → m1 = m2.
Proof.
  intros (a1 & b1 & s1 & Hs1 & -> & Hl1 & Ha1 & _ & Hb1 & Hv1)
         (a2 & b2 & s2 & Hs2 & -> & Hl2 & Ha2 & _ & Hb2 & Hv2).
  rewrite Hs1 in Hs2. rewrite !app_assoc in Hs2.
  apply last_dot_unique in Hs2 as [Hx Hy]; [| by apply tail_no_dot..].
  apply app_inj_2 in Hx as [_ ->]; [|congruence].
  by destruct (digit_span_unique _ _ _ _ Hy Hb1 Hb2 Hv1 Hv2) as [-> _].
Qed.

Lemma matchAt_sound s m : matchAt s = Some m → idAtEnd [] s m.
Proof.
  unfold matchAt. destruct (takeDigits 4 s) as [[major r]|] eqn:Ht; simpl; [|done].
  apply takeDigits_Some in Ht as (-> & Hl & Hd).
  destruct r as [|c r']; [done|].
  destruct (decide (c = "."%char)) as [->|Hne];
    [|by destruct c as [[] [] [] [] [] [] [] []]].
  destruct (minorToEnd 5 r') as [minor|] eqn:H5.
  - intros [= <-]. apply minorToEnd_Some in H5 as (suffix & -> & Hl5 & Hd5 & Hv).
    exists major, minor, suffix. split; [done|]. split; [done|].
    unfold idParts. by auto 10.
  - destruct (minorToEnd 4 r') as [minor|] eqn:H4; simpl; [|done].
    intros [= <-]. apply minorToEnd_Some in H4 as (suffix & -> & Hl4 & Hd4 & Hv).
    exists major, minor, suffix. split; [done|]. split; [done|].
    unfold idParts. by auto 10.
Qed.

Lemma matchAt_complete major minor suffix :
  idParts major minor suffix →
  matchAt (major ++ "."%char :: minor ++ suffix) = Some (major ++ "."%char :: minor).
Proof.
  intros (Hl & Hd & Hlm & Hdm & Hv). unfold matchAt.
  assert (Ht : takeDigits 4 (major ++ "."%char :: minor ++ suffix)
               = Some (major, "."%char :: minor ++ suffix))
    by (by apply takeDigits_Some).
  rewrite Ht. simpl.
  destruct (minorToEnd 5 (minor ++ suffix)) as [d|] eqn:H5.
  - apply minorToEnd_Some in H5 as (r & Heq & _ & Hdd & Hr).
    by destruct (digit_span_unique _ _ _ _ Heq Hdm Hdd Hv Hr) as [-> _].
  - destruct Hlm as [H4|H5'].
    + assert (minorToEnd 4 (minor ++ suffix) = Some minor) as ->; [|done].
      apply minorToEnd_Some. by exists suffix.
    + assert (minorToEnd 5 (minor ++ suffix) = Some minor) as Hc; [|congruence].
      apply minorToEnd_Some. by exists suffix.
Qed.

Lemma search_sound s m : search s = Some m → ∃ pre, idAtEnd pre s m.
Proof.
  induction s as [|c s IH]; simpl.
  - done.
  - destruct (matchAt (c :: s)) eqn:Hm.
    + intros [= ->]. exists []. by apply matchAt_sound.
    + intros H. destruct (IH H) as (pre & major & minor & suffix & -> & -> & Hp).
      exists (c :: pre), major, minor, suffix. done.
Qed.

Lemma search_head s m : matchAt s = Some m → search s = Some m.
Proof. intros H. destruct s; [done|]. simpl. by rewrite H. Qed.

Lemma search_complete pre s m : idAtEnd pre s m → search s = Some m.
Proof.
  revert s. induction pre as [|c pre IH]; intros s Hend.
  - destruct Hend as (major & minor & suffix & -> & -> & Hp).
    by apply search_head, matchAt_complete.
  - pose proof Hend as (major & minor & suffix & -> & -> & Hp). simpl.
    destruct (matchAt _) as [m'|] eqn:Hm.
    + f_equal. apply matchAt_sound in Hm. by eapply idAtEnd_unique.
    + apply IH. by exists major, minor, suffix.
Qed.

(** C8. A URL that ends in four digits, a dot and four or five
    digits, optionally followed by a version suffix [vN], yields that
    identifier without the suffix; a URL that does not end in such a
    pattern makes the extraction throw.  In particular
    [https://host/abs/2401.12345v2] yields [2401.12345]. *)
Theorem extractArxivId_spec :
  (∀ url id, endsInId url id → extractArxivId url = inr id) ∧
  (∀ url, (¬ ∃ id, endsInId url id) → ∃ e, extractArxivId url = inl e) ∧
  extractArxivId "https://host/abs/2401.12345v2" = inr "2401.12345".
Proof.
  split_and!.
  - intros url id (pre & m & Hend & ->). unfold extractArxivId.
    by rewrite (search_complete _ _ _ Hend).
  - intros url Hnone. unfold extractArxivId.
    destruct (search (list_ascii_of_string url)) as [m|] eqn:Hs; [|by eexists].
    exfalso. apply Hnone. apply search_sound in Hs as [pre Hend].
    exists (string_of_list_ascii m), pre, m. done.
  - reflexivity.
Qed.

End ExtractFacts.

(** The URL of the specification ends in an identifier and yields it;
    an old-style URL does not and makes the extraction throw. *)
Lemma extractArxivId_spec_witness :
  XmlParser.endsInId "https://host/abs/2401.12345v2" "2401.12345" ∧
  XmlParser.extractArxivId "https://host/abs/2401.12345v2" = inr "2401.12345" ∧
  ∃ e, XmlParser.extractArxivId "http://arxiv.org/abs/hep-th/9901001" = inl e.
Proof.
  assert (Hends : XmlParser.endsInId "https://host/abs/2401.12345v2" "2401.12345").
  { exists (list_ascii_of_string "https://host/abs/"), (list_ascii_of_string "2401.12345").
    split; [|reflexivity].
    exists (list_ascii_of_string "2401"), (list_ascii_of_string "12345"),
           (list_ascii_of_string "v2").
    split; [reflexivity|]. split; [reflexivity|].
    split; [reflexivity|]. split; [by repeat constructor|].
    split; [by right|]. split; [by repeat constructor|].
    right. exists "2"%char, []. split; [reflexivity|by repeat constructor]. }
  split; [exact Hends|]. split.
  - exact (proj1 extractArxivId_spec _ _ Hends).
  - apply (proj1 (proj2 extractArxivId_spec)). intros [id Hid].
    apply (proj1 extractArxivId_spec) in Hid. vm_compute in Hid. discriminate Hid.
Defined.

(** ** First occurrences *)

Section FirstOccurrences.

Lemma firstOccurrences_cons p l :
  firstOccurrences (p :: l) =
  p :: filter (λ q, Paper.id q ≠ Paper.id p) (firstOccurrences l).
Proof. done. Qed.

Lemma firstOccurrences_sublist l : firstOccurrences l `sublist_of` l.
Proof.
  induction l as [|p l IH]; [done|]. rewrite firstOccurrences_cons.
  apply sublist_skip. etrans; [apply sublist_filter|done].
Qed.

Lemma firstOccurrences_elem_of p l : p ∈ firstOccurrences l → p ∈ l.
Proof. intros H. eapply elem_of_sublist; [exact H|apply firstOccurrences_sublist]. Qed.

Lemma firstOccurrences_ids i l :
  i ∈ Paper.id <$> firstOccurrences l ↔ i ∈ Paper.id <$> l.
Proof.
  induction l as [|p l IH]; [done|]. rewrite firstOccurrences_cons. csimpl.
  rewrite !elem_of_cons, <- IH, !list_elem_of_fmap.
  split.
  - intros [->|(q & -> & Hq)]; [by left|]. right.
    apply list_elem_of_filter in Hq as [_ Hq]. by exists q.
  - intros [->|(q & -> & Hq)]; [by left|].
    destruct (decide (Paper.id q = Paper.id p)) as [|Hne]; [by left|].
    right. exists q. split; [done|]. by apply list_elem_of_filter.
Qed.

Lemma firstOccurrences_NoDup l : NoDup (Paper.id <$> firstOccurrences l).
Proof.
  induction l as [|p l IH]; [constructor|]. rewrite firstOccurrences_cons. csimpl.
  constructor.
  - rewrite list_elem_of_fmap. intros (q & Hid & Hq).
    apply list_elem_of_filter in Hq as [Hne _]. done.
  - eapply sublist_NoDup; [exact IH|]. apply fmap_sublist, sublist_filter.
Qed.

(** Every record kept is the first one of its id. *)
Lemma firstOccurrences_first p l :
  p ∈ firstOccurrences l →
  ∃ l1 l2, l = l1 ++ p :: l2 ∧ Paper.id p ∉ Paper.id <$> l1.
Proof.
  induction l as [|q l IH]; [by intros ?%elem_of_nil|].
  rewrite firstOccurrences_cons. intros [->|Hp]%elem_of_cons.
  - exists [], l. split; [done|]. apply not_elem_of_nil.
  - apply list_elem_of_filter in Hp as [Hne Hp].
    destruct (IH Hp) as (l1 & l2 & -> & Hnotin).
    exists (q :: l1), l2. split; [done|]. csimpl.
    apply not_elem_of_cons. done.
Qed.

End FirstOccurrences.

(** ** fetchPapersForQuery *)

Section FetcherFacts.
Import Fetcher.
Variable upstream : nat → Request.t → Response.
Variable isoNow : nat → string.

Section OneQuery.
Variable searchQuery : string.
Variable options : Options.t.

Abbreviation loop' := (loop upstream isoNow searchQuery options).
Abbreviation request' := (request isoNow searchQuery options).
Abbreviation Paginated' := (Paginated upstream isoNow searchQuery options).

Lemma loop_done fuel st :
  loopGuard options st = false → loop' fuel st = Some (inr (allPapers st), calls st).
Proof. intros H. destruct fuel; simpl; by rewrite H. Qed.

Lemma loop_first_page_fails fuel st e :
  loopGuard options st = true → start st = 0%nat →
  upstream (calls st) (request' st) = Failed e →
  loop' (S fuel) st = Some (inl e, S (calls st)).
Proof.
  intros Hg Hs Hf. simpl. rewrite Hg. unfold iteration. rewrite Hf.
  by rewrite bool_decide_eq_true_2.
Qed.

Lemma loop_later_page_fails fuel st e :
  loopGuard options st = true → (0 < start st)%nat →
  upstream (calls st) (request' st) = Failed e →
  loop' (S fuel) st = Some (inr (allPapers st), S (calls st)).
Proof.
  intros Hg Hs Hf. simpl. rewrite Hg. unfold iteration. rewrite Hf.
  rewrite bool_decide_eq_false_2 by lia. by rewrite loop_done.
Qed.

Lemma loop_paginated st pages st' fuel :
  Paginated' st pages st' → loop' (length pages + fuel) st = loop' fuel st'.
Proof.
  induction 1 as [|st parsed pages st' Hg Hp Hne _ IH]; [done|].
  simpl. rewrite Hg. unfold iteration. rewrite Hp.
  rewrite bool_decide_eq_false_2; [done|].
  by destruct (Parsed.entries parsed).
Qed.

Lemma paginated_state st pages st' :
  Paginated' st pages st' →
  allPapers st' = allPapers st ++ concat pages ∧
  start st' = (start st + length (concat pages))%nat ∧
  calls st' = (calls st + length pages)%nat.
Proof.
  induction 1 as [|st parsed pages st' Hg Hp Hne _ (IH1 & IH2 & IH3)]; simpl.
  - rewrite app_nil_r. split_and!; [done|lia|lia].
  - rewrite IH1, IH2, IH3. simpl. rewrite length_app, <- app_assoc.
    split_and!; [done|lia|lia].
Qed.

(** With a finite [maxResults] the loop always returns. *)
Lemma loop_terminates m fuel st :
  Options.maxResults options = Some m →
  (m - length (allPapers st) ≤ fuel)%nat →
  ∃ r, loop' fuel st = Some r.
Proof.
  intros Hm. revert st. induction fuel as [|fuel IH]; intros st Hfuel.
  - destruct (loopGuard options st) eqn:Hg; [|by rewrite loop_done; eauto].
    exfalso. unfold loopGuard, reachedMax in Hg. rewrite Hm in Hg.
    apply andb_true_iff in Hg as [_ Hg]. apply negb_true_iff in Hg.
    apply bool_decide_eq_false in Hg. lia.
  - simpl. destruct (loopGuard options st) eqn:Hg; [|by eauto].
    unfold iteration. destruct (upstream _ _) as [e|parsed].
    + case_bool_decide; [by eauto|]. rewrite loop_done; [by eauto|].
      unfold loopGuard. done.
    + case_bool_decide as Hlen; [by eauto|]. apply IH. simpl.
      rewrite length_app. destruct (Parsed.entries parsed); simpl in *; [done|lia].
Qed.

(** With a finite [maxResults], fuel equal to it makes the function
    return. *)
Lemma fetchPapersForQuery_total m calls0 :
  Options.maxResults options = Some m →
  ∃ r, fetchPapersForQuery upstream isoNow searchQuery options m calls0 = Some r.
Proof. intros Hm. apply (loop_terminates m); [done|simpl; lia]. Qed.

(** C9. If the request for the first page (offset 0) fails, the
    error is thrown to the caller.  If the request for a later
    page fails, after pagination went through pages that were
    fetched successfully, the loop stops and the function returns
    exactly the records of those pages, without throwing. *)
Theorem fetchPapersForQuery_failure_semantics (calls0 : nat) :
  (∀ e fuel,
     Options.maxResults options ≠ Some 0%nat →
     upstream calls0 (request' (mkLoop [] 0 true calls0)) = Failed e →
     fetchPapersForQuery upstream isoNow searchQuery options (S fuel) calls0
       = Some (inl e, S calls0)) ∧
  (∀ pages st e fuel,
     Paginated' (mkLoop [] 0 true calls0) pages st →
     (0 < start st)%nat →
     loopGuard options st = true →
     upstream (calls st) (request' st) = Failed e →
     fetchPapersForQuery upstream isoNow searchQuery options
       (length pages + S fuel) calls0
       = Some (inr (concat pages), S (calls st))).
Proof.
  split.
  - intros e fuel Hmax Hf. apply loop_first_page_fails; [|done|done].
    unfold loopGuard, reachedMax.
    destruct (Options.maxResults options) as [[|m]|]; [done| |done].
    apply andb_true_iff. split; [done|].
    apply negb_true_iff, bool_decide_eq_false. simpl. lia.
  - intros pages st e fuel Hpag Hstart Hg Hf. unfold fetchPapersForQuery.
    rewrite (loop_paginated _ _ _ _ Hpag).
    rewrite (loop_later_page_fails _ _ e) by done.
    by destruct (paginated_state _ _ _ Hpag) as (-> & _ & _).
Qed.

End OneQuery.

Lemma firstOccurrences_app l1 l2 :
  firstOccurrences (l1 ++ l2) =
  firstOccurrences l1 ++
  filter (λ p, Paper.id p ∉ Paper.id <$> l1) (firstOccurrences l2).
Proof.
  induction l1 as [|p l1 IH]; simpl app.
  - symmetry. apply filter_all. intros q _. apply not_elem_of_nil.
  - rewrite !firstOccurrences_cons, IH, filter_app, list_filter_filter. simpl. do 2 f_equal.
    apply list_filter_iff. intros q. csimpl. rewrite not_elem_of_cons. tauto.
Qed.

Lemma addIfNew_loop st papers :
  seenCollected st →
  let st' := foldl addIfNew st papers in
  seenCollected st' ∧ m_calls st' = m_calls st ∧
  m_allPapers st' =
    m_allPapers st ++
    filter (λ p, Paper.id p ∉ Paper.id <$> m_allPapers st) (firstOccurrences papers).
Proof.
  revert st. induction papers as [|p papers IH]; intros st Hinv; simpl.
  - by rewrite app_nil_r.
  - unfold addIfNew at 2 4 6. case_bool_decide as Hseen.
    + destruct (IH st Hinv) as (H1 & H2 & H3). split_and!; [done|done|].
      rewrite H3. f_equal. rewrite firstOccurrences_cons.
      rewrite filter_cons_False by (intros Hn; apply Hn; by apply Hinv).
      rewrite list_filter_filter. apply list_filter_iff. intros q.
      split; [|tauto]. intros Hq. split; [done|]. intros Heq. apply Hq.
      rewrite Heq. by apply Hinv.
    + set (st1 := mkMulti _ _ _).
      assert (Hinv1 : seenCollected st1).
      { intros i. simpl. rewrite fmap_app, elem_of_app, elem_of_union, (Hinv i).
        simpl. rewrite list_elem_of_singleton, elem_of_singleton. tauto. }
      destruct (IH st1 Hinv1) as (H1 & H2 & H3). split_and!; [done|done|].
      rewrite H3. simpl. rewrite <- app_assoc. f_equal. simpl.
      rewrite firstOccurrences_cons.
      rewrite filter_cons_True by (intros Hn; apply Hseen; by apply Hinv).
      f_equal. rewrite list_filter_filter. apply list_filter_iff. intros q.
      rewrite fmap_app, elem_of_app. simpl. rewrite list_elem_of_singleton. tauto.
Qed.

Lemma runQueries_outcomes fuel options n queries rs n' :
  Outcomes upstream isoNow fuel options n queries rs n' →
  ∀ st, m_calls st = n → seenCollected st →
  ∃ st',
    foldl (λ st q, st ≫= λ st, runQuery upstream isoNow fuel options st q)
          (Some st) queries = Some st' ∧
    m_calls st' = n' ∧
    m_allPapers st' =
      m_allPapers st ++
      filter (λ p, Paper.id p ∉ Paper.id <$> m_allPapers st)
             (firstOccurrences (successes rs)).
Proof.
  induction 1 as [n|n q r n1 queries rs n2 Hfetch _ IH]; intros st Hn Hinv.
  - exists st. simpl. by rewrite app_nil_r.
  - simpl. unfold runQuery at 2. rewrite Hn, Hfetch. simpl.
    destruct r as [e|papers].
    + destruct (IH (mkMulti (m_allPapers st) (seenIds st) n1)) as (st' & Hrun & Hc & Hp);
        [done|done|].
      exists st'. done.
    + set (st0 := mkMulti (m_allPapers st) (seenIds st) n1).
      destruct (addIfNew_loop st0 papers Hinv) as (Hinv1 & Hc1 & Hp1).
      destruct (IH _ Hc1 Hinv1) as (st' & Hrun & Hc & Hp).
      exists st'. split_and!; [done|done|].
      rewrite Hp, Hp1. simpl. rewrite <- app_assoc. f_equal.
      unfold successes. simpl. fold (successes rs).
      rewrite firstOccurrences_app, filter_app. f_equal.
      rewrite list_filter_filter. apply list_filter_iff. intros p.
      rewrite fmap_app, elem_of_app. split.
      * intros Hp'. split; [tauto|]. intros Hin. apply Hp'.
        destruct (decide (Paper.id p ∈ Paper.id <$> m_allPapers st)); [by left|right].
        apply firstOccurrences_ids in Hin.
        apply list_elem_of_fmap in Hin as (x & Hx & Hin).
        apply list_elem_of_fmap. exists x. split; [done|].
        apply list_elem_of_filter. split; [by rewrite <- Hx|done].
      * intros [H1 H2] [Hin|Hin]; [done|]. apply H2.
        apply list_elem_of_fmap in Hin as (x & Hx & Hin).
        apply list_elem_of_filter in Hin as [_ Hin].
        apply firstOccurrences_elem_of in Hin.
        apply list_elem_of_fmap. by exists x.
Qed.

(** C7. When the fetches of the queries, run in order, end with the
    given outcomes, the collector returns the first occurrence of
    every record id among the results of the successful fetches, in
    encounter order: a record whose id was seen before is dropped.
    The result is a subsequence of the concatenated results with
    pairwise-distinct ids, and every record in it is the first of its
    id. *)
Theorem fetchPapersMultiQuery_first_seen fuel options calls0 queries rs calls1 :
  Outcomes upstream isoNow fuel options calls0 queries rs calls1 →
  fetchPapersMultiQuery upstream isoNow fuel queries options calls0
    = Some (firstOccurrences (successes rs), calls1) ∧
  firstOccurrences (successes rs) `sublist_of` successes rs ∧
  NoDup (Paper.id <$> firstOccurrences (successes rs)) ∧
  (∀ i, i ∈ Paper.id <$> firstOccurrences (successes rs) ↔ i ∈ Paper.id <$> successes rs) ∧
  (∀ p, p ∈ firstOccurrences (successes rs) →
        ∃ l1 l2, successes rs = l1 ++ p :: l2 ∧ Paper.id p ∉ Paper.id <$> l1).
Proof.
  intros Hout. split_and!.
  - destruct (runQueries_outcomes _ _ _ _ _ _ Hout (mkMulti [] ∅ calls0))
      as (st' & Hrun & Hc & Hp); [done| |].
    { intros i. simpl. split; [set_solver|by intros ?%elem_of_nil]. }
    unfold fetchPapersMultiQuery. rewrite Hrun. simpl. rewrite Hc, Hp. simpl.
    do 2 f_equal. apply filter_all. intros q _. apply not_elem_of_nil.
  - apply firstOccurrences_sublist.
  - apply firstOccurrences_NoDup.
  - intros i. apply firstOccurrences_ids.
  - intros p. apply firstOccurrences_first.
Qed.

End FetcherFacts.

(** Two queries, Q1 returning [A, B] and Q2 returning [B, C]: the
    collector returns exactly [A, B, C]. *)
Lemma fetchPapersMultiQuery_first_seen_witness :
  Fetcher.fetchPapersMultiQuery Fetcher.twoQueriesUpstream Fetcher.exampleClock
    5 Fetcher.exampleQueries Fetcher.Options.default 0
  = Some ([Fetcher.paperA; Fetcher.paperB; Fetcher.paperC], 2%nat).
Proof.
  destruct (fetchPapersMultiQuery_first_seen
              Fetcher.twoQueriesUpstream Fetcher.exampleClock 5 Fetcher.Options.default
              0 Fetcher.exampleQueries
              [inr [Fetcher.paperA; Fetcher.paperB];
               inr [Fetcher.paperB_again; Fetcher.paperC]] 2) as [Heq _].
  - eapply Fetcher.outcomes_cons; [vm_compute; reflexivity|].
    eapply Fetcher.outcomes_cons; [vm_compute; reflexivity|].
    apply Fetcher.outcomes_nil.
  - rewrite Heq. vm_compute. reflexivity.
Defined.

(** A failure on the first page is thrown; a failure on the second
    page returns the hundred records of the first. *)
Lemma fetchPapersForQuery_failure_semantics_witness :
  Fetcher.fetchPapersForQuery Fetcher.alwaysFails Fetcher.exampleClock
    "abs:agent" Fetcher.Options.default 1 0
  = Some (inl (XmlParser.mkError "HTTP 503: Service Unavailable"), 1%nat) ∧
  Fetcher.fetchPapersForQuery Fetcher.secondPageFails Fetcher.exampleClock
    "abs:agent" Fetcher.Options.default 2 0
  = Some (inr Fetcher.fullPage, 2%nat).
Proof.
  split.
  - apply (proj1 (fetchPapersForQuery_failure_semantics
                    Fetcher.alwaysFails Fetcher.exampleClock
                    "abs:agent" Fetcher.Options.default 0)).
    + discriminate.
    + reflexivity.
  - etrans.
    + apply (proj2 (fetchPapersForQuery_failure_semantics
                    Fetcher.secondPageFails Fetcher.exampleClock
                    "abs:agent" Fetcher.Options.default 0)
                  [Fetcher.fullPage]
                  (Fetcher.mkLoop Fetcher.fullPage 100 true 1)
                  (XmlParser.mkError "HTTP 503: Service Unavailable") 0%nat).
      * eapply (Fetcher.paginated_cons _ _ _ _ _ (Fetcher.Parsed.mk Fetcher.fullPage (Some 250)));
          [reflexivity|reflexivity|discriminate|].
        vm_compute. apply Fetcher.paginated_nil.
      * simpl. lia.
      * reflexivity.
      * reflexivity.
    + vm_compute. reflexivity.
Defined.

(** ** buildIndex *)

Section IndexFacts.
Import IndexBuilder.
Variable Date : string → option Z.

Lemma set_values_elem_of {A : Type} `{EqDecision A} (seen l : list A) (x : A) :
  x ∈ Js.set_values seen l ↔ x ∈ l ∧ x ∉ seen.
Proof.
  revert seen. induction l as [|y l IH]; intros seen; simpl.
  - split; [by intros ?%elem_of_nil | by intros [?%elem_of_nil _]].
  - case_bool_decide as Hy.
    + rewrite IH, elem_of_cons. split; [tauto|].
      intros [[->|Hx] Hn]; [done|tauto].
    + rewrite !elem_of_cons, IH, not_elem_of_cons.
      destruct (decide (x = y)) as [->|Hne]; tauto.
Qed.

Lemma indexPapers_perm now papers blocklist :
  Index.papers (buildIndex Date now papers blocklist) ≡ₚ
  project <$> filter (λ paper, Paper.id paper ∉ blocklist) papers.
Proof. apply sort_perm. Qed.

(** C6. No record whose id is in the block-list appears among the
    papers of the index; blocked records do not count in
    [meta.totalPapers]; and [meta.years] holds exactly the years of the
    records that are not blocked, so that a year all of whose records
    are blocked is absent.  With the partitions 2023: [p1] and
    2024: [p2, p3] and p1 blocked, [meta.totalPapers] is 2 and
    [meta.years] is [2024]. *)
Theorem buildIndex_excludes_blocked
    (now : string) (papers : list Paper.t) (blocklist : gset string) :
  let index := buildIndex Date now papers blocklist in
  (∀ e, e ∈ Index.papers index → Entry.id e ∉ blocklist) ∧
  Index.papers index ≡ₚ (project <$> filter (λ paper, Paper.id paper ∉ blocklist) papers) ∧
  Meta.totalPapers (Index.meta index) =
    length (filter (λ paper, Paper.id paper ∉ blocklist) papers) ∧
  (∀ y, y ∈ Meta.years (Index.meta index) ↔
        (∃ paper, paper ∈ papers ∧ (Paper.id paper ∉ blocklist) ∧ yearOf paper = y)) ∧
  (let example :=
     buildIndex IsoDate.value now (YearStore.loadAllPapers examplePartitions)
                exampleBlocklist in
   YearStore.loadAllPapers examplePartitions = [p1; p2; p3] ∧
   Meta.totalPapers (Index.meta example) = 2%nat ∧
   Meta.years (Index.meta example) = [Some 2024] ∧
   (Entry.id <$> Index.papers example) = ["2403.00003"; "2402.00002"]).
Proof.
  simpl. split; [|split; [|split; [|split]]].
  - intros e He. apply sort_elem_of, list_elem_of_fmap in He as (paper & -> & Hp).
    by apply list_elem_of_filter in Hp as [Hp _].
  - apply sort_perm.
  - by rewrite sort_length, length_fmap.
  - intros y. rewrite sort_elem_of, set_values_elem_of, list_elem_of_fmap. split.
    + intros [[e [-> He]] _].
      apply sort_elem_of, list_elem_of_fmap in He as (paper & -> & Hp).
      apply list_elem_of_filter in Hp as [Hnb Hp]. by exists paper.
    + intros (paper & Hp & Hnb & <-). split; [|apply not_elem_of_nil].
      exists (project paper). split; [done|].
      apply sort_elem_of, list_elem_of_fmap. exists paper. split; [done|].
      by apply list_elem_of_filter.
  - vm_compute. by repeat split.
Qed.

End IndexFacts.

(** In the example index, p2 is listed and is not blocked, and the
    blocked p1 is not listed. *)
Lemma buildIndex_excludes_blocked_witness :
  let index :=
    IndexBuilder.buildIndex IsoDate.value "2024-05-02T12:00:00.000Z"
      (YearStore.loadAllPapers IndexBuilder.examplePartitions)
      IndexBuilder.exampleBlocklist in
  IndexBuilder.project IndexBuilder.p2 ∈ IndexBuilder.Index.papers index ∧
  (IndexBuilder.Entry.id (IndexBuilder.project IndexBuilder.p2)
     ∉ IndexBuilder.exampleBlocklist) ∧
  IndexBuilder.project IndexBuilder.p1 ∉ IndexBuilder.Index.papers index.
Proof.
  simpl.
  pose proof (buildIndex_excludes_blocked IsoDate.value "2024-05-02T12:00:00.000Z"
                (YearStore.loadAllPapers IndexBuilder.examplePartitions)
                IndexBuilder.exampleBlocklist) as [Hblocked _].
  assert (Hin : IndexBuilder.project IndexBuilder.p2 ∈
                IndexBuilder.Index.papers
                  (IndexBuilder.buildIndex IsoDate.value "2024-05-02T12:00:00.000Z"
                     (YearStore.loadAllPapers IndexBuilder.examplePartitions)
                     IndexBuilder.exampleBlocklist)).
  { vm_compute. apply list_elem_of_further, list_elem_of_here. }
  split; [exact Hin|]. split; [exact (Hblocked _ Hin)|].
  intros Hp1. apply (Hblocked _ Hp1). vm_compute. reflexivity.
Defined.

(** ** deduplicatePapers *)

Section DedupFacts.
Import Deduplicator.

Lemma dedupStep_loop st papers :
  (∀ i, i ∈ (seenIds st).*1 ↔ i ∈ Paper.id <$> d_unique st) →
  d_unique (foldl dedupStep st papers) =
    d_unique st ++
    filter (λ p, Paper.id p ∉ Paper.id <$> d_unique st) (firstOccurrences papers).
Proof.
  revert st. induction papers as [|p papers IH]; intros st Hinv; simpl.
  - by rewrite app_nil_r.
  - rewrite firstOccurrences_cons. unfold dedupStep at 2.
    destruct (map_get (Paper.id p) (seenIds st)) as [first|] eqn:Hget.
    + assert (Hseen : Paper.id p ∈ Paper.id <$> d_unique st).
      { apply Hinv. destruct (decide (Paper.id p ∈ (seenIds st).*1)) as [|Hn]; [done|].
        apply map_get_None in Hn. congruence. }
      rewrite IH by done. simpl. f_equal.
      rewrite filter_cons_False by (by intros Hn).
      rewrite list_filter_filter. apply list_filter_iff. intros q.
      split; [|tauto]. intros Hq. split; [done|]. intros Heq. apply Hq. by rewrite Heq.
    + apply map_get_None in Hget as Hfresh.
      assert (Hnew : Paper.id p ∉ Paper.id <$> d_unique st) by (by rewrite <- Hinv).
      rewrite IH; simpl.
      * rewrite <- app_assoc. f_equal. simpl.
        rewrite filter_cons_True by done. f_equal.
        rewrite list_filter_filter. apply list_filter_iff. intros q.
        rewrite fmap_app, elem_of_app. simpl. rewrite list_elem_of_singleton. tauto.
      * intros i. rewrite map_set_fresh by done.
        rewrite !fmap_app, !elem_of_app, (Hinv i). simpl.
        by rewrite !list_elem_of_singleton.
Qed.

(** Deduplication within a batch keeps the first record of every id. *)
Lemma deduplicatePapers_unique papers :
  unique (deduplicatePapers papers) = firstOccurrences papers.
Proof.
  unfold deduplicatePapers. simpl. rewrite dedupStep_loop by done. simpl.
  apply filter_all. intros q _. apply not_elem_of_nil.
Qed.

End DedupFacts.

(** ** The runs of the pipeline *)

Section PipelineFacts.
Import Deduplicator Pipeline.
Variable Date : string → option Z.

Lemma organize_lookup (m : gmap (option Z) (list Paper.t)) papers year :
  Js.or_default
    (foldl (λ papersByYear paper,
              <[yearOf paper :=
                  Js.or_default (papersByYear !! yearOf paper) [] ++ [paper]]> papersByYear)
           m papers !! year) [] =
  Js.or_default (m !! year) [] ++ filter (λ p, yearOf p = year) papers.
Proof.
  revert m. induction papers as [|p papers IH]; intros m; simpl.
  - by rewrite app_nil_r.
  - rewrite IH, filter_cons. destruct (decide (yearOf p = year)) as [<-|Hne].
    + rewrite lookup_insert_eq. simpl. by rewrite <- app_assoc.
    + by rewrite lookup_insert_ne.
Qed.

Lemma organizePapersByYear_lookup papers year :
  Js.or_default (organizePapersByYear papers !! year) [] =
  filter (λ p, yearOf p = year) papers.
Proof. unfold organizePapersByYear. by rewrite organize_lookup, lookup_empty. Qed.

(** Where the records of a merged sequence come from. *)
Lemma mergeLoop_origin (P : Paper.t → Prop) st newPapers :
  (∀ n, n ∈ newPapers → P n) →
  (∀ n e, n ∈ newPapers → P (replacement n e)) →
  (∀ kv, kv ∈ paperMap st → P kv.2) →
  ∀ kv, kv ∈ paperMap (foldl (mergeStep Date) st newPapers) → P kv.2.
Proof.
  revert st. induction newPapers as [|n l IH]; intros st Hnew Hrep Hst; simpl; [done|].
  apply IH.
  - intros x Hx. by apply Hnew, list_elem_of_further.
  - intros x e Hx. by apply Hrep, list_elem_of_further.
  - intros kv. unfold mergeStep.
    destruct (map_get (Paper.id n) (paperMap st)) as [e|];
      [destruct (Js.date_gt _ _)|]; simpl; [|by apply Hst|].
    + intros [->|?]%map_set_elem; [|by apply Hst]. apply Hrep, list_elem_of_here.
    + intros [->|?]%map_set_elem; [|by apply Hst]. apply Hnew, list_elem_of_here.
Qed.

Lemma initialMap_origin existing kv : kv ∈ initialMap existing → kv.2 ∈ existing.
Proof.
  unfold initialMap.
  assert (Hgen : ∀ m l, (∀ kv, kv ∈ m → kv.2 ∈ existing) → (∀ p, p ∈ l → p ∈ existing) →
            ∀ kv, kv ∈ foldl (λ m paper, map_set (Paper.id paper) paper m) m l →
                  kv.2 ∈ existing).
  { intros m l. revert m. induction l as [|p l IH]; intros m Hm Hl kv'; simpl; [by apply Hm|].
    apply IH.
    - intros kv0 [->|?]%map_set_elem; [|by apply Hm]. apply Hl, list_elem_of_here.
    - intros q Hq. by apply Hl, list_elem_of_further. }
  apply Hgen; [|done]. by intros kv0 ?%elem_of_nil.
Qed.

Lemma mergePapers_origin existing newPapers r :
  r ∈ merged (mergePapers Date existing newPapers) →
  r ∈ existing ∨
  ∃ n, n ∈ newPapers ∧ Paper.id r = Paper.id n ∧
       Paper.publishedDate r = Paper.publishedDate n.
Proof.
  unfold mergePapers. simpl. unfold map_values.
  intros ([k v] & -> & Hkv)%list_elem_of_fmap.
  revert Hkv. apply (mergeLoop_origin (λ r, r ∈ existing ∨ ∃ n, n ∈ newPapers ∧
    Paper.id r = Paper.id n ∧ Paper.publishedDate r = Paper.publishedDate n)).
  - intros n Hn. right. by exists n.
  - intros n e Hn. right. by exists n.
  - intros kv Hkv. left. by apply initialMap_origin.
Qed.

Lemma yearOf_publishedDate p q :
  Paper.publishedDate p = Paper.publishedDate q → yearOf p = yearOf q.
Proof. unfold yearOf. by intros ->. Qed.

Lemma sourced_mono S S' r : sourced S r → sourced (S ++ S') r.
Proof. intros (p & Hp & H1 & H2). exists p. split; [|done]. apply elem_of_app. by left. Qed.

Lemma storeOk_mono S S' store : storeOk S store → storeOk (S ++ S') store.
Proof.
  intros Hok year data Hl. destruct (Hok year data Hl) as (H1 & H2 & H3).
  split_and!; [done|done|]. intros r Hr. destruct (H3 r Hr). split; [done|].
  by apply sourced_mono.
Qed.

Lemma save_merged_ok S store year newPapers :
  storeOk S store → freshOk S year newPapers →
  storeOk S (YearStore.saveYearPapers year
               (merged (mergePapers Date (YearStore.loadYearPapers store year) newPapers))
               store).
Proof.
  intros Hok [Hnd Hnew] y data. unfold YearStore.saveYearPapers.
  destruct (decide (year = y)) as [<-|Hne]; [|rewrite lookup_insert_ne by done; apply Hok].
  rewrite lookup_insert_eq. intros [= <-]. simpl.
  split_and!; [apply mergePapers_ids_NoDup|done|].
  intros r [Hr|(n & Hn & Hid & Hpub)]%mergePapers_origin.
  - unfold YearStore.loadYearPapers in Hr.
    destruct (store !! year) as [data|] eqn:Hl; [|by apply elem_of_nil in Hr].
    by apply (Hok year data Hl).
  - destruct (Hnew n Hn) as [Hy (p & Hp & H1 & H2)].
    apply yearOf_publishedDate in Hpub. split; [congruence|].
    exists p. split; [done|]. split; congruence.
Qed.

Lemma save_new_ok S store year newPapers :
  storeOk S store → freshOk S year newPapers →
  storeOk S (YearStore.saveYearPapers year newPapers store).
Proof.
  intros Hok [Hnd Hnew] y data. unfold YearStore.saveYearPapers.
  destruct (decide (year = y)) as [<-|Hne]; [|rewrite lookup_insert_ne by done; apply Hok].
  rewrite lookup_insert_eq. intros [= <-]. simpl. done.
Qed.

Lemma prepare_fresh S batch year :
  freshOk (S ++ Batch.fetched batch) year (Js.or_default (prepare batch !! year) []).
Proof.
  unfold prepare. rewrite organizePapersByYear_lookup, deduplicatePapers_unique.
  split.
  - eapply sublist_NoDup; [apply firstOccurrences_NoDup|].
    apply fmap_sublist, sublist_filter.
  - intros n [Hy Hn]%list_elem_of_filter. split; [done|].
    apply firstOccurrences_elem_of in Hn. unfold Categorizer.categorizePapers in Hn.
    apply list_elem_of_fmap in Hn as (x & -> & Hx).
    apply list_elem_of_fmap in Hx as (p & -> & Hp).
    exists p. split; [apply elem_of_app; by right|]. done.
Qed.

Lemma run_ok S store r :
  storeOk S store → storeOk (S ++ Batch.fetched (batchOf r)) (run Date store r).
Proof.
  intros Hok. apply (storeOk_mono _ (Batch.fetched (batchOf r))) in Hok.
  unfold run. case_bool_decide; [done|].
  generalize (yearsOf (prepare (batchOf r))). intros years.
  revert store Hok. destruct r as [batch|batch]; simpl;
    induction years as [|year years IH]; intros store Hok; simpl; try done; apply IH.
  - apply save_merged_ok; [done|apply prepare_fresh].
  - unfold mergeYearFull. case_bool_decide.
    + apply save_merged_ok; [done|apply prepare_fresh].
    + apply save_new_ok; [done|apply prepare_fresh].
Qed.

Lemma runs_ok S store rs :
  storeOk S store → storeOk (S ++ fetchedBy rs) (runs Date store rs).
Proof.
  revert S store. induction rs as [|r rs IH]; intros S store Hok; simpl.
  - unfold fetchedBy. simpl. by rewrite app_nil_r.
  - unfold fetchedBy. simpl. fold (fetchedBy rs). rewrite app_assoc.
    apply IH. by apply run_ok.
Qed.

Lemma partitions_disjoint S (l : list (option Z * YearFile.t)) :
  yearStable S → NoDup l.*1 →
  (∀ year data, (year, data) ∈ l →
     NoDup (Paper.id <$> YearFile.papers data) ∧
     ∀ r, r ∈ YearFile.papers data → yearOf r = year ∧ sourced S r) →
  NoDup (Paper.id <$> concat (YearFile.papers <$> l.*2)).
Proof.
  intros Hstable. induction l as [|[year data] l IH]; intros Hnd Hl; csimpl; [constructor|].
  apply NoDup_cons in Hnd as [Hyear Hnd]. rewrite fmap_app. apply NoDup_app. split_and!.
  - apply (Hl year data), list_elem_of_here.
  - intros i (r & -> & Hr)%list_elem_of_fmap (r' & Hid & Hr')%list_elem_of_fmap.
    apply elem_of_concat in Hr' as (ps & Hr' & Hps).
    apply list_elem_of_fmap in Hps as (data' & -> & Hd').
    apply list_elem_of_fmap in Hd' as ([year' d] & -> & Hin). simpl in Hr'.
    destruct (Hl year data (list_elem_of_here _ _)) as [_ Hrec].
    destruct (Hrec r Hr) as [Hy (p & Hp & Hpid & Hpy)].
    destruct (Hl year' d (list_elem_of_further _ _ _ Hin)) as [_ Hrec'].
    destruct (Hrec' r' Hr') as [Hy' (p' & Hp' & Hpid' & Hpy')].
    apply Hyear. replace year with year'; [apply list_elem_of_fmap; by exists (year', d)|].
    rewrite <- Hy, <- Hy', <- Hpy, <- Hpy'. apply Hstable; [done|done|congruence].
  - apply IH; [done|]. intros y d Hin. apply Hl. by apply list_elem_of_further.
Qed.

Lemma executions_papersOf disk rs script :
  Disk.papersOf (executions Date disk rs) script =
  runs Date (Disk.papersOf disk script) (runsOf script rs).
Proof.
  revert disk. induction rs as [|r rs IH]; intros disk; [done|].
  unfold executions, runsOf in *. simpl. rewrite IH. unfold filter. simpl.
  destruct r as [batch|batch], script; simpl; try done.
Qed.

(** C3 (as amended).  After any sequence of runs of the two scripts
    from empty directories, no year file of either directory holds
    two records with the same id, the count of a file is the number
    of its records, and every record is filed under the year of its
    publication date; and when every id is always fetched by a script
    with the same publication year, no two records of that script's
    directory have the same id. *)
Theorem store_ids_unique (rs : list Run) (script : Script) :
  let store := Disk.papersOf (executions Date Disk.empty rs) script in
  (∀ year data, store !! year = Some data →
     NoDup (Paper.id <$> YearFile.papers data) ∧
     YearFile.count data = length (YearFile.papers data) ∧
     ∀ r, r ∈ YearFile.papers data → yearOf r = year) ∧
  (yearStable (fetchedBy (runsOf script rs)) →
   NoDup (Paper.id <$> YearStore.loadAllPapers store)).
Proof.
  cbv zeta. rewrite executions_papersOf.
  assert (Hempty : Disk.papersOf Disk.empty script = ∅) by by destruct script.
  rewrite Hempty. set (mine := runsOf script rs).
  assert (Hok : storeOk (fetchedBy mine) (runs Date ∅ mine)).
  { apply (runs_ok [] ∅ mine). intros year data. by rewrite lookup_empty. }
  split.
  - intros year data Hl. destruct (Hok year data Hl) as (H1 & H2 & H3).
    split_and!; [done|done|]. intros r Hr. by destruct (H3 r Hr).
  - intros Hstable. unfold YearStore.loadAllPapers.
    apply (partitions_disjoint (fetchedBy mine)); [done|apply NoDup_fst_map_to_list|].
    intros year data Hin%elem_of_map_to_list.
    destruct (Hok year data Hin) as (H1 & _ & H3). done.
Qed.

End PipelineFacts.

(** C3 as stated fails, in two ways.  Within one directory, the same
    id fetched with a publication date in 2023 and later with one in
    2024 is stored in the year files of both years.  And across the
    directories, a paper fetched by a full update and again by an
    incremental update is stored once under [public/data/papers] and
    once under [data/papers]. *)
Lemma store_ids_not_unique_across_years :
  ¬ NoDup (Paper.id <$> YearStore.loadAllPapers
                          (Pipeline.Disk.dataPapers
                             (Pipeline.executions IsoDate.value Pipeline.Disk.empty
                                Pipeline.movingRuns))) ∧
  ("2405.00002" ∈ Paper.id <$> YearStore.loadAllPapers
                     (Pipeline.Disk.publicPapers
                        (Pipeline.executions IsoDate.value Pipeline.Disk.empty
                           Pipeline.steadyRuns))) ∧
  ("2405.00002" ∈ Paper.id <$> YearStore.loadAllPapers
                     (Pipeline.Disk.dataPapers
                        (Pipeline.executions IsoDate.value Pipeline.Disk.empty
                           Pipeline.steadyRuns))).
Proof.
  split_and!.
  - assert (Heq : Paper.id <$> YearStore.loadAllPapers
                                 (Pipeline.Disk.dataPapers
                                    (Pipeline.executions IsoDate.value Pipeline.Disk.empty
                                       Pipeline.movingRuns))
                  = ["2312.09999"; "2312.09999"]) by (vm_compute; reflexivity).
    rewrite Heq. intros [Hn _]%NoDup_cons. apply Hn, list_elem_of_here.
  - assert (Heq : Paper.id <$> YearStore.loadAllPapers
                                 (Pipeline.Disk.publicPapers
                                    (Pipeline.executions IsoDate.value Pipeline.Disk.empty
                                       Pipeline.steadyRuns))
                  = ["2306.00001"; "2405.00001"; "2405.00002"]) by (vm_compute; reflexivity).
    rewrite Heq. do 2 apply list_elem_of_further. apply list_elem_of_here.
  - assert (Heq : Paper.id <$> YearStore.loadAllPapers
                                 (Pipeline.Disk.dataPapers
                                    (Pipeline.executions IsoDate.value Pipeline.Disk.empty
                                       Pipeline.steadyRuns))
                  = ["2405.00002"; "2405.00003"]) by (vm_compute; reflexivity).
    rewrite Heq. apply list_elem_of_here.
Qed.

(** A full update that fetches every id with one publication year
    leaves a directory without a repeated id. *)
Lemma store_ids_unique_witness :
  Pipeline.yearStable
    (Pipeline.fetchedBy (Pipeline.runsOf Pipeline.UpdateFull Pipeline.steadyRuns)) ∧
  NoDup (Paper.id <$> YearStore.loadAllPapers
                        (Pipeline.Disk.papersOf
                           (Pipeline.executions IsoDate.value Pipeline.Disk.empty
                              Pipeline.steadyRuns)
                           Pipeline.UpdateFull)).
Proof.
  assert (Hstable : Pipeline.yearStable
            (Pipeline.fetchedBy (Pipeline.runsOf Pipeline.UpdateFull Pipeline.steadyRuns))).
  { intros p q Hp Hq Heq.
    change (Pipeline.fetchedBy (Pipeline.runsOf Pipeline.UpdateFull Pipeline.steadyRuns))
      with [Fetcher.paperA; Fetcher.paperB; IndexBuilder.p1] in Hp, Hq.
    repeat (apply elem_of_cons in Hp as [->|Hp]); [..|by apply elem_of_nil in Hp];
      repeat (apply elem_of_cons in Hq as [->|Hq]);
      try (by apply elem_of_nil in Hq);
      try (vm_compute; reflexivity);
      by vm_compute in Heq. }
  split; [exact Hstable|].
  exact (proj2 (store_ids_unique IsoDate.value Pipeline.steadyRuns Pipeline.UpdateFull)
               Hstable).
Defined.

(** ** The functions on concrete inputs *)

Example categorizePaper_example :
  Categorizer.categorizePaper Categorizer.examplePaper Categorizer.exampleCategories
  = ["rag"; "agents"; "reasoning"].
Proof. reflexivity. Qed.

Example categorizePapers_example :
  (λ p, (Paper.categories p, Paper.tags p)) <$>
    Categorizer.categorizePapers [Categorizer.examplePaper; Fetcher.paperA]
                                 Categorizer.exampleCategories
  = [ (Some ["rag"; "agents"; "reasoning"],
       Some (Tags.mk (Some ["rag"; "agents"; "reasoning"]) (Some [])));
      (Some [], Some (Tags.mk (Some []) (Some []))) ].
Proof. reflexivity. Qed.

Example parseInt_examples :
  Js.parseInt "2024" = Some 2024 ∧ Js.parseInt " -12a" = Some (-12) ∧
  Js.parseInt "0x1f" = Some 31 ∧ Js.parseInt "abcd" = None ∧ Js.parseInt "" = None.
Proof. by repeat split. Qed.

Example extractArxivId_examples :
  XmlParser.extractArxivId "http://arxiv.org/abs/2401.1234" = inr "2401.1234" ∧
  XmlParser.extractArxivId "http://arxiv.org/abs/12401.12345v12" = inr "2401.12345" ∧
  XmlParser.extractArxivId "1234.1234.5678v3" = inr "1234.5678" ∧
  XmlParser.extractArxivId "http://arxiv.org/abs/2401.123456"
    = inl (XmlParser.mkError
             "Failed to extract arXiv ID from: http://arxiv.org/abs/2401.123456") ∧
  XmlParser.extractArxivId "http://arxiv.org/abs/2401.12345v"
    = inl (XmlParser.mkError
             "Failed to extract arXiv ID from: http://arxiv.org/abs/2401.12345v").
Proof. by repeat split. Qed.

Example deduplicatePapers_example :
  Deduplicator.deduplicatePapers
    [Fetcher.paperA; Fetcher.paperB; Fetcher.paperB_again; Fetcher.paperC]
  = Deduplicator.mkDedup
      [Fetcher.paperA; Fetcher.paperB; Fetcher.paperC]
      [Deduplicator.Duplicate.mk "2405.00002" "B, as the second query returns it" "B"].
Proof. reflexivity. Qed.

Example mergePapers_example :
  let result :=
    Deduplicator.mergePapers IsoDate.value
      [Deduplicator.paperX_curated] [Deduplicator.paperY; Deduplicator.paperX_revised] in
  Deduplicator.added result = 1%nat ∧ Deduplicator.updated result = 1%nat ∧
  (Paper.id <$> Deduplicator.merged result) = ["2401.12345"; "2402.00001"].
Proof. vm_compute. by repeat split. Qed.

Example fetchPapersForQuery_example :
  Fetcher.fetchPapersForQuery Fetcher.twoQueriesUpstream Fetcher.exampleClock
    "abs:agent" Fetcher.Options.default 3 0
  = Some (inr [Fetcher.paperA; Fetcher.paperB], 1%nat) ∧
  Fetcher.request Fetcher.exampleClock "abs:agent" Fetcher.Options.default
    (Fetcher.mkLoop [] 0 true 0)
  = Fetcher.Request.mk
      "(abs:agent) AND submittedDate:[202001010000 TO 202405022359]"
      0 100 "submittedDate" "descending".
Proof. by split. Qed.

Example buildAndSaveIndex_nothing_to_index :
  IndexBuilder.buildAndSaveIndex IsoDate.value "2024-05-02T12:00:00.000Z" ∅
    IndexBuilder.exampleBlocklist = None.
Proof. reflexivity. Qed.

(** * Further properties of the scripts *)

(** ** deduplicatePapers: the report of duplicates *)

Section DedupReport.
Import Deduplicator.

Lemma dedupStep_invariant papers st :
  seenIds st = (λ p, (Paper.id p, p)) <$> d_unique st →
  let st' := foldl dedupStep st papers in
  seenIds st' = (λ p, (Paper.id p, p)) <$> d_unique st' ∧
  d_unique st `prefix_of` d_unique st' ∧
  (length (d_unique st') + length (d_duplicates st') =
     length (d_unique st) + length (d_duplicates st) + length papers)%nat ∧
  ∀ d, d ∈ d_duplicates st' →
       d ∈ d_duplicates st ∨
       ∃ first dup, first ∈ d_unique st' ∧ dup ∈ papers ∧
         Paper.id first = Paper.id dup ∧
         d = Duplicate.mk (Paper.id dup) (Paper.title dup) (Paper.title first).
Proof.
  revert st. induction papers as [|p papers IH]; intros st Hinv; simpl.
  - split_and!; [done|done|lia|by left].
  - destruct (map_get (Paper.id p) (seenIds st)) as [first|] eqn:Hget.
    + assert (Hstep : dedupStep st p =
        mkDedupState (seenIds st) (d_unique st)
          (d_duplicates st ++
             [Duplicate.mk (Paper.id p) (Paper.title p) (Paper.title first)]))
        by (unfold dedupStep; by rewrite Hget).
      rewrite Hstep. set (st1 := mkDedupState _ _ _).
      destruct (IH st1 Hinv) as (H1 & H2 & H3 & H4). split_and!; [done|done| |].
      * rewrite H3. simpl. rewrite length_app. simpl. lia.
      * intros d Hd. destruct (H4 d Hd) as [Hold|(f & dup & Hf & Hdup & Hid & ->)].
        -- simpl in Hold. apply elem_of_app in Hold as [?|Hnew]; [by left|right].
           apply list_elem_of_singleton in Hnew as ->.
           apply map_get_Some_elem in Hget. rewrite Hinv in Hget.
           apply list_elem_of_fmap in Hget as (q & Heq & Hin).
           injection Heq as Hq Hf. subst q.
           exists first, p. split_and!; [|apply list_elem_of_here|done|done].
           eapply elem_of_prefix; [exact Hin|exact H2].
        -- right. exists f, dup. split_and!; [done|by apply list_elem_of_further|done|done].
    + assert (Hstep : dedupStep st p =
        mkDedupState (map_set (Paper.id p) p (seenIds st)) (d_unique st ++ [p])
          (d_duplicates st))
        by (unfold dedupStep; by rewrite Hget).
      rewrite Hstep. set (st1 := mkDedupState _ _ _).
      assert (Hinv1 : seenIds st1 = (λ p, (Paper.id p, p)) <$> d_unique st1).
      { simpl. rewrite map_set_fresh by (by apply map_get_None).
        by rewrite Hinv, fmap_app. }
      destruct (IH st1 Hinv1) as (H1 & H2 & H3 & H4). split_and!; [done| | |].
      * etrans; [|exact H2]. simpl. by apply prefix_app_r.
      * rewrite H3. simpl. rewrite length_app. simpl. lia.
      * intros d Hd. destruct (H4 d Hd) as [Hold|(f & dup & Hf & Hdup & Hid & ->)];
          [by left|right].
        exists f, dup. split_and!; [done|by apply list_elem_of_further|done|done].
Qed.

(** X1. [deduplicatePapers] keeps the first record of every id, so the
    kept records have pairwise-distinct ids; every input record is
    either kept or reported, and each report carries the id and title
    of a dropped record together with the title of the kept record of
    the same id. *)
Theorem deduplicatePapers_report (papers : list Paper.t) :
  let result := deduplicatePapers papers in
  unique result = firstOccurrences papers ∧
  NoDup (Paper.id <$> unique result) ∧
  (length (unique result) + length (duplicates result) = length papers)%nat ∧
  ∀ d, d ∈ duplicates result →
       ∃ first dup, first ∈ unique result ∧ dup ∈ papers ∧
         Paper.id first = Paper.id dup ∧
         d = Duplicate.mk (Paper.id dup) (Paper.title dup) (Paper.title first).
Proof.
  cbv zeta.
  destruct (dedupStep_invariant papers (mkDedupState [] [] [])) as (_ & _ & H3 & H4);
    [done|].
  split_and!.
  - apply deduplicatePapers_unique.
  - rewrite deduplicatePapers_unique. apply firstOccurrences_NoDup.
  - exact H3.
  - intros d Hd. destruct (H4 d Hd) as [Hold|?]; [|done]. by apply elem_of_nil in Hold.
Qed.

(** X2. Deduplicating a batch whose ids are already pairwise distinct
    returns it unchanged and reports nothing; in particular
    deduplicating the kept records again changes nothing. *)
Theorem deduplicatePapers_distinct (papers : list Paper.t) :
  NoDup (Paper.id <$> papers) →
  deduplicatePapers papers = mkDedup papers [].
Proof.
  intros Hnd.
  destruct (dedupStep_invariant papers (mkDedupState [] [] [])) as (_ & _ & H3 & _); [done|].
  assert (Hu : unique (deduplicatePapers papers) = papers).
  { rewrite deduplicatePapers_unique. clear H3.
    induction papers as [|p l IH]; [done|]. rewrite firstOccurrences_cons.
    apply NoDup_cons in Hnd as [Hp Hnd]. rewrite (IH Hnd). f_equal.
    apply filter_all. intros q Hq Heq. apply Hp. rewrite <- Heq.
    apply list_elem_of_fmap. by exists q. }
  unfold deduplicatePapers in *. simpl in *. rewrite Hu in *. f_equal.
  destruct (d_duplicates _); [done|]. simpl in H3. lia.
Qed.

End DedupReport.

Lemma deduplicatePapers_distinct_witness :
  Deduplicator.deduplicatePapers
    (Deduplicator.unique
       (Deduplicator.deduplicatePapers
          [Fetcher.paperA; Fetcher.paperB; Fetcher.paperB_again; Fetcher.paperC]))
  = Deduplicator.mkDedup [Fetcher.paperA; Fetcher.paperB; Fetcher.paperC] [].
Proof.
  apply (deduplicatePapers_distinct [Fetcher.paperA; Fetcher.paperB; Fetcher.paperC]).
  refine (bool_decide_unpack _ _). vm_compute. exact I.
Defined.

(** ** mergePapers: what is counted and what is kept *)

Section MergeAccounts.
Import Deduplicator.
Variable Date : string → option Z.

Lemma map_set_length_present k v m : k ∈ m.*1 → length (map_set k v m) = length m.
Proof.
  intros Hin. rewrite <- (length_fmap fst (map_set k v m)), <- (length_fmap fst m).
  by rewrite map_set_keys_present.
Qed.

Lemma map_get_Some_key k v m : map_get k m = Some v → k ∈ m.*1.
Proof.
  intros Hget. destruct (decide (k ∈ m.*1)) as [|Hn]; [done|].
  apply map_get_None in Hn. congruence.
Qed.

Lemma map_set_keys_elem k v m i : i ∈ (map_set k v m).*1 ↔ i = k ∨ i ∈ m.*1.
Proof.
  destruct (decide (k ∈ m.*1)) as [Hin|Hn].
  - rewrite map_set_keys_present by done. split; [by right|]. by intros [->|?].
  - rewrite map_set_fresh by done. rewrite fmap_app, elem_of_app. simpl.
    rewrite list_elem_of_singleton. tauto.
Qed.

Lemma mergeLoop_accounts st l :
  let st' := foldl (mergeStep Date) st l in
  (length (paperMap st') + st_added st = length (paperMap st) + st_added st')%nat ∧
  (st_added st ≤ st_added st')%nat ∧
  (st_added st' + st_updated st' ≤ st_added st + st_updated st + length l)%nat ∧
  ∀ i, i ∈ (paperMap st').*1 ↔ i ∈ (paperMap st).*1 ∨ i ∈ Paper.id <$> l.
Proof.
  revert st. induction l as [|n l IH]; intros st; simpl.
  - split_and!; [lia|lia|lia|]. intros i. split; [by left|].
    intros [?|?%elem_of_nil]; done.
  - destruct (IH (mergeStep Date st n)) as (H1 & H2 & H3 & H4).
    assert (Hstep :
      (length (paperMap (mergeStep Date st n)) + st_added st
         = length (paperMap st) + st_added (mergeStep Date st n))%nat ∧
      (st_added st ≤ st_added (mergeStep Date st n))%nat ∧
      (st_added (mergeStep Date st n) + st_updated (mergeStep Date st n)
         ≤ st_added st + st_updated st + 1)%nat ∧
      ∀ i, i ∈ (paperMap (mergeStep Date st n)).*1 ↔
           i ∈ (paperMap st).*1 ∨ i = Paper.id n).
    { unfold mergeStep. destruct (map_get (Paper.id n) (paperMap st)) as [e|] eqn:Hget.
      - apply map_get_Some_key in Hget as Hkey.
        destruct (Js.date_gt _ _); simpl.
        + rewrite map_set_length_present by done. split_and!; [lia|lia|lia|].
          intros i. rewrite map_set_keys_elem. split; [tauto|]. intros [?| ->]; tauto.
        + split_and!; [lia|lia|lia|]. intros i. split; [tauto|]. by intros [?| ->].
      - simpl. apply map_get_None in Hget as Hfresh. rewrite map_set_fresh by done.
        rewrite length_app. simpl. split_and!; [lia|lia|lia|].
        intros i. rewrite fmap_app, elem_of_app. simpl. by rewrite list_elem_of_singleton. }
    destruct Hstep as (S1 & S2 & S3 & S4). split_and!; [lia|lia|lia|].
    intros i. rewrite H4, S4, elem_of_cons. tauto.
Qed.

Lemma initialMap_keys existing i :
  i ∈ (initialMap existing).*1 ↔ i ∈ Paper.id <$> existing.
Proof.
  unfold initialMap.
  assert (Hgen : ∀ l m, i ∈ (foldl (λ m paper, map_set (Paper.id paper) paper m) m l).*1 ↔
                        i ∈ m.*1 ∨ i ∈ Paper.id <$> l).
  { induction l as [|p l IH]; intros m; simpl.
    - split; [by left|]. intros [?|?%elem_of_nil]; done.
    - rewrite IH, map_set_keys_elem, elem_of_cons. tauto. }
  rewrite Hgen. simpl. split; [|by right]. intros [?%elem_of_nil|?]; done.
Qed.

Lemma initialMap_length existing :
  length (initialMap existing) = length (remove_dups (Paper.id <$> existing)).
Proof.
  rewrite <- (length_fmap fst). apply Permutation_length, NoDup_Permutation.
  - apply initialMap_wf.
  - apply NoDup_remove_dups.
  - intros i. by rewrite initialMap_keys, elem_of_remove_dups.
Qed.

(** X3. A merge loses no id: the merged sequence holds exactly the ids
    of the existing sequence and of the batch, each once.  Its length
    is the number of distinct existing ids plus [added], and [added]
    and [updated] together never exceed the size of the batch. *)
Theorem mergePapers_accounts (existing incoming : list Paper.t) :
  let result := mergePapers Date existing incoming in
  (∀ i, i ∈ Paper.id <$> merged result ↔
        i ∈ Paper.id <$> existing ∨ i ∈ Paper.id <$> incoming) ∧
  NoDup (Paper.id <$> merged result) ∧
  length (merged result) =
    (length (remove_dups (Paper.id <$> existing)) + added result)%nat ∧
  (added result + updated result ≤ length incoming)%nat.
Proof.
  cbv zeta.
  destruct (mergeLoop_accounts (mkMergeState (initialMap existing) 0 0) incoming)
    as (H1 & H2 & H3 & H4).
  destruct (mergePapers_wf Date existing incoming) as [Hk Hnd].
  assert (Hids : Paper.id <$> merged (mergePapers Date existing incoming) =
                 (paperMap (foldl (mergeStep Date)
                    (mkMergeState (initialMap existing) 0 0) incoming)).*1).
  { unfold mergePapers, map_values. simpl. rewrite <- list_fmap_compose.
    symmetry. apply Forall_fmap_ext_1. eapply Forall_impl; [exact Hk|]. by intros [k v]. }
  split_and!.
  - intros i. rewrite Hids, H4. simpl. by rewrite initialMap_keys.
  - apply mergePapers_ids_NoDup.
  - unfold mergePapers, map_values. simpl in *. rewrite length_fmap.
    rewrite <- initialMap_length. lia.
  - unfold mergePapers. simpl in *. lia.
Qed.

Lemma initialMap_get existing e :
  NoDup (Paper.id <$> existing) → e ∈ existing →
  map_get (Paper.id e) (initialMap existing) = Some e.
Proof.
  intros Hnd He. rewrite initialMap_distinct by done. apply map_get_elem.
  - by rewrite <- list_fmap_compose.
  - apply list_elem_of_fmap. by exists e.
Qed.

Lemma merged_of_map_get existing incoming k r :
  map_get k (paperMap (foldl (mergeStep Date)
                         (mkMergeState (initialMap existing) 0 0) incoming)) = Some r →
  r ∈ merged (mergePapers Date existing incoming).
Proof.
  intros Hget%map_get_Some_elem. unfold mergePapers, map_values. simpl.
  apply list_elem_of_fmap. by exists (k, r).
Qed.

Lemma mergeLoop_keeps_stale e st l :
  map_get (Paper.id e) (paperMap st) = Some e →
  (∀ n, n ∈ l → Paper.id n = Paper.id e →
        Js.date_gt (revisionDate Date n) (revisionDate Date e) = false) →
  map_get (Paper.id e) (paperMap (foldl (mergeStep Date) st l)) = Some e.
Proof.
  revert st. induction l as [|n l IH]; intros st Hget Hl; simpl; [done|].
  apply IH; [|intros x Hx; by apply Hl, list_elem_of_further].
  unfold mergeStep. destruct (decide (Paper.id n = Paper.id e)) as [Heq|Hne].
  - rewrite Heq, Hget. by rewrite (Hl n (list_elem_of_here _ _) Heq).
  - destruct (map_get (Paper.id n) (paperMap st)) as [x|];
      [destruct (Js.date_gt (revisionDate Date n) _)|]; simpl;
      rewrite ?map_get_set_ne by done; done.
Qed.

(** X4. A stored record is kept as it is when no record of the batch
    with its id is strictly newer: a revision with the same date, an
    older one or one whose date does not parse never replaces it.  In
    particular a stored record whose own date does not parse is never
    replaced, and a batch none of whose dates parses replaces nothing. *)
Theorem mergePapers_keeps_not_older (existing incoming : list Paper.t) (e : Paper.t) :
  NoDup (Paper.id <$> existing) →
  e ∈ existing →
  ((∀ n, n ∈ incoming → Paper.id n = Paper.id e →
         Js.date_gt (revisionDate Date n) (revisionDate Date e) = false) →
   e ∈ merged (mergePapers Date existing incoming)) ∧
  (revisionDate Date e = None → e ∈ merged (mergePapers Date existing incoming)) ∧
  ((∀ n, n ∈ incoming → revisionDate Date n = None) →
   e ∈ merged (mergePapers Date existing incoming)).
Proof.
  intros Hnd He.
  assert (Hkeep : (∀ n, n ∈ incoming → Paper.id n = Paper.id e →
            Js.date_gt (revisionDate Date n) (revisionDate Date e) = false) →
          e ∈ merged (mergePapers Date existing incoming)).
  { intros Hstale. apply (merged_of_map_get _ _ (Paper.id e)).
    apply mergeLoop_keeps_stale; [|done]. simpl. by apply initialMap_get. }
  split_and!; [done| |].
  - intros Hnone. apply Hkeep. intros n _ _. rewrite Hnone.
    by destruct (revisionDate Date n).
  - intros Hnone. apply Hkeep. intros n Hn _. by rewrite (Hnone n Hn).
Qed.

Lemma mergeStep_keeps_curation e st n :
  curationKept Date e (paperMap st) →
  curationKept Date e (paperMap (mergeStep Date st n)).
Proof.
  intros (r & Hget & Hdate & Hman & Hcat). unfold mergeStep, curationKept.
  destruct (decide (Paper.id n = Paper.id e)) as [Heq|Hne].
  - rewrite Heq, Hget.
    destruct (Js.date_gt (revisionDate Date n) (revisionDate Date r)) eqn:Hgt; simpl.
    + exists (replacement n r). rewrite <- Heq, map_get_set_eq. split_and!; [done| | |].
      * rewrite replacement_revisionDate. exact (date_gt_chain _ _ _ Hdate Hgt).
      * intros mt Hmt.
        change (Some (Js.or_default (optTagsManual r) []) = Some mt).
        by rewrite (Hman mt Hmt).
      * intros c Hc. simpl. by rewrite (Hcat c Hc).
    + by exists r.
  - destruct (map_get (Paper.id n) (paperMap st)) as [x|];
      [destruct (Js.date_gt (revisionDate Date n) _)|]; simpl;
      exists r; rewrite ?map_get_set_ne by done; done.
Qed.

(** X5. Whatever the batch, repeated ids included, the record the merge
    keeps for the id of a stored record [e] carries the manual tags and
    the categories array of [e], and its revision date is not older
    than that of [e]. *)
Theorem mergePapers_curation_survives (existing incoming : list Paper.t) (e : Paper.t) :
  NoDup (Paper.id <$> existing) →
  e ∈ existing →
  ∃ r, r ∈ merged (mergePapers Date existing incoming) ∧
       Paper.id r = Paper.id e ∧
       Js.date_gt (revisionDate Date e) (revisionDate Date r) = false ∧
       (∀ mt, optTagsManual e = Some mt → optTagsManual r = Some mt) ∧
       (∀ c, Paper.categories e = Some c → Paper.categories r = Some c).
Proof.
  intros Hnd He.
  assert (Hloop : ∀ l st, curationKept Date e (paperMap st) →
                          curationKept Date e (paperMap (foldl (mergeStep Date) st l))).
  { induction l as [|n l IH]; intros st Hst; simpl; [done|].
    by apply IH, mergeStep_keeps_curation. }
  destruct (Hloop incoming (mkMergeState (initialMap existing) 0 0))
    as (r & Hget & Hdate & Hman & Hcat).
  { exists e. simpl. rewrite initialMap_get by done.
    split_and!; [done|apply date_gt_irrefl|done|done]. }
  exists r. split_and!; [by eapply merged_of_map_get| |done|done|done].
  apply map_get_Some_elem in Hget.
  destruct (mergePapers_wf Date existing incoming) as [Hk _].
  unfold keyed in Hk. rewrite Forall_forall in Hk. apply (Hk _ Hget).
Qed.

Lemma mergePapers_into_empty incoming :
  NoDup (Paper.id <$> incoming) →
  mergePapers Date [] incoming = mkMerge incoming (length incoming) 0.
Proof.
  intros Hnd.
  assert (Hm : merged (mergePapers Date [] incoming) = incoming).
  { rewrite mergePapers_shape; [|constructor|done]. simpl.
    apply filter_all. intros q _. apply not_elem_of_nil. }
  destruct (mergeLoop_accounts (mkMergeState (initialMap []) 0 0) incoming)
    as (H1 & _ & H3 & _).
  unfold mergePapers in *.
  set (st' := foldl (mergeStep Date) (mkMergeState (initialMap []) 0 0) incoming) in *.
  cbn [merged paperMap st_added st_updated] in *.
  assert (Hlen : length (paperMap st') = length incoming).
  { pose proof Hm as Hm0. apply (f_equal length) in Hm. unfold map_values in Hm. by rewrite length_fmap in Hm. }
  change (length (initialMap [])) with 0%nat in H1.
  assert (Hm' : map_values (paperMap st') = incoming) by exact Hm.
  rewrite Hm'. f_equal; lia.
Qed.

Lemma mergePapers_nothing existing :
  NoDup (Paper.id <$> existing) →
  mergePapers Date existing [] = mkMerge existing 0 0.
Proof.
  intros Hnd. unfold mergePapers. simpl. f_equal.
  rewrite initialMap_distinct by done. unfold map_values.
  rewrite <- list_fmap_compose. apply list_fmap_id.
Qed.

(** X6. The empty cases of the merge, for sequences with
    pairwise-distinct ids: merging a batch into an empty store returns
    the batch itself with every record counted as added, and merging an
    empty batch returns the store itself with nothing counted. *)
Theorem mergePapers_empty_sides (papers : list Paper.t) :
  NoDup (Paper.id <$> papers) →
  mergePapers Date [] papers = mkMerge papers (length papers) 0 ∧
  mergePapers Date papers [] = mkMerge papers 0 0.
Proof. intros Hnd. split; [by apply mergePapers_into_empty|by apply mergePapers_nothing]. Qed.

End MergeAccounts.

Lemma mergePapers_keeps_not_older_witness :
  Deduplicator.paperX_curated ∈
    Deduplicator.merged
      (Deduplicator.mergePapers IsoDate.value
         [Deduplicator.paperX_curated; Deduplicator.paperY]
         [Deduplicator.paperX_uncategorized]).
Proof.
  apply (proj1 (mergePapers_keeps_not_older IsoDate.value
                  [Deduplicator.paperX_curated; Deduplicator.paperY]
                  [Deduplicator.paperX_uncategorized] Deduplicator.paperX_curated
                  ltac:(refine (bool_decide_unpack _ _); vm_compute; exact I)
                  ltac:(apply list_elem_of_here))).
  intros n Hn _. apply list_elem_of_singleton in Hn as ->. vm_compute. reflexivity.
Defined.

Lemma mergePapers_curation_survives_witness :
  ∃ r, r ∈ Deduplicator.merged
             (Deduplicator.mergePapers IsoDate.value
                [Deduplicator.paperX_curated; Deduplicator.paperY]
                [Deduplicator.paperX_revised; Deduplicator.paperX_uncategorized;
                 Deduplicator.paperX_revised]) ∧
       Paper.id r = "2401.12345" ∧
       Deduplicator.optTagsManual r = Some ["agents"] ∧
       Paper.categories r = Some ["agents"].
Proof.
  destruct (mergePapers_curation_survives IsoDate.value
              [Deduplicator.paperX_curated; Deduplicator.paperY]
              [Deduplicator.paperX_revised; Deduplicator.paperX_uncategorized;
               Deduplicator.paperX_revised]
              Deduplicator.paperX_curated)
    as (r & Hin & Hid & _ & Hman & Hcat).
  - refine (bool_decide_unpack _ _). vm_compute. exact I.
  - apply list_elem_of_here.
  - exists r. split; [exact Hin|]. split; [exact Hid|].
    split; [by apply Hman|by apply Hcat].
Defined.

Lemma mergePapers_empty_sides_witness :
  Deduplicator.mergePapers IsoDate.value [] [Fetcher.paperA; Fetcher.paperB]
  = Deduplicator.mkMerge [Fetcher.paperA; Fetcher.paperB] 2 0.
Proof.
  apply (mergePapers_empty_sides IsoDate.value [Fetcher.paperA; Fetcher.paperB]).
  refine (bool_decide_unpack _ _). vm_compute. exact I.
Defined.

(** ** categorizePaper and categorizePapers: edge cases *)

Section CategorizerMore.
Import Categorizer.

(** X7. The ids [categorizePaper] returns are ids of the category
    definitions, at most as many as there are definitions; when the
    definitions have pairwise-distinct ids, no id is returned twice. *)
Theorem categorizePaper_ids (paper : Paper.t) (categories : list Category.t) :
  (∀ cid, cid ∈ categorizePaper paper categories → cid ∈ Category.id <$> categories) ∧
  (length (categorizePaper paper categories) ≤ length categories)%nat ∧
  (NoDup (Category.id <$> categories) → NoDup (categorizePaper paper categories)).
Proof.
  rewrite categorizePaper_sorted_filter.
  set (cmp := λ a b, Z.of_nat (keywordHits paper b) - Z.of_nat (keywordHits paper a)).
  set (kept := filter (λ c, (1 ≤ keywordHits paper c)%nat) categories).
  assert (Hsub : kept `sublist_of` categories) by apply sublist_filter.
  split_and!.
  - intros cid (c & -> & Hc)%list_elem_of_fmap. apply sort_elem_of in Hc.
    apply list_elem_of_fmap. exists c. split; [done|]. by eapply elem_of_sublist.
  - rewrite length_fmap, sort_length. by apply sublist_length.
  - intros Hnd. rewrite (sort_perm cmp kept).
    eapply sublist_NoDup; [exact Hnd|]. by apply fmap_sublist.
Qed.

(** X8. A category that lists the empty string among its keywords is
    assigned to every paper, whatever its text: the empty string occurs
    in every text. *)
Theorem categorizePaper_empty_keyword
    (paper : Paper.t) (categories : list Category.t) (c : Category.t) :
  c ∈ categories → "" ∈ Category.keywords c →
  Category.id c ∈ categorizePaper paper categories.
Proof.
  intros Hc Hkw. rewrite categorizePaper_sorted_filter.
  apply list_elem_of_fmap. exists c. split; [done|].
  apply sort_elem_of, list_elem_of_filter. split; [|done].
  apply hits_positive. exists "". split; [done|].
  exists "", "", (rawText paper). split; [done|constructor].
Qed.

Lemma categorizePaper_text paper paper' categories :
  Paper.title paper = Paper.title paper' →
  Paper.abstract paper = Paper.abstract paper' →
  categorizePaper paper categories = categorizePaper paper' categories.
Proof.
  intros Ht Ha. unfold categorizePaper, paperText, rawText. by rewrite Ht, Ha.
Qed.

(** X9. [categorizePapers] keeps the number, the order and the
    identity of the papers; it gives every paper the categories
    [categorizePaper] computes, both as [categories] and as
    [tags.auto], and an empty [tags.manual], whatever tags the paper
    had; categorizing its output again changes nothing. *)
Theorem categorizePapers_overwrites (papers : list Paper.t) (categories : list Category.t) :
  (Paper.id <$> categorizePapers papers categories) = (Paper.id <$> papers) ∧
  Forall2 (λ p r,
             Paper.categories r = Some (categorizePaper p categories) ∧
             Paper.tags r = Some (Tags.mk (Some (categorizePaper p categories)) (Some [])) ∧
             Paper.title r = Paper.title p ∧ Paper.abstract r = Paper.abstract p ∧
             Paper.publishedDate r = Paper.publishedDate p ∧
             Paper.updatedDate r = Paper.updatedDate p)
          papers (categorizePapers papers categories) ∧
  categorizePapers (categorizePapers papers categories) categories
    = categorizePapers papers categories.
Proof.
  unfold categorizePapers. split_and!.
  - rewrite <- list_fmap_compose. by apply list_fmap_ext.
  - apply Forall2_fmap_r, Forall_Forall2_diag, Forall_forall. by intros p _.
  - rewrite <- list_fmap_compose. apply list_fmap_ext. intros i p _. simpl.
    f_equal; repeat f_equal; by apply categorizePaper_text.
Qed.

End CategorizerMore.

Lemma categorizePaper_empty_keyword_witness :
  "rag" ∈ Categorizer.categorizePaper Fetcher.paperA
            [Category.mk "agents" "Agents" ["agent"] None;
             Category.mk "rag" "RAG" ["retrieval"; ""] None].
Proof.
  apply (categorizePaper_empty_keyword Fetcher.paperA
           [Category.mk "agents" "Agents" ["agent"] None;
            Category.mk "rag" "RAG" ["retrieval"; ""] None]
           (Category.mk "rag" "RAG" ["retrieval"; ""] None)).
  - apply list_elem_of_further, list_elem_of_here.
  - apply list_elem_of_further, list_elem_of_here.
Defined.

(** ** fetchPapersForQuery: requests, bounds and the regular case *)

Section FetcherMore.
Import Fetcher.

Variable upstream : nat → Request.t → Response.
Variable isoNow : nat → string.
Variable searchQuery : string.
Variable options : Options.t.

Abbreviation loop'' := (loop upstream isoNow searchQuery options).
Abbreviation request'' := (request isoNow searchQuery options).
Abbreviation Paginated'' := (Paginated upstream isoNow searchQuery options).

Lemma loop_fuel_mono fuel fuel' st r :
  loop'' fuel st = Some r → (fuel ≤ fuel')%nat → loop'' fuel' st = Some r.
Proof.
  revert fuel' st. induction fuel as [|fuel IH]; intros fuel' st Hr Hle.
  - simpl in Hr. destruct (loopGuard options st) eqn:Hg; [done|].
    by rewrite loop_done.
  - destruct fuel' as [|fuel']; [lia|]. simpl in *.
    destruct (loopGuard options st); [|done].
    destruct (iteration _ _ _ _ st); [|done|done].
    apply IH; [done|lia].
Qed.

Lemma loop_step fuel st :
  loop'' (S fuel) st =
  if loopGuard options st then
    match iteration upstream isoNow searchQuery options st with
    | Continue st' => loop'' fuel st'
    | Break st' => Some (inr (allPapers st'), calls st')
    | Throw e n => Some (inl e, n)
    end
  else Some (inr (allPapers st), calls st).
Proof. done. Qed.

Lemma guard_initial calls0 :
  Options.maxResults options ≠ Some 0%nat →
  loopGuard options (mkLoop [] 0 true calls0) = true.
Proof.
  intros Hmax. unfold loopGuard, reachedMax.
  destruct (Options.maxResults options) as [[|m]|]; [done| |done].
  apply andb_true_iff. split; [done|].
  apply negb_true_iff, bool_decide_eq_false. simpl. lia.
Qed.

(** X10. With [maxResults] 0 the function returns the empty array
    without making a request.  Otherwise, when the first page comes
    back without entries, it returns the empty array after that one
    request. *)
Theorem fetchPapersForQuery_nothing_to_fetch (calls0 : nat) :
  (∀ fuel, Options.maxResults options = Some 0%nat →
           fetchPapersForQuery upstream isoNow searchQuery options fuel calls0
             = Some (inr [], calls0)) ∧
  (∀ fuel total,
     Options.maxResults options ≠ Some 0%nat →
     upstream calls0 (request'' (mkLoop [] 0 true calls0)) = Page (Parsed.mk [] total) →
     fetchPapersForQuery upstream isoNow searchQuery options (S fuel) calls0
       = Some (inr [], S calls0)).
Proof.
  split.
  - intros fuel Hm. unfold fetchPapersForQuery. rewrite loop_done; [done|].
    unfold loopGuard, reachedMax. by rewrite Hm.
  - intros fuel total Hm Hp. unfold fetchPapersForQuery.
    rewrite loop_step, guard_initial by done. unfold iteration.
    cbn [calls]. by rewrite Hp.
Qed.

Lemma loop_bounded m fuel st :
  Options.maxResults options = Some m →
  (m - length (allPapers st) ≤ fuel)%nat →
  ∃ r n, loop'' fuel st = Some (r, n) ∧
         (calls st ≤ n ≤ calls st + (m - length (allPapers st)))%nat.
Proof.
  intros Hm. revert st. induction fuel as [|fuel IH]; intros st Hfuel.
  - destruct (loopGuard options st) eqn:Hg.
    + exfalso. unfold loopGuard, reachedMax in Hg. rewrite Hm in Hg.
      apply andb_true_iff in Hg as [_ Hg]. apply negb_true_iff in Hg.
      apply bool_decide_eq_false in Hg. lia.
    + rewrite loop_done by done. eexists _, _. split; [done|lia].
  - simpl. destruct (loopGuard options st) eqn:Hg;
      [|eexists _, _; split; [done|lia]].
    assert (Hlt : (length (allPapers st) < m)%nat).
    { unfold loopGuard, reachedMax in Hg. rewrite Hm in Hg.
      apply andb_true_iff in Hg as [_ Hg]. apply negb_true_iff in Hg.
      apply bool_decide_eq_false in Hg. lia. }
    unfold iteration. destruct (upstream _ _) as [e|parsed].
    + case_bool_decide; [eexists _, _; split; [done|lia]|].
      rewrite loop_done by done. eexists _, _. split; [done|]. simpl. lia.
    + case_bool_decide as Hlen; [eexists _, _; split; [done|simpl; lia]|].
      destruct (IH (advance options st parsed)) as (r & n & Hr & Hn).
      { simpl. rewrite length_app. lia. }
      exists r, n. split; [done|]. simpl in Hn. rewrite length_app in Hn. lia.
Qed.

(** X11. With a finite [maxResults] of [m] the function returns
    after at most [m] requests: fuel [m] suffices, more fuel gives
    the same result, and the number of requests made lies between 0
    and [m]. *)
Theorem fetchPapersForQuery_bounded_requests (m calls0 : nat) :
  Options.maxResults options = Some m →
  ∃ r n, fetchPapersForQuery upstream isoNow searchQuery options m calls0 = Some (r, n) ∧
         (calls0 ≤ n ≤ calls0 + m)%nat ∧
         ∀ fuel, (m ≤ fuel)%nat →
                 fetchPapersForQuery upstream isoNow searchQuery options fuel calls0
                   = Some (r, n).
Proof.
  intros Hm. unfold fetchPapersForQuery.
  destruct (loop_bounded m m (mkLoop [] 0 true calls0) Hm) as (r & n & Hr & Hn);
    [simpl; lia|].
  exists r, n. simpl in Hn. split_and!; [done|lia|lia|].
  intros fuel Hfuel. by eapply loop_fuel_mono.
Qed.

Lemma loop_within_cap m fuel st papers n :
  wellBehaved upstream →
  Options.maxResults options = Some m →
  (length (allPapers st) ≤ m)%nat →
  loop'' fuel st = Some (inr papers, n) →
  (length papers ≤ m)%nat.
Proof.
  intros Hwb Hm. revert st. induction fuel as [|fuel IH]; intros st Hinv Hr.
  - simpl in Hr. destruct (loopGuard options st); [done|]. by simplify_eq.
  - simpl in Hr. destruct (loopGuard options st) eqn:Hg; [|by simplify_eq].
    unfold iteration in Hr. destruct (upstream _ _) as [e|parsed] eqn:Hp.
    + case_bool_decide; [done|]. rewrite loop_done in Hr by done. by simplify_eq.
    + case_bool_decide; [by simplify_eq|].
      apply (IH (advance options st parsed)); [|done]. simpl. rewrite length_app.
      apply Hwb in Hp. simpl in Hp. unfold resultsToFetch in Hp. rewrite Hm in Hp. lia.
Qed.

(** X12. When the service never returns more entries than a request
    asks for, the function returns at most [maxResults] records. *)
Theorem fetchPapersForQuery_respects_cap (m fuel calls0 : nat) papers n :
  wellBehaved upstream →
  Options.maxResults options = Some m →
  fetchPapersForQuery upstream isoNow searchQuery options fuel calls0 = Some (inr papers, n) →
  (length papers ≤ m)%nat.
Proof.
  intros Hwb Hm Hr. eapply loop_within_cap; [done|done| |exact Hr]. simpl. lia.
Qed.

(** X13. Every request the loop sends, after any number of pages
    fetched successfully, asks for the records from the offset that
    equals the number of records collected so far, for at least one
    and at most a hundred of them, never for records beyond
    [maxResults], and with the sort options of the caller. *)
Theorem request_window (calls0 : nat) pages st :
  Paginated'' (mkLoop [] 0 true calls0) pages st →
  loopGuard options st = true →
  Request.start (request'' st) = length (concat pages) ∧
  length (allPapers st) = length (concat pages) ∧
  (1 ≤ Request.max_results (request'' st) ≤ MAX_RESULTS_PER_REQUEST)%nat ∧
  (∀ m, Options.maxResults options = Some m →
        (Request.start (request'' st) + Request.max_results (request'' st) ≤ m)%nat) ∧
  Request.sortBy (request'' st) = Options.sortBy options ∧
  Request.sortOrder (request'' st) = Options.sortOrder options.
Proof.
  intros Hpag Hg. destruct (paginated_state _ _ _ _ _ _ _ Hpag) as (Ha & Hs & _).
  simpl in Ha, Hs. simpl. rewrite Hs, Ha.
  unfold loopGuard, reachedMax in Hg. apply andb_true_iff in Hg as [_ Hg].
  apply negb_true_iff in Hg. rewrite Ha in Hg.
  unfold resultsToFetch, MAX_RESULTS_PER_REQUEST. rewrite Ha.
  destruct (Options.maxResults options) as [m|].
  - apply bool_decide_eq_false in Hg. split_and!; [done|done|lia|lia| |done|done].
    intros m' [= <-]. lia.
  - split_and!; [done|done|lia|lia|done|done|done].
Qed.

Lemma loop_serves corpus fuel st :
  serves corpus upstream →
  allPapers st = take (start st) corpus →
  (start st ≤ length corpus)%nat →
  (∀ m, Options.maxResults options = Some m → (start st ≤ m)%nat) →
  hasMore st = true →
  (length corpus - start st < fuel)%nat →
  ∃ n, loop'' fuel st = Some (inr (capped options corpus), n) ∧
       (calls st ≤ n ≤ calls st + (length (capped options corpus) - start st) / 100 + 1)%nat.
Proof.
  intros Hserve. revert st. induction fuel as [|fuel IH]; intros [ap k hm c];
    cbn [allPapers start hasMore calls]; intros -> Hk Hcap -> Hfuel; [lia|].
  rewrite loop_step.
  assert (Hlen : length (take k corpus) = k) by (rewrite length_take; lia).
  destruct (loopGuard options _) eqn:Hg.
  2: { unfold loopGuard, reachedMax in Hg. simpl in Hg. rewrite Hlen in Hg. unfold capped.
       destruct (Options.maxResults options) as [m|]; [|done].
       apply negb_false_iff, bool_decide_eq_true in Hg. specialize (Hcap m eq_refl).
       assert (k = m) as -> by lia. simpl. exists c. split; [done|]. lia. }
  unfold iteration. cbn [calls].
  destruct (Hserve c (request'' (mkLoop (take k corpus) k true c))) as (total & Hp & Htot).
  rewrite Hp. cbn [Parsed.entries]. unfold window. cbn [request Request.max_results Request.start start].
  set (r := resultsToFetch options _).
  assert (Hr : match Options.maxResults options with
               | Some m => (k < m)%nat ∧ r = (100 `min` (m - k))%nat
               | None => r = 100%nat
               end).
  { subst r. unfold loopGuard, reachedMax in Hg. unfold resultsToFetch, MAX_RESULTS_PER_REQUEST.
    cbn [allPapers hasMore] in *. rewrite Hlen in *.
    destruct (Options.maxResults options) as [m|]; [|done].
    apply negb_true_iff, bool_decide_eq_false in Hg. lia. }
  assert (Hwin : length (take r (drop k corpus)) = (r `min` (length corpus - k))%nat)
    by by rewrite length_take, length_drop.
  assert (Hlen' : length (take (k + r) corpus) = ((k + r) `min` length corpus)%nat)
    by apply length_take.
  case_bool_decide as Hempty.
  { rewrite Hwin in Hempty. exists (S c). cbn [allPapers calls]. split; [|lia].
    assert (k = length corpus) as ->
      by (destruct (Options.maxResults options); lia).
    rewrite firstn_all. do 3 f_equal. unfold capped.
    destruct (Options.maxResults options) as [m|]; [|done].
    by rewrite take_ge by lia. }
  unfold advance. cbn [allPapers start hasMore calls Parsed.entries Parsed.totalResults].
  fold r. rewrite take_take_drop, Hwin, Hlen'.
  destruct (exhausted _ total || bool_decide _) eqn:Hstop.
  - assert (Hall : (length corpus ≤ k + r)%nat).
    { apply orb_true_iff in Hstop as [Hex|Hsh].
      - unfold exhausted in Hex. destruct total as [t|]; [|done].
        apply bool_decide_eq_true in Hex. specialize (Htot t eq_refl). lia.
      - apply bool_decide_eq_true in Hsh. lia. }
    rewrite loop_done by (unfold loopGuard; cbn [hasMore]; by destruct (reachedMax _ _)).
    exists (S c). cbn [allPapers calls]. split; [|lia].
    rewrite take_ge by lia. do 3 f_equal. unfold capped.
    destruct (Options.maxResults options) as [m|]; [|done].
    by rewrite take_ge by lia.
  - apply orb_false_iff in Hstop as [_ Hsh]. apply bool_decide_eq_false in Hsh.
    assert (He : (r `min` (length corpus - k) = r)%nat) by lia. rewrite He.
    destruct (reachedMax _ _) eqn:Hmax.
    + rewrite loop_done by done.
      exists (S c). cbn [allPapers calls]. split; [|lia].
      unfold reachedMax in Hmax. unfold capped.
      destruct (Options.maxResults options) as [m|]; [|done].
      apply bool_decide_eq_true in Hmax. do 3 f_equal. f_equal. lia.
    + destruct (IH (mkLoop (take (k + r) corpus) (k + r) true (S c))) as (n & Hn & Hb);
        cbn [allPapers start hasMore calls]; [done|lia| |done|lia|].
      { intros m Hm. rewrite Hm in Hr. lia. }
      exists n. split; [done|]. cbn [allPapers start hasMore calls] in Hb.
      assert (Hfull : r = 100%nat ∧ (k + 100 ≤ length (capped options corpus))%nat).
      { unfold reachedMax in Hmax. unfold capped.
        destruct (Options.maxResults options) as [m|].
        - apply bool_decide_eq_false in Hmax. rewrite length_take. lia.
        - lia. }
      destruct Hfull as [-> Hfull].
      replace (length (capped options corpus) - k)%nat
        with (length (capped options corpus) - (k + 100) + 1 * 100)%nat by lia.
      rewrite Nat.div_add by lia. lia.
Qed.

(** X14. Against a service that holds one result list and serves the
    window each request addresses, the function returns the first
    [maxResults] records of that list (all of them when [maxResults]
    is [Infinity]), in their order, and makes at most one request
    more than a hundredth of their number. *)
Theorem fetchPapersForQuery_regular (corpus : list Paper.t) (fuel calls0 : nat) :
  serves corpus upstream →
  ∃ n, fetchPapersForQuery upstream isoNow searchQuery options (S (length corpus) + fuel) calls0
         = Some (inr (capped options corpus), n) ∧
       (calls0 ≤ n ≤ calls0 + length (capped options corpus) / 100 + 1)%nat.
Proof.
  intros Hserve. unfold fetchPapersForQuery.
  destruct (loop_serves corpus (S (length corpus) + fuel) (mkLoop [] 0 true calls0))
    as (n & Hn & Hb); cbn [allPapers start hasMore calls]; [done|done|lia|lia|done|lia|].
  exists n. split; [done|]. cbn [start calls] in Hb. by rewrite Nat.sub_0_r in Hb.
Qed.

Lemma endless_run n :
  endless upstream → Options.maxResults options = None →
  ∀ st, hasMore st = true →
  ∃ pages st', length pages = n ∧ Paginated'' st pages st' ∧ hasMore st' = true.
Proof.
  intros Hend Hmax. induction n as [|n IH]; intros st Hh.
  - exists [], st. split_and!; [done|constructor|done].
  - destruct (Hend (calls st) (request'' st)) as (entries & Hp & Hl).
    assert (Hr : resultsToFetch options st = 100%nat)
      by (unfold resultsToFetch; by rewrite Hmax).
    cbn [request Request.max_results] in Hl. rewrite Hr in Hl.
    destruct (IH (advance options st (Parsed.mk entries None))) as (pages & st' & H1 & H2 & H3).
    { unfold advance, reachedMax, exhausted. cbn. rewrite Hmax, Hr, Hl.
      by rewrite bool_decide_eq_false_2 by lia. }
    exists (entries :: pages), st'. split_and!; [simpl; by rewrite H1| |done].
    apply (paginated_cons _ _ _ _ st (Parsed.mk entries None)); [|done| |done].
    + unfold loopGuard, reachedMax. by rewrite Hh, Hmax.
    + cbn. intros ->. simpl in Hl. lia.
Qed.

(** X15. The loop has no bound of its own: with the default
    [maxResults] of [Infinity] and a service whose every page is full
    and reports no usable total, the loop goes through any number of
    pages, sends a further request after each, and does not return
    whatever the fuel. *)
Theorem fetchPapersForQuery_unbounded (calls0 n : nat) :
  endless upstream → Options.maxResults options = None →
  (∃ pages st, length pages = n ∧
               Paginated'' (mkLoop [] 0 true calls0) pages st ∧
               loopGuard options st = true ∧
               calls st = (calls0 + n)%nat ∧
               length (allPapers st) = (n * MAX_RESULTS_PER_REQUEST)%nat) ∧
  fetchPapersForQuery upstream isoNow searchQuery options n calls0 = None.
Proof.
  intros Hend Hmax.
  destruct (endless_run n Hend Hmax (mkLoop [] 0 true calls0) eq_refl)
    as (pages & st & Hl & Hpag & Hh).
  assert (Hg : loopGuard options st = true)
    by (unfold loopGuard, reachedMax; by rewrite Hh, Hmax).
  split.
  - exists pages, st. split_and!; [done|done|done| |].
    + destruct (paginated_state _ _ _ _ _ _ _ Hpag) as (_ & _ & Hc). simpl in Hc. lia.
    + clear Hg Hh. revert Hl. generalize n. clear n.
      assert (Hgen : ∀ st0 pages st, Paginated'' st0 pages st →
                length (allPapers st) =
                (length (allPapers st0) + length pages * MAX_RESULTS_PER_REQUEST)%nat).
      { clear pages st Hpag. induction 1 as [|st0 parsed pages st _ Hp _ _ IH]; [simpl; lia|].
        rewrite IH. cbn [advance allPapers length]. rewrite length_app.
        destruct (Hend (calls st0) (request'' st0)) as (entries & Hp' & Hlen).
        rewrite Hp in Hp'. injection Hp' as ->. cbn [Parsed.entries].
        cbn [request Request.max_results] in Hlen. unfold resultsToFetch in Hlen.
        rewrite Hmax in Hlen. rewrite Hlen. lia. }
      intros n <-. by rewrite (Hgen _ _ _ Hpag).
  - unfold fetchPapersForQuery.
    rewrite <- (Nat.add_0_r n), <- Hl, (loop_paginated _ _ _ _ _ _ _ _ Hpag).
    simpl. by rewrite Hg.
Qed.

End FetcherMore.

Lemma fetchPapersForQuery_nothing_to_fetch_witness :
  Fetcher.fetchPapersForQuery Fetcher.alwaysFails Fetcher.exampleClock "abs:agent"
    (Fetcher.Options.mk (Some 0%nat) None None "submittedDate" "descending") 0 7
  = Some (inr [], 7%nat) ∧
  Fetcher.fetchPapersForQuery (Fetcher.serve []) Fetcher.exampleClock "abs:agent"
    Fetcher.Options.default 1 7
  = Some (inr [], 8%nat).
Proof.
  split.
  - apply (proj1 (fetchPapersForQuery_nothing_to_fetch
                    Fetcher.alwaysFails Fetcher.exampleClock "abs:agent"
                    (Fetcher.Options.mk (Some 0%nat) None None "submittedDate" "descending")
                    7)).
    reflexivity.
  - apply (proj2 (fetchPapersForQuery_nothing_to_fetch
                    (Fetcher.serve []) Fetcher.exampleClock "abs:agent"
                    Fetcher.Options.default 7) 0%nat (Some 0)).
    + discriminate.
    + reflexivity.
Defined.

Lemma fetchPapersForQuery_bounded_requests_witness :
  ∃ r n,
    Fetcher.fetchPapersForQuery Fetcher.secondPageFails Fetcher.exampleClock "abs:agent"
      (Fetcher.Options.mk (Some 150%nat) None None "submittedDate" "descending") 150 0
    = Some (r, n) ∧
    (0 ≤ n ≤ 0 + 150)%nat ∧
    ∀ fuel, (150 ≤ fuel)%nat →
      Fetcher.fetchPapersForQuery Fetcher.secondPageFails Fetcher.exampleClock "abs:agent"
        (Fetcher.Options.mk (Some 150%nat) None None "submittedDate" "descending") fuel 0
      = Some (r, n).
Proof.
  apply (fetchPapersForQuery_bounded_requests
           Fetcher.secondPageFails Fetcher.exampleClock "abs:agent"
           (Fetcher.Options.mk (Some 150%nat) None None "submittedDate" "descending")
           150 0).
  reflexivity.
Defined.

Lemma serve_wellBehaved corpus : Fetcher.wellBehaved (Fetcher.serve corpus).
Proof.
  intros n req parsed [= <-]. simpl. unfold Fetcher.window.
  rewrite length_take. lia.
Qed.

Lemma serve_serves corpus : Fetcher.serves corpus (Fetcher.serve corpus).
Proof.
  intros n req. exists (Some (Z.of_nat (length corpus))). split; [done|].
  intros t [= <-]. lia.
Qed.

Lemma fetchPapersForQuery_respects_cap_witness :
  (length [Fetcher.paperA; Fetcher.paperB] ≤ 2)%nat.
Proof.
  apply (fetchPapersForQuery_respects_cap
           (Fetcher.serve [Fetcher.paperA; Fetcher.paperB; Fetcher.paperC])
           Fetcher.exampleClock "abs:agent"
           (Fetcher.Options.mk (Some 2%nat) None None "submittedDate" "descending")
           2 2 0 [Fetcher.paperA; Fetcher.paperB] 1).
  - apply serve_wellBehaved.
  - reflexivity.
  - vm_compute. reflexivity.
Defined.

Lemma request_window_witness :
  Fetcher.Request.start
    (Fetcher.request Fetcher.exampleClock "abs:agent"
       (Fetcher.Options.mk (Some 150%nat) None None "submittedDate" "descending")
       (Fetcher.mkLoop Fetcher.fullPage 100 true 1)) = 100%nat ∧
  Fetcher.Request.max_results
    (Fetcher.request Fetcher.exampleClock "abs:agent"
       (Fetcher.Options.mk (Some 150%nat) None None "submittedDate" "descending")
       (Fetcher.mkLoop Fetcher.fullPage 100 true 1)) = 50%nat.
Proof.
  destruct (request_window
              Fetcher.secondPageFails Fetcher.exampleClock "abs:agent"
              (Fetcher.Options.mk (Some 150%nat) None None "submittedDate" "descending")
              0 [Fetcher.fullPage] (Fetcher.mkLoop Fetcher.fullPage 100 true 1))
    as (Hs & _ & _ & _).
  - eapply (Fetcher.paginated_cons _ _ _ _ _ (Fetcher.Parsed.mk Fetcher.fullPage (Some 250)));
      [reflexivity|reflexivity|discriminate|].
    vm_compute. apply Fetcher.paginated_nil.
  - reflexivity.
  - split; [rewrite Hs|]; vm_compute; reflexivity.
Defined.

Lemma fetchPapersForQuery_regular_witness :
  ∃ n,
    Fetcher.fetchPapersForQuery
      (Fetcher.serve [Fetcher.paperA; Fetcher.paperB; Fetcher.paperC])
      Fetcher.exampleClock "abs:agent"
      (Fetcher.Options.mk (Some 2%nat) None None "submittedDate" "descending") 4 0
    = Some (inr [Fetcher.paperA; Fetcher.paperB], n) ∧ (0 ≤ n ≤ 1)%nat.
Proof.
  destruct (fetchPapersForQuery_regular
              (Fetcher.serve [Fetcher.paperA; Fetcher.paperB; Fetcher.paperC])
              Fetcher.exampleClock "abs:agent"
              (Fetcher.Options.mk (Some 2%nat) None None "submittedDate" "descending")
              [Fetcher.paperA; Fetcher.paperB; Fetcher.paperC] 0 0) as (n & Hn & Hb).
  - apply serve_serves.
  - exists n. split; [exact Hn|]. vm_compute in Hb. exact Hb.
Defined.

Lemma alwaysFull_endless : Fetcher.endless Fetcher.alwaysFull.
Proof.
  intros n req. exists (replicate (Fetcher.Request.max_results req) Fetcher.paperA).
  split; [done|]. apply length_replicate.
Qed.

Lemma fetchPapersForQuery_unbounded_witness :
  Fetcher.fetchPapersForQuery Fetcher.alwaysFull Fetcher.exampleClock "abs:agent"
    (Fetcher.Options.mk None None None "submittedDate" "descending") 3 0 = None.
Proof.
  apply (fetchPapersForQuery_unbounded
           Fetcher.alwaysFull Fetcher.exampleClock "abs:agent"
           (Fetcher.Options.mk None None None "submittedDate" "descending") 0 3).
  - apply alwaysFull_endless.
  - reflexivity.
Defined.

(** ** fetchPapersMultiQuery: totality and bounds *)

Section MultiQueryMore.
Import Fetcher.

Variable upstream : nat → Request.t → Response.
Variable isoNow : nat → string.
Variable options : Options.t.

Lemma successes_cons_inl e rs : successes (inl e :: rs) = successes rs.
Proof. done. Qed.

Lemma successes_cons_inr papers rs : successes (inr papers :: rs) = papers ++ successes rs.
Proof. done. Qed.

Lemma outcomes_exist m queries calls0 :
  Options.maxResults options = Some m →
  ∃ rs n, Outcomes upstream isoNow m options calls0 queries rs n ∧
          (calls0 ≤ n ≤ calls0 + m * length queries)%nat ∧
          (wellBehaved upstream → (length (successes rs) ≤ m * length queries)%nat).
Proof.
  intros Hm. revert calls0. induction queries as [|q queries IH]; intros calls0.
  - exists [], calls0. split_and!; [constructor|lia|lia|]. intros _. simpl. lia.
  - destruct (loop_bounded upstream isoNow (Query.query q) options m m
                (mkLoop [] 0 true calls0) Hm) as (r & n1 & Hr & Hn1); [simpl; lia|].
    destruct (IH n1) as (rs & n & Hout & Hn & Hlen).
    exists (r :: rs), n. simpl in Hn1. split_and!.
    + by eapply outcomes_cons.
    + lia.
    + simpl. lia.
    + intros Hwb. specialize (Hlen Hwb). destruct r as [e|papers].
      * rewrite successes_cons_inl. simpl. lia.
      * rewrite successes_cons_inr, length_app.
        pose proof (loop_within_cap upstream isoNow (Query.query q) options m m
                      (mkLoop [] 0 true calls0) papers n1 Hwb Hm) as Hc.
        simpl in Hc. specialize (Hc ltac:(lia) Hr). simpl. lia.
Qed.

Lemma multiQuery_of_outcomes fuel calls0 queries rs n :
  Outcomes upstream isoNow fuel options calls0 queries rs n →
  fetchPapersMultiQuery upstream isoNow fuel queries options calls0
    = Some (firstOccurrences (successes rs), n).
Proof.
  intros Hout.
  destruct (runQueries_outcomes _ _ _ _ _ _ _ _ Hout (mkMulti [] ∅ calls0))
    as (st' & Hrun & Hc & Hp); [done| |].
  { intros i. simpl. split; [set_solver|by intros ?%elem_of_nil]. }
  unfold fetchPapersMultiQuery. rewrite Hrun. simpl. rewrite Hc, Hp. simpl.
  do 2 f_equal. apply filter_all. intros q _. apply not_elem_of_nil.
Qed.

(** X16. With a finite [maxResults] of [m], [fetchPapersMultiQuery]
    always returns, whatever the service answers: no failure of a
    query reaches its caller.  The papers returned have
    pairwise-distinct ids, at most [m] requests are made per query,
    and when the service never returns more entries than asked for,
    at most [m] papers per query are returned. *)
Theorem fetchPapersMultiQuery_total (m calls0 : nat) (queries : list Query.t) :
  Options.maxResults options = Some m →
  ∃ papers n,
    fetchPapersMultiQuery upstream isoNow m queries options calls0 = Some (papers, n) ∧
    NoDup (Paper.id <$> papers) ∧
    (calls0 ≤ n ≤ calls0 + m * length queries)%nat ∧
    (wellBehaved upstream → (length papers ≤ m * length queries)%nat).
Proof.
  intros Hm. destruct (outcomes_exist m queries calls0 Hm) as (rs & n & Hout & Hn & Hlen).
  exists (firstOccurrences (successes rs)), n. split_and!.
  - by apply multiQuery_of_outcomes.
  - apply firstOccurrences_NoDup.
  - lia.
  - lia.
  - intros Hwb. etrans; [|by apply Hlen].
    apply sublist_length, firstOccurrences_sublist.
Qed.

Lemma outcomes_all_fail fuel queries calls0 :
  Options.maxResults options ≠ Some 0%nat →
  (∀ n req, ∃ e, upstream n req = Failed e) →
  ∃ rs, Outcomes upstream isoNow (S fuel) options calls0 queries rs
          (calls0 + length queries)%nat ∧
        successes rs = [].
Proof.
  intros Hmax Hfail. revert calls0. induction queries as [|q queries IH]; intros calls0.
  - exists []. simpl. rewrite Nat.add_0_r. split; [constructor|done].
  - destruct (Hfail calls0 (request isoNow (Query.query q) options (mkLoop [] 0 true calls0)))
      as [e He].
    destruct (IH (S calls0)) as (rs & Hout & Hs).
    exists (inl e :: rs). split; [|by rewrite successes_cons_inl].
    eapply outcomes_cons.
    + unfold fetchPapersForQuery. apply loop_first_page_fails; [|done|exact He].
      by apply guard_initial.
    + simpl. by rewrite <- Nat.add_succ_comm.
Qed.

(** X17. When every request fails, [fetchPapersMultiQuery] still
    returns: the empty array, after exactly one request per query. *)
Theorem fetchPapersMultiQuery_all_fail (fuel calls0 : nat) (queries : list Query.t) :
  Options.maxResults options ≠ Some 0%nat →
  (∀ n req, ∃ e, upstream n req = Failed e) →
  fetchPapersMultiQuery upstream isoNow (S fuel) queries options calls0
    = Some ([], (calls0 + length queries)%nat).
Proof.
  intros Hmax Hfail.
  destruct (outcomes_all_fail fuel queries calls0 Hmax Hfail) as (rs & Hout & Hs).
  rewrite (multiQuery_of_outcomes _ _ _ _ _ Hout). by rewrite Hs.
Qed.

End MultiQueryMore.

Lemma fetchPapersMultiQuery_total_witness :
  ∃ papers n,
    Fetcher.fetchPapersMultiQuery Fetcher.twoQueriesUpstream Fetcher.exampleClock 5
      Fetcher.exampleQueries
      (Fetcher.Options.mk (Some 5%nat) None None "submittedDate" "descending") 0
    = Some (papers, n) ∧
    NoDup (Paper.id <$> papers) ∧
    (0 ≤ n ≤ 0 + 5 * length Fetcher.exampleQueries)%nat ∧
    (Fetcher.wellBehaved Fetcher.twoQueriesUpstream →
     (length papers ≤ 5 * length Fetcher.exampleQueries)%nat).
Proof.
  apply (fetchPapersMultiQuery_total Fetcher.twoQueriesUpstream Fetcher.exampleClock
           (Fetcher.Options.mk (Some 5%nat) None None "submittedDate" "descending")
           5 0 Fetcher.exampleQueries).
  reflexivity.
Defined.

Lemma fetchPapersMultiQuery_all_fail_witness :
  Fetcher.fetchPapersMultiQuery Fetcher.alwaysFails Fetcher.exampleClock 1
    Fetcher.exampleQueries Fetcher.Options.default 0
  = Some ([], 2%nat).
Proof.
  apply (fetchPapersMultiQuery_all_fail Fetcher.alwaysFails Fetcher.exampleClock
           Fetcher.Options.default 0 0 Fetcher.exampleQueries).
  - discriminate.
  - intros n req. eexists. reflexivity.
Defined.

(** ** extractArxivId: what the result is good for *)

Section ExtractMore.
Import XmlParser.

Lemma list_ascii_of_string_app (a b : string) :
  list_ascii_of_string (a +:+ b) = list_ascii_of_string a ++ list_ascii_of_string b.
Proof.
  induction a as [|c a IH]; [done|]. rewrite string_app_cons. simpl. by rewrite IH.
Qed.

Lemma string_length_of_list (l : list ascii) :
  String.length (string_of_list_ascii l) = length l.
Proof. induction l as [|c l IH]; simpl; [done|by rewrite IH]. Qed.

Lemma idAtEnd_bare pre s m : idAtEnd pre s m → idAtEnd [] m m.
Proof.
  intros (major & minor & suffix & _ & -> & Hl & Hd & Hlm & Hdm & _).
  exists major, minor, []. rewrite app_nil_r.
  split; [done|]. split; [done|]. repeat split; try done. by left.
Qed.

Lemma idAtEnd_prefix pre' pre s m : idAtEnd pre s m → idAtEnd (pre' ++ pre) (pre' ++ s) m.
Proof.
  intros (major & minor & suffix & -> & -> & Hp).
  exists major, minor, suffix. by rewrite <- app_assoc.
Qed.

(** X18. An identifier that [extractArxivId] returns has nine or ten
    characters and is itself a string the function accepts, unchanged,
    after any prefix: in particular the [arxivUrl] that [parseEntry]
    builds from it leads back to it.  The result depends on the end of
    the input only: text put before a URL does not change it. *)
Theorem extractArxivId_round_trip (url id : string) :
  extractArxivId url = inr id →
  (String.length id = 9 ∨ String.length id = 10)%nat ∧
  extractArxivId id = inr id ∧
  (∀ pre, extractArxivId (pre +:+ id) = inr id) ∧
  (∀ pre, extractArxivId (pre +:+ url) = inr id).
Proof.
  unfold extractArxivId at 1.
  destruct (search (list_ascii_of_string url)) as [m|] eqn:Hs; [|done].
  intros [= <-]. apply search_sound in Hs as [p Hend].
  pose proof (idAtEnd_bare _ _ _ Hend) as Hbare.
  assert (Hpre : ∀ pre, extractArxivId (pre +:+ string_of_list_ascii m)
                        = inr (string_of_list_ascii m)).
  { intros pre. unfold extractArxivId.
    rewrite list_ascii_of_string_app, list_ascii_of_string_of_list_ascii.
    rewrite (search_complete (list_ascii_of_string pre ++ []) _ m); [done|].
    by apply idAtEnd_prefix. }
  split_and!.
  - rewrite string_length_of_list.
    destruct Hend as (major & minor & suffix & _ & -> & Hl & _ & Hlm & _).
    rewrite length_app. simpl. lia.
  - apply (Hpre "").
  - exact Hpre.
  - intros pre. unfold extractArxivId. rewrite list_ascii_of_string_app.
    rewrite (search_complete (list_ascii_of_string pre ++ p) _ m); [done|].
    by apply idAtEnd_prefix.
Qed.

End ExtractMore.

Lemma extractArxivId_round_trip_witness :
  XmlParser.extractArxivId "https://arxiv.org/abs/2401.12345" = inr "2401.12345".
Proof.
  apply (proj1 (proj2 (proj2 (extractArxivId_round_trip
                                "http://arxiv.org/abs/2401.12345v2" "2401.12345" eq_refl)))
               "https://arxiv.org/abs/").
Defined.

(** ** buildIndex: order of the papers, years and categories *)

Section SortMore.
Context {A : Type} (cmp : A → A → Z) (P : A → Prop).

Hypothesis cmp_total_in : ∀ a b, P a → P b → 0 < cmp a b → cmp b a ≤ 0.
Hypothesis cmp_trans_in :
  ∀ a b c, P a → P b → P c → cmp a b ≤ 0 → cmp b c ≤ 0 → cmp a c ≤ 0.

Lemma insert_sorted_in x l :
  P x → Forall P l →
  StronglySorted (λ a b, cmp a b ≤ 0) l →
  StronglySorted (λ a b, cmp a b ≤ 0) (Js.insert cmp x l).
Proof.
  intros Hx HP. induction 1 as [|y l Hl IH Hy]; simpl.
  - repeat constructor.
  - apply Forall_cons in HP as [HPy HPl]. case_bool_decide as Hgt.
    + constructor; [by apply IH|]. rewrite insert_perm. constructor; [|done].
      by apply cmp_total_in.
    + constructor; [by constructor|]. constructor; [lia|].
      rewrite Forall_forall in Hy, HPl. apply Forall_forall. intros z Hz.
      apply (cmp_trans_in x y z); [done|done|by apply HPl|lia|by apply Hy].
Qed.

Lemma sort_sorted_in l :
  Forall P l → StronglySorted (λ a b, cmp a b ≤ 0) (Js.sort cmp l).
Proof.
  induction 1 as [|x l Hx Hl IH]; [constructor|].
  unfold Js.sort in *. simpl. apply insert_sorted_in; [done| |done].
  fold (Js.sort cmp l). by rewrite sort_perm.
Qed.

End SortMore.

Section IndexMore.
Import IndexBuilder.
Variable Date : string → option Z.

Lemma filter_fmap_pre {A B : Type} (f : A → B) (P : B → Prop) `{!∀ x, Decision (P x)}
    (l : list A) :
  filter P (f <$> l) = f <$> filter (λ x, P (f x)) l.
Proof.
  induction l as [|x l IH]; [done|]. csimpl. rewrite !filter_cons, IH.
  by destruct (decide (P (f x))).
Qed.

Lemma set_values_NoDup {A : Type} `{EqDecision A} (seen l : list A) :
  NoDup (Js.set_values seen l).
Proof.
  revert seen. induction l as [|x l IH]; intros seen; simpl; [constructor|].
  case_bool_decide; [done|]. constructor; [|done].
  rewrite set_values_elem_of. intros [_ Hx]. apply Hx. apply list_elem_of_here.
Qed.

Lemma StronglySorted_strict {A : Type} (R S : A → A → Prop) (l : list A) :
  (∀ a b, a ≠ b → R a b → S a b) → NoDup l → StronglySorted R l → StronglySorted S l.
Proof.
  intros HRS Hnd. induction 1 as [|x l Hl IH Hx]; [constructor|].
  apply NoDup_cons in Hnd as [Hnotin Hnd]. constructor; [by apply IH|].
  rewrite Forall_forall in Hx. apply Forall_forall. intros y Hy.
  apply HRS; [|by apply Hx]. by intros ->.
Qed.

Lemma StronglySorted_in {A : Type} (R S : A → A → Prop) (l : list A) :
  (∀ a b, a ∈ l → b ∈ l → R a b → S a b) → StronglySorted R l → StronglySorted S l.
Proof.
  intros HRS. induction 1 as [|x l Hl IH Hx]; [constructor|].
  constructor.
  - apply IH. intros a b Ha Hb. apply HRS; by apply list_elem_of_further.
  - rewrite Forall_forall in Hx. apply Forall_forall. intros y Hy.
    apply HRS; [apply list_elem_of_here|by apply list_elem_of_further|by apply Hx].
Qed.

Lemma ascii_compare_Lt_trans (a b c : ascii) :
  Ascii.compare a b = Lt → Ascii.compare b c = Lt → Ascii.compare a c = Lt.
Proof.
  unfold Ascii.compare. rewrite !N.compare_lt_iff. lia.
Qed.

Lemma ascii_compare_Eq (a b : ascii) : Ascii.compare a b = Eq → a = b.
Proof.
  unfold Ascii.compare. intros H%N.compare_eq.
  by rewrite <- (ascii_N_embedding a), <- (ascii_N_embedding b), H.
Qed.

Lemma string_compare_Eq (a b : string) : String.compare a b = Eq → a = b.
Proof.
  revert b. induction a as [|x a IH]; intros [|y b]; simpl; try done.
  destruct (Ascii.compare x y) eqn:Hxy; try done.
  intros H. apply ascii_compare_Eq in Hxy as ->. by rewrite (IH b H).
Qed.

Lemma string_compare_Lt_trans (a b c : string) :
  String.compare a b = Lt → String.compare b c = Lt → String.compare a c = Lt.
Proof.
  revert b c. induction a as [|x a IH]; intros [|y b] [|z c]; simpl; try done.
  destruct (Ascii.compare x y) eqn:Hxy; try done.
  - apply ascii_compare_Eq in Hxy as ->.
    destruct (Ascii.compare y z); try done. apply IH.
  - intros _. destruct (Ascii.compare y z) eqn:Hyz; try done.
    + apply ascii_compare_Eq in Hyz as <-. by rewrite Hxy.
    + by rewrite (ascii_compare_Lt_trans x y z).
Qed.

Lemma string_cmp_sorted (l : list string) :
  StronglySorted (λ a b, Js.string_cmp a b ≤ 0) (Js.sort Js.string_cmp l).
Proof.
  apply sort_sorted.
  - intros a b. unfold Js.string_cmp. rewrite (String.compare_antisym a b).
    by destruct (String.compare b a).
  - intros a b c. unfold Js.string_cmp.
    destruct (String.compare a b) eqn:Hab; try done;
      destruct (String.compare b c) eqn:Hbc; try done; intros _ _.
    + apply string_compare_Eq in Hab as ->. by rewrite Hbc.
    + apply string_compare_Eq in Hab as ->. by rewrite Hbc.
    + apply string_compare_Eq in Hbc as <-. by rewrite Hab.
    + by rewrite (string_compare_Lt_trans a b c).
Qed.

Abbreviation unblocked blocklist := (λ paper : Paper.t, Paper.id paper ∉ blocklist).

(** X19. When the publication date of every paper that is not
    blocked parses, the papers of the index are in descending order
    of publication date, and papers of the same date keep the order
    in which they were loaded. *)
Theorem buildIndex_newest_first
    (now : string) (papers : list Paper.t) (blocklist : gset string) :
  (∀ p, p ∈ papers → Paper.id p ∉ blocklist → Date (Paper.publishedDate p) ≠ None) →
  let index := buildIndex Date now papers blocklist in
  StronglySorted
    (λ a b, ∃ x y, Date (Entry.publishedDate a) = Some x ∧
                   Date (Entry.publishedDate b) = Some y ∧ y ≤ x)
    (Index.papers index) ∧
  (∀ d, filter (λ e, Date (Entry.publishedDate e) = Some d) (Index.papers index) =
        project <$> filter (λ p, Date (Paper.publishedDate p) = Some d)
                           (filter (unblocked blocklist) papers)).
Proof.
  intros Hdates. cbv zeta. cbn [Index.papers buildIndex].
  set (l := project <$> filter (unblocked blocklist) papers).
  set (dated := λ e : Entry.t, Date (Entry.publishedDate e) ≠ None).
  assert (Hl : Forall dated l).
  { apply Forall_forall. intros e (p & -> & Hp)%list_elem_of_fmap.
    apply list_elem_of_filter in Hp as [Hnb Hp]. by apply Hdates. }
  split.
  - eapply (StronglySorted_in (λ a b, newestFirst Date a b ≤ 0)).
    + intros a b Ha%sort_elem_of Hb%sort_elem_of.
      rewrite Forall_forall in Hl. pose proof (Hl a Ha) as Hda. pose proof (Hl b Hb) as Hdb.
      unfold dated, newestFirst in *.
      destruct (Date (Entry.publishedDate a)) as [x|]; [|done].
      destruct (Date (Entry.publishedDate b)) as [y|]; [|done].
      simpl. intros Hle. exists x, y. split_and!; [done|done|lia].
    + apply (sort_sorted_in _ dated); [| |done].
      * intros a b Ha Hb. unfold dated, newestFirst in *.
        destruct (Date (Entry.publishedDate a)), (Date (Entry.publishedDate b)); simpl; try done.
        lia.
      * intros a b c Ha Hb Hc. unfold dated, newestFirst in *.
        destruct (Date (Entry.publishedDate a)), (Date (Entry.publishedDate b)),
          (Date (Entry.publishedDate c)); simpl; try done.
        lia.
  - intros d. rewrite sort_stable.
    + subst l. by rewrite filter_fmap_pre.
    + intros a b Ha Hb. unfold newestFirst. rewrite Ha, Hb. simpl. lia.
Qed.

(** X20. The years and the categories of [meta] hold no value
    twice.  The categories are exactly those that some paper of the
    index carries, in strictly ascending order of the string
    comparison.  When the year of every paper that is not blocked
    parses, the years are in strictly descending order. *)
Theorem buildIndex_meta_sorted
    (now : string) (papers : list Paper.t) (blocklist : gset string) :
  let index := buildIndex Date now papers blocklist in
  NoDup (Meta.years (Index.meta index)) ∧
  NoDup (Meta.categories (Index.meta index)) ∧
  (∀ c, c ∈ Meta.categories (Index.meta index) ↔
        ∃ e, e ∈ Index.papers index ∧ c ∈ Entry.categories e) ∧
  StronglySorted (λ a b, String.compare a b = Lt) (Meta.categories (Index.meta index)) ∧
  ((∀ p, p ∈ papers → Paper.id p ∉ blocklist → yearOf p ≠ None) →
   StronglySorted (λ a b, ∃ x y, a = Some x ∧ b = Some y ∧ y < x)
                  (Meta.years (Index.meta index))).
Proof.
  cbv zeta. cbn [Index.papers Index.meta Meta.years Meta.categories buildIndex].
  set (indexPapers := Js.sort (newestFirst Date) _).
  assert (Hcats : NoDup (Js.sort Js.string_cmp
                           (Js.set_values [] (indexPapers ≫= Entry.categories)))).
  { rewrite sort_perm. apply set_values_NoDup. }
  assert (Hyears : NoDup (Js.sort (λ a b, Js.minus_cmp b a)
                            (Js.set_values [] (Entry.year <$> indexPapers)))).
  { rewrite sort_perm. apply set_values_NoDup. }
  split_and!; [done|done| | |].
  - intros c. rewrite sort_elem_of, set_values_elem_of, list_elem_of_bind. split.
    + intros [(e & Hc & He) _]. by exists e.
    + intros (e & He & Hc). split; [by exists e|apply not_elem_of_nil].
  - eapply StronglySorted_strict; [|exact Hcats|apply string_cmp_sorted].
    intros a b Hne. unfold Js.string_cmp.
    destruct (String.compare a b) eqn:Hab; [|done|lia].
    by apply string_compare_Eq in Hab.
  - intros Hparse.
    set (known := λ y : option Z, y ≠ None).
    assert (Hk : Forall known (Js.set_values [] (Entry.year <$> indexPapers))).
    { apply Forall_forall. intros y [Hy _]%set_values_elem_of.
      apply list_elem_of_fmap in Hy as (e & -> & He).
      apply sort_elem_of, list_elem_of_fmap in He as (p & -> & Hp).
      apply list_elem_of_filter in Hp as [Hnb Hp]. by apply Hparse. }
    eapply StronglySorted_in;
      [|eapply (StronglySorted_strict (λ a b, Js.minus_cmp b a ≤ 0)
                  (λ a b, a ≠ b ∧ Js.minus_cmp b a ≤ 0));
        [by intros a b Hne Hle|exact Hyears|apply (sort_sorted_in _ known); [| |done]]].
    + intros a b Ha%sort_elem_of Hb%sort_elem_of [Hne Hle].
      rewrite Forall_forall in Hk. pose proof (Hk a Ha) as Hka. pose proof (Hk b Hb) as Hkb.
      unfold known in *. destruct a as [x|], b as [y|]; try done.
      exists x, y. simpl in Hle. split_and!; [done|done|].
      assert (x ≠ y) by congruence. lia.
    + intros [a|] [b|]; unfold known; simpl; try done. lia.
    + intros [a|] [b|] [c|]; unfold known; simpl; try done. lia.
Qed.

Lemma loadAllPapers_elem_of (store : gmap (option Z) YearFile.t) (p : Paper.t) :
  p ∈ YearStore.loadAllPapers store ↔
  ∃ year data, store !! year = Some data ∧ p ∈ YearFile.papers data.
Proof.
  unfold YearStore.loadAllPapers. rewrite elem_of_concat. split.
  - intros (l & Hp & Hl). apply list_elem_of_fmap in Hl as (data & -> & Hd).
    apply list_elem_of_fmap in Hd as ([year data'] & -> & Hkv).
    apply elem_of_map_to_list in Hkv. by exists year, data'.
  - intros (year & data & Hl & Hp). exists (YearFile.papers data). split; [done|].
    apply list_elem_of_fmap. exists data. split; [done|].
    apply list_elem_of_fmap. exists (year, data). split; [done|].
    by apply elem_of_map_to_list.
Qed.

(** X21. [buildAndSaveIndex] leaves the index alone exactly when no
    partition holds a paper.  As soon as one does, an index is
    written, with the time of the run; every entry is the projection
    of a stored paper that is not blocked; and when all stored papers
    are blocked, the index written is empty. *)
Theorem buildAndSaveIndex_written
    (now : string) (store : gmap (option Z) YearFile.t) (blocklist : gset string) :
  (buildAndSaveIndex Date now store blocklist = None ↔
   ∀ year data, store !! year = Some data → YearFile.papers data = []) ∧
  (∀ index, buildAndSaveIndex Date now store blocklist = Some index →
     Meta.lastUpdated (Index.meta index) = now ∧
     Meta.totalPapers (Index.meta index) = length (Index.papers index) ∧
     ∀ e, e ∈ Index.papers index →
          ∃ year data p, store !! year = Some data ∧ p ∈ YearFile.papers data ∧
                         (Paper.id p ∉ blocklist) ∧ e = project p) ∧
  (∀ year data p, store !! year = Some data → p ∈ YearFile.papers data →
     (∀ q, q ∈ YearStore.loadAllPapers store → Paper.id q ∈ blocklist) →
     buildAndSaveIndex Date now store blocklist
       = Some (Index.mk (Meta.mk now 0 [] []) [])).
Proof.
  unfold buildAndSaveIndex. cbv zeta. split_and!.
  - case_bool_decide as Hlen; split; try done.
    + intros _ year data Hl. destruct (YearFile.papers data) as [|p l] eqn:Hp; [done|].
      apply length_zero_iff_nil in Hlen.
      assert (Hin : p ∈ YearStore.loadAllPapers store).
      { apply loadAllPapers_elem_of. exists year, data. split; [done|].
        rewrite Hp. apply list_elem_of_here. }
      rewrite Hlen in Hin. by apply elem_of_nil in Hin.
    + intros Hall. exfalso. apply Hlen.
      destruct (YearStore.loadAllPapers store) as [|p l] eqn:Hp; [done|].
      assert (Hin : p ∈ YearStore.loadAllPapers store) by (rewrite Hp; apply list_elem_of_here).
      apply loadAllPapers_elem_of in Hin as (year & data & Hl & Hin).
      rewrite (Hall year data Hl) in Hin. by apply elem_of_nil in Hin.
  - intros index. case_bool_decide; [done|]. intros [= <-].
    cbn [Index.papers Index.meta Meta.lastUpdated Meta.totalPapers buildIndex].
    split_and!; [done|done|].
    intros e He. apply sort_elem_of, list_elem_of_fmap in He as (p & -> & Hp).
    apply list_elem_of_filter in Hp as [Hnb Hp].
    apply loadAllPapers_elem_of in Hp as (year & data & Hl & Hp).
    by exists year, data, p.
  - intros year data p Hl Hp Hall. rewrite bool_decide_eq_false_2.
    + unfold buildIndex. rewrite filter_none; [done|].
      intros q Hq Hnb. apply Hnb. by apply Hall.
    + intros Hlen. apply length_zero_iff_nil in Hlen.
      assert (Hin : p ∈ YearStore.loadAllPapers store).
      { apply loadAllPapers_elem_of. by exists year, data. }
      rewrite Hlen in Hin. by apply elem_of_nil in Hin.
Qed.

End IndexMore.

Lemma buildIndex_newest_first_witness :
  StronglySorted
    (λ a b, ∃ x y, IsoDate.value (IndexBuilder.Entry.publishedDate a) = Some x ∧
                   IsoDate.value (IndexBuilder.Entry.publishedDate b) = Some y ∧ y ≤ x)
    (IndexBuilder.Index.papers
       (IndexBuilder.buildIndex IsoDate.value "2024-05-02T06:00:00.000Z"
          [IndexBuilder.p1; IndexBuilder.p2; IndexBuilder.p3] ∅)).
Proof.
  apply (buildIndex_newest_first IsoDate.value "2024-05-02T06:00:00.000Z"
           [IndexBuilder.p1; IndexBuilder.p2; IndexBuilder.p3] ∅).
  intros p Hp _.
  repeat (apply elem_of_cons in Hp as [->|Hp]); [discriminate..|].
  by apply elem_of_nil in Hp.
Defined.

Lemma buildIndex_meta_sorted_witness :
  StronglySorted (λ a b, ∃ x y, a = Some x ∧ b = Some y ∧ y < x)
    (IndexBuilder.Meta.years
       (IndexBuilder.Index.meta
          (IndexBuilder.buildIndex IsoDate.value "2024-05-02T06:00:00.000Z"
             [IndexBuilder.p1; IndexBuilder.p2; IndexBuilder.p3] ∅))).
Proof.
  apply (buildIndex_meta_sorted IsoDate.value "2024-05-02T06:00:00.000Z"
           [IndexBuilder.p1; IndexBuilder.p2; IndexBuilder.p3] ∅).
  intros p Hp _.
  repeat (apply elem_of_cons in Hp as [->|Hp]); [discriminate..|].
  by apply elem_of_nil in Hp.
Defined.

Lemma buildAndSaveIndex_written_witness :
  IndexBuilder.buildAndSaveIndex IsoDate.value "2024-05-02T06:00:00.000Z"
    (YearStore.saveYearPapers (Some 2023) [IndexBuilder.p1] ∅) IndexBuilder.exampleBlocklist
  = Some (IndexBuilder.Index.mk
            (IndexBuilder.Meta.mk "2024-05-02T06:00:00.000Z" 0 [] []) []).
Proof.
  apply (proj2 (proj2 (buildAndSaveIndex_written IsoDate.value "2024-05-02T06:00:00.000Z"
                         (YearStore.saveYearPapers (Some 2023) [IndexBuilder.p1] ∅)
                         IndexBuilder.exampleBlocklist))
               (Some 2023) (YearFile.mk (Some 2023) 1 [IndexBuilder.p1]) IndexBuilder.p1).
  - reflexivity.
  - apply list_elem_of_here.
  - intros q Hq. apply loadAllPapers_elem_of in Hq as (year & data & Hl & Hq).
    unfold YearStore.saveYearPapers in Hl.
    apply lookup_insert_Some in Hl as [[_ <-]|[_ Hl]]; [|by rewrite lookup_empty in Hl].
    apply list_elem_of_singleton in Hq as ->.
    refine (bool_decide_unpack _ _). vm_compute. exact I.
Defined.

(** ** The update scripts: partitions, repeated runs, nothing lost *)

Section PipelineMore.
Import Deduplicator Pipeline.
Variable Date : string → option Z.

Lemma organize_nonempty (m : gmap (option Z) (list Paper.t)) papers :
  (∀ y v, m !! y = Some v → v ≠ []) →
  ∀ y v,
    foldl (λ papersByYear paper,
             <[yearOf paper :=
                 Js.or_default (papersByYear !! yearOf paper) [] ++ [paper]]> papersByYear)
          m papers !! y = Some v → v ≠ [].
Proof.
  revert m. induction papers as [|p papers IH]; intros m Hm; simpl; [done|].
  apply IH. intros y v. destruct (decide (yearOf p = y)) as [<-|Hne].
  - rewrite lookup_insert_eq. intros [= <-]. by destruct (Js.or_default _ _).
  - rewrite lookup_insert_ne by done. apply Hm.
Qed.

Lemma organizePapersByYear_Some papers y v :
  organizePapersByYear papers !! y = Some v ↔
  v = filter (λ p, yearOf p = y) papers ∧ v ≠ [].
Proof.
  pose proof (organizePapersByYear_lookup papers y) as Hl. split.
  - intros Hv. rewrite Hv in Hl. simpl in Hl. split; [done|].
    eapply (organize_nonempty ∅); [|exact Hv]. intros y' v'. by rewrite lookup_empty.
  - intros [-> Hne]. destruct (organizePapersByYear papers !! y) as [v|]; simpl in Hl.
    + by rewrite Hl.
    + by rewrite <- Hl in Hne.
Qed.

Lemma yearsOf_elem_of (m : gmap (option Z) (list Paper.t)) y :
  y ∈ yearsOf m ↔ is_Some (m !! y).
Proof.
  unfold yearsOf. rewrite sort_elem_of, list_elem_of_fmap. split.
  - intros ([y' v] & -> & Hkv). apply elem_of_map_to_list in Hkv. by exists v.
  - intros [v Hv]. exists (y, v). split; [done|]. by apply elem_of_map_to_list.
Qed.

Lemma yearsOf_NoDup (m : gmap (option Z) (list Paper.t)) : NoDup (yearsOf m).
Proof. unfold yearsOf. rewrite sort_perm. apply NoDup_fst_map_to_list. Qed.

(** X22. [organizePapersByYear] files every paper under the year its
    publication date starts with, and nowhere else: the entry of a
    year holds exactly the papers of that year, in input order, and
    no year has an empty entry.  The list of years the scripts loop
    over names each such year once; it is in strictly descending
    order when every year parses. *)
Theorem organizePapersByYear_partition (papers : list Paper.t) :
  (∀ y v, organizePapersByYear papers !! y = Some v ↔
          v = filter (λ p, yearOf p = y) papers ∧ v ≠ []) ∧
  (∀ p, p ∈ papers →
        ∃ v, organizePapersByYear papers !! yearOf p = Some v ∧ p ∈ v) ∧
  NoDup (yearsOf (organizePapersByYear papers)) ∧
  (∀ y, y ∈ yearsOf (organizePapersByYear papers) ↔ ∃ p, p ∈ papers ∧ yearOf p = y) ∧
  ((∀ p, p ∈ papers → yearOf p ≠ None) →
   StronglySorted (λ a b, ∃ x y, a = Some x ∧ b = Some y ∧ y < x)
                  (yearsOf (organizePapersByYear papers))).
Proof.
  assert (Hyears : ∀ y, y ∈ yearsOf (organizePapersByYear papers) ↔
                        ∃ p, p ∈ papers ∧ yearOf p = y).
  { intros y. rewrite yearsOf_elem_of. split.
    - intros [v [-> Hne]%organizePapersByYear_Some].
      destruct (filter _ papers) as [|p l] eqn:Hf; [done|].
      assert (Hp : p ∈ filter (λ p, yearOf p = y) papers) by (rewrite Hf; apply list_elem_of_here).
      apply list_elem_of_filter in Hp as [Hy Hp]. by exists p.
    - intros (p & Hp & Hy). exists (filter (λ p, yearOf p = y) papers).
      apply organizePapersByYear_Some. split; [done|]. intros Hnil.
      assert (Hin : p ∈ filter (λ p, yearOf p = y) papers) by by apply list_elem_of_filter.
      rewrite Hnil in Hin. by apply elem_of_nil in Hin. }
  split_and!.
  - apply organizePapersByYear_Some.
  - intros p Hp. exists (filter (λ q, yearOf q = yearOf p) papers).
    assert (Hin : p ∈ filter (λ q, yearOf q = yearOf p) papers) by by apply list_elem_of_filter.
    split; [|done]. apply organizePapersByYear_Some. split; [done|].
    intros Hnil. rewrite Hnil in Hin. by apply elem_of_nil in Hin.
  - apply yearsOf_NoDup.
  - exact Hyears.
  - intros Hparse.
    set (known := λ y : option Z, y ≠ None).
    assert (Hk : Forall known (map_to_list (organizePapersByYear papers)).*1).
    { apply Forall_forall. intros y Hy.
      assert (Hin : y ∈ yearsOf (organizePapersByYear papers))
        by (unfold yearsOf; by rewrite sort_elem_of).
      apply Hyears in Hin as (p & Hp & <-). by apply Hparse. }
    eapply StronglySorted_in;
      [|eapply (StronglySorted_strict (λ a b, Js.minus_cmp b a ≤ 0)
                  (λ a b, a ≠ b ∧ Js.minus_cmp b a ≤ 0));
        [by intros a b Hne Hle|apply yearsOf_NoDup|
         apply (sort_sorted_in _ known); [| |done]]].
    + intros a b Ha Hb [Hne Hle].
      apply Hyears in Ha as (p & Hp & <-). apply Hyears in Hb as (q & Hq & <-).
      pose proof (Hparse p Hp) as Hka. pose proof (Hparse q Hq) as Hkb.
      destruct (yearOf p) as [x|], (yearOf q) as [y|]; try done.
      exists x, y. simpl in Hle. split_and!; [done|done|].
      assert (x ≠ y) by congruence. lia.
    + intros [a|] [b|]; unfold known; simpl; try done. lia.
    + intros [a|] [b|] [c|]; unfold known; simpl; try done. lia.
Qed.

Lemma prepare_NoDup batch year :
  NoDup (Paper.id <$> Js.or_default (prepare batch !! year) []).
Proof. by destruct (prepare_fresh [] batch year) as [Hnd _]. Qed.

Lemma mergeYearFull_mergeYear batch store year :
  mergeYearFull Date (prepare batch) store year = mergeYear Date (prepare batch) store year.
Proof.
  unfold mergeYearFull, mergeYear. cbv zeta. case_bool_decide as Hlen; [done|].
  assert (Hnil : YearStore.loadYearPapers store year = [])
    by (destruct (YearStore.loadYearPapers store year); [done|simpl in Hlen; lia]).
  rewrite Hnil. by rewrite mergePapers_into_empty by apply prepare_NoDup.
Qed.

Lemma run_full_incremental store batch :
  run Date store (Full batch) = run Date store (Incremental batch).
Proof.
  unfold run. simpl. case_bool_decide; [done|].
  generalize (yearsOf (prepare batch)). intros years. revert store.
  induction years as [|y years IH]; intros store; simpl; [done|].
  by rewrite mergeYearFull_mergeYear, IH.
Qed.

(** X23. The shortcut of the full update, which writes the new
    papers of a year as they come when the year has no stored paper,
    makes no difference: on every store and every batch the full
    update writes the same files as the incremental update. *)
Theorem updateFull_writes_as_updateIncremental
    (store : gmap (option Z) YearFile.t) (batch : Batch.t) :
  run Date store (Full batch) = run Date store (Incremental batch).
Proof. apply run_full_incremental. Qed.

Lemma foldl_mergeYear_lookup papersByYear years store y :
  NoDup years →
  foldl (mergeYear Date papersByYear) store years !! y =
  if decide (y ∈ years)
  then
    let result :=
      merged (mergePapers Date (YearStore.loadYearPapers store y)
                          (Js.or_default (papersByYear !! y) [])) in
    Some (YearFile.mk y (length result) result)
  else store !! y.
Proof.
  revert store. induction years as [|y0 years IH]; intros store Hnd; simpl.
  - done.
  - apply NoDup_cons in Hnd as [Hnotin Hnd]. rewrite IH by done.
    destruct (decide (y = y0)) as [->|Hne].
    + rewrite decide_False by done. rewrite decide_True by apply list_elem_of_here.
      unfold mergeYear, YearStore.saveYearPapers. by rewrite lookup_insert_eq.
    + assert (Hload : YearStore.loadYearPapers (mergeYear Date papersByYear store y0) y
                      = YearStore.loadYearPapers store y).
      { unfold YearStore.loadYearPapers, mergeYear, YearStore.saveYearPapers.
        by rewrite lookup_insert_ne by done. }
      rewrite Hload. destruct (decide (y ∈ years)) as [Hin|Hnin].
      * by rewrite decide_True by by apply list_elem_of_further.
      * rewrite decide_False by (intros [?|?]%elem_of_cons; done).
        unfold mergeYear, YearStore.saveYearPapers. by rewrite lookup_insert_ne by done.
Qed.

(** What an incremental run leaves under a year. *)
Lemma run_incremental_lookup store batch y :
  run Date store (Incremental batch) !! y =
  if bool_decide (length (Batch.fetched batch) = 0%nat) then store !! y
  else
    match prepare batch !! y with
    | Some newPapers =>
        let result :=
          merged (mergePapers Date (YearStore.loadYearPapers store y) newPapers) in
        Some (YearFile.mk y (length result) result)
    | None => store !! y
    end.
Proof.
  unfold run. simpl. case_bool_decide; [done|].
  rewrite foldl_mergeYear_lookup by apply yearsOf_NoDup.
  destruct (prepare batch !! y) as [v|] eqn:Hv.
  - rewrite decide_True; [done|]. apply yearsOf_elem_of. by rewrite Hv.
  - rewrite decide_False; [done|]. rewrite yearsOf_elem_of, Hv. by intros [? ?].
Qed.

Lemma merged_ids existing incoming i :
  i ∈ Paper.id <$> merged (mergePapers Date existing incoming) ↔
  i ∈ Paper.id <$> existing ∨ i ∈ Paper.id <$> incoming.
Proof.
  destruct (mergeLoop_accounts Date (mkMergeState (initialMap existing) 0 0) incoming)
    as (_ & _ & _ & H4).
  destruct (mergePapers_wf Date existing incoming) as [Hk Hnd].
  unfold mergePapers. cbn [merged]. cbv zeta in Hk, Hnd.
  set (m := paperMap _) in *.
  assert (Hids : Paper.id <$> map_values m = m.*1).
  { unfold map_values. rewrite <- list_fmap_compose.
    apply Forall_fmap_ext_1. eapply Forall_impl; [exact Hk|]. by intros [k v]. }
  rewrite Hids, H4. cbn [paperMap]. by rewrite initialMap_keys.
Qed.

(** The records a batch yields for a year, up to the fields the
    scripts set themselves. *)
Lemma firstOccurrences_fmap (G : Paper.t → Paper.t) l :
  (∀ p, Paper.id (G p) = Paper.id p) →
  firstOccurrences (G <$> l) = G <$> firstOccurrences l.
Proof.
  intros HG. induction l as [|p l IH]; [done|]. csimpl.
  rewrite !firstOccurrences_cons, IH. csimpl. f_equal.
  rewrite filter_fmap_pre. f_equal. apply list_filter_iff. intros q. by rewrite !HG.
Qed.

Lemma prepare_lookup batch y :
  ∃ G : Paper.t → Paper.t,
    (∀ p, Paper.id (G p) = Paper.id p ∧
          Paper.publishedDate (G p) = Paper.publishedDate p ∧
          Paper.updatedDate (G p) = Paper.updatedDate p) ∧
    Js.or_default (prepare batch !! y) [] =
      G <$> filter (λ p, yearOf p = y) (firstOccurrences (Batch.fetched batch)).
Proof.
  unfold prepare. cbv zeta.
  rewrite organizePapersByYear_lookup, deduplicatePapers_unique.
  unfold Categorizer.categorizePapers. rewrite <- list_fmap_compose.
  eexists. split; [|rewrite firstOccurrences_fmap by done; rewrite filter_fmap_pre; reflexivity].
  done.
Qed.

Lemma prepare_Some_nonempty batch y v : prepare batch !! y = Some v → v ≠ [].
Proof. unfold prepare. cbv zeta. by intros [_ ?]%organizePapersByYear_Some. Qed.

Lemma mergePapers_again existing incoming incoming' :
  Forall2 (λ n n', Paper.id n' = Paper.id n ∧
                   revisionDate Date n' = revisionDate Date n) incoming incoming' →
  merged (mergePapers Date (merged (mergePapers Date existing incoming)) incoming')
    = merged (mergePapers Date existing incoming).
Proof.
  intros Hsame. unfold mergePapers. cbn [merged].
  set (st := foldl (mergeStep Date) (mkMergeState (initialMap existing) 0 0) incoming).
  destruct (mergePapers_wf Date existing incoming) as [Hk Hnd]. fold st in Hk, Hnd.
  rewrite (initialMap_values _ Hk Hnd).
  rewrite mergeLoop_settled_noop; [done|]. cbn [paperMap].
  pose proof (mergeLoop_settles Date (mkMergeState (initialMap existing) 0 0) incoming) as Hs.
  fold st in Hs. clearbody st. clear -Hs Hsame.
  induction Hsame as [|n n' l l' [Hid Hdate] _ IH]; [constructor|].
  apply Forall_cons in Hs as [(e & Hget & Hold) Hs]. constructor; [|by apply IH].
  exists e. by rewrite Hid, Hdate.
Qed.

Lemma run_again store batch batch' :
  Batch.fetched batch' = Batch.fetched batch →
  run Date (run Date store (Incremental batch)) (Incremental batch')
    = run Date store (Incremental batch).
Proof.
  intros Hf. apply map_eq. intros y.
  rewrite (run_incremental_lookup _ batch'). rewrite Hf.
  case_bool_decide as Hempty; [done|].
  destruct (prepare batch' !! y) as [new'|] eqn:Hnew'; [|done].
  destruct (prepare_lookup batch y) as (G & HG & Hl).
  destruct (prepare_lookup batch' y) as (G' & HG' & Hl').
  rewrite Hnew', Hf in Hl'. simpl in Hl'.
  pose proof (prepare_Some_nonempty _ _ _ Hnew') as Hne.
  set (L := filter (λ p, yearOf p = y) (firstOccurrences (Batch.fetched batch))) in *.
  assert (HL : L ≠ []) by (intros HL; rewrite HL in Hl'; done).
  assert (Hloaded : ∀ s,
            s !! y = run Date store (Incremental batch) !! y →
            YearStore.loadYearPapers s y =
              YearStore.loadYearPapers (run Date store (Incremental batch)) y).
  { intros s Hs. unfold YearStore.loadYearPapers. by rewrite Hs. }
  rewrite (run_incremental_lookup store batch).
  unfold YearStore.loadYearPapers at 1 2. rewrite (run_incremental_lookup store batch).
  rewrite bool_decide_eq_false_2 by done.
  destruct (prepare batch !! y) as [new|] eqn:Hnew; simpl in Hl.
  - cbv zeta. cbn [YearFile.papers].
    assert (Hagain :
      merged (mergePapers Date
                (merged (mergePapers Date (YearStore.loadYearPapers store y) new)) new')
      = merged (mergePapers Date (YearStore.loadYearPapers store y) new)).
    { apply mergePapers_again. rewrite Hl, Hl'.
      apply Forall2_fmap, Forall_Forall2_diag, Forall_forall. intros p _.
      destruct (HG p) as (H1 & H2 & H3), (HG' p) as (H1' & H2' & H3').
      unfold revisionDate. by rewrite H1, H1', H2, H2', H3, H3'. }
    by rewrite Hagain.
  - exfalso. destruct L; [done|]. done.
Qed.

(** X24. Running a script again on the same fetch results changes
    no file on disk, in either directory, whatever the time of the
    second run and whatever the category definitions then are:
    stored papers are only ever replaced by strictly newer revisions,
    so they are not categorized again.  This is about a second run
    of the same script: the two scripts work on different
    directories. *)
Theorem update_again_changes_nothing (disk : Disk.t) (r r' : Run) :
  scriptOf r' = scriptOf r →
  Batch.fetched (batchOf r') = Batch.fetched (batchOf r) →
  execute Date (execute Date disk r) r' = execute Date disk r.
Proof.
  intros Hscript Hf.
  assert (Hinc : ∀ s x, run Date s x = run Date s (Incremental (batchOf x))).
  { intros s [b|b]; [done|apply run_full_incremental]. }
  destruct r as [b|b], r' as [b'|b']; try done; unfold execute; simpl; f_equal.
  - by apply run_again.
  - rewrite (Hinc _ (Full b')), (Hinc _ (Full b)). by apply run_again.
Qed.

Lemma run_keeps_ids store r y data :
  store !! y = Some data →
  ∃ data', run Date store r !! y = Some data' ∧
           ∀ i, i ∈ Paper.id <$> YearFile.papers data →
                i ∈ Paper.id <$> YearFile.papers data'.
Proof.
  intros Hy.
  assert (Hinc : run Date store r = run Date store (Incremental (batchOf r))).
  { destruct r as [b|b]; [done|apply run_full_incremental]. }
  rewrite Hinc, run_incremental_lookup.
  case_bool_decide; [by exists data|].
  destruct (prepare (batchOf r) !! y) as [new|]; [|by exists data].
  eexists. split; [done|]. cbn [YearFile.papers]. intros i Hi.
  apply merged_ids. left. unfold YearStore.loadYearPapers. by rewrite Hy.
Qed.

(** X25. An update deletes nothing.  Every year file that exists
    before a run exists after it and holds at least the same ids;
    the same is true across any sequence of runs.  The file of a
    year for which the run fetched no paper is left as it is.  And
    every paper fetched has its id in some year file afterwards. *)
Theorem update_loses_nothing (store : gmap (option Z) YearFile.t) :
  (∀ rs y data, store !! y = Some data →
     ∃ data', runs Date store rs !! y = Some data' ∧
              ∀ i, i ∈ Paper.id <$> YearFile.papers data →
                   i ∈ Paper.id <$> YearFile.papers data') ∧
  (∀ r y, (∀ p, p ∈ Batch.fetched (batchOf r) → yearOf p ≠ y) →
          run Date store r !! y = store !! y) ∧
  (∀ r p, p ∈ Batch.fetched (batchOf r) →
     ∃ y data', run Date store r !! y = Some data' ∧
                Paper.id p ∈ Paper.id <$> YearFile.papers data').
Proof.
  assert (Hinc : ∀ s x, run Date s x = run Date s (Incremental (batchOf x))).
  { intros s [b|b]; [done|apply run_full_incremental]. }
  split_and!.
  - intros rs. revert store. induction rs as [|r rs IH]; intros store y data Hy.
    + by exists data.
    + destruct (run_keeps_ids store r y data Hy) as (data1 & H1 & Hsub1).
      destruct (IH _ y data1 H1) as (data' & H' & Hsub').
      exists data'. split; [done|]. intros i Hi. by apply Hsub', Hsub1.
  - intros r y Hnone. rewrite Hinc, run_incremental_lookup.
    case_bool_decide; [done|].
    destruct (prepare (batchOf r) !! y) as [new|] eqn:Hnew; [|done].
    exfalso. destruct (prepare_lookup (batchOf r) y) as (G & _ & Hl).
    rewrite Hnew in Hl. simpl in Hl.
    apply prepare_Some_nonempty in Hnew. apply Hnew. rewrite Hl.
    rewrite filter_none; [done|].
    intros p Hp%firstOccurrences_elem_of. by apply Hnone.
  - intros r p Hp.
    assert (Hid : Paper.id p ∈ Paper.id <$> firstOccurrences (Batch.fetched (batchOf r))).
    { apply firstOccurrences_ids, list_elem_of_fmap. by exists p. }
    apply list_elem_of_fmap in Hid as (q & Hq & Hin).
    destruct (prepare_lookup (batchOf r) (yearOf q)) as (G & HG & Hl).
    assert (HGq : G q ∈ Js.or_default (prepare (batchOf r) !! yearOf q) []).
    { rewrite Hl. apply list_elem_of_fmap. exists q. split; [done|].
      by apply list_elem_of_filter. }
    exists (yearOf q). rewrite Hinc, run_incremental_lookup.
    rewrite bool_decide_eq_false_2
      by (destruct (Batch.fetched (batchOf r)); [by apply elem_of_nil in Hp|done]).
    destruct (prepare (batchOf r) !! yearOf q) as [new|];
      [|by apply elem_of_nil in HGq].
    eexists. split; [done|]. cbn [YearFile.papers]. simpl in HGq.
    apply merged_ids. right. apply list_elem_of_fmap. exists (G q).
    split; [|done]. destruct (HG q) as (-> & _). done.
Qed.

End PipelineMore.

Lemma organizePapersByYear_partition_witness :
  StronglySorted (λ a b, ∃ x y, a = Some x ∧ b = Some y ∧ y < x)
    (Pipeline.yearsOf
       (Pipeline.organizePapersByYear [IndexBuilder.p1; IndexBuilder.p2; IndexBuilder.p3])).
Proof.
  apply (organizePapersByYear_partition [IndexBuilder.p1; IndexBuilder.p2; IndexBuilder.p3]).
  intros p Hp.
  repeat (apply elem_of_cons in Hp as [->|Hp]); [discriminate..|].
  by apply elem_of_nil in Hp.
Defined.

Lemma update_again_changes_nothing_witness :
  Pipeline.execute IsoDate.value
    (Pipeline.execute IsoDate.value Pipeline.Disk.empty
       (Pipeline.Full
          (Pipeline.Batch.mk [Fetcher.paperA; Fetcher.paperB; IndexBuilder.p1]
             Categorizer.exampleCategories "2024-05-02T06:00:00.000Z")))
    (Pipeline.Full
       (Pipeline.Batch.mk [Fetcher.paperA; Fetcher.paperB; IndexBuilder.p1]
          [] "2024-05-09T06:00:00.000Z"))
  = Pipeline.execute IsoDate.value Pipeline.Disk.empty
      (Pipeline.Full
         (Pipeline.Batch.mk [Fetcher.paperA; Fetcher.paperB; IndexBuilder.p1]
            Categorizer.exampleCategories "2024-05-02T06:00:00.000Z")).
Proof.
  apply (update_again_changes_nothing IsoDate.value Pipeline.Disk.empty
           (Pipeline.Full
              (Pipeline.Batch.mk [Fetcher.paperA; Fetcher.paperB; IndexBuilder.p1]
                 Categorizer.exampleCategories "2024-05-02T06:00:00.000Z"))
           (Pipeline.Full
              (Pipeline.Batch.mk [Fetcher.paperA; Fetcher.paperB; IndexBuilder.p1]
                 [] "2024-05-09T06:00:00.000Z"))).
  - reflexivity.
  - reflexivity.
Defined.

Lemma update_loses_nothing_witness :
  Pipeline.run IsoDate.value IndexBuilder.examplePartitions
    (Pipeline.Incremental
       (Pipeline.Batch.mk [Fetcher.paperA; Fetcher.paperB]
          Categorizer.exampleCategories "2024-05-02T06:00:00.000Z")) !! Some 2023
  = IndexBuilder.examplePartitions !! Some 2023.
Proof.
  apply (proj1 (proj2 (update_loses_nothing IsoDate.value IndexBuilder.examplePartitions))
               (Pipeline.Incremental
                  (Pipeline.Batch.mk [Fetcher.paperA; Fetcher.paperB]
                     Categorizer.exampleCategories "2024-05-02T06:00:00.000Z"))
               (Some 2023)).
  intros p Hp.
  repeat (apply elem_of_cons in Hp as [->|Hp]); [discriminate..|].
  by apply elem_of_nil in Hp.
Defined.

(** ** cleanText *)

Section CleanTextFacts.
Import XmlParser.

Lemma tidy_weaken l : tidy true l → tidy false l.
Proof. destruct l as [|c l]; simpl; [done|]. destruct (is_white c); [by intros (_ & ? & _)|done]. Qed.

Lemma collapse_tidy b l : tidy b (collapse b l).
Proof.
  revert b. induction l as [|c l IH]; intros b; simpl; [done|].
  destruct (is_white c) eqn:Hc.
  - destruct b; [apply IH|]. simpl. change (is_white " ") with true. cbv iota.
    split_and!; [done|done|apply IH].
  - simpl. rewrite Hc. apply IH.
Qed.

Lemma tidy_spaces b l c : tidy b l → c ∈ l → is_white c = true → c = " "%char.
Proof.
  revert b. induction l as [|x l IH]; intros b Ht Hin Hc; [by apply elem_of_nil in Hin|].
  simpl in Ht. apply elem_of_cons in Hin as [->|Hin].
  - rewrite Hc in Ht. by destruct Ht.
  - destruct (is_white x); [destruct Ht as (_ & _ & Ht)|]; by eapply IH.
Qed.

Lemma tidy_no_double b l pre post : tidy b l → l ≠ pre ++ " "%char :: " "%char :: post.
Proof.
  revert b l. induction pre as [|x pre IH]; intros b l Ht ->; simpl in Ht.
  - change (is_white " ") with true in Ht. cbv iota in Ht.
    destruct Ht as (_ & _ & _ & Hf & _). done.
  - destruct (is_white x); [destruct Ht as (_ & _ & Ht)|]; by eapply IH.
Qed.

Lemma tidy_app b l1 l2 : tidy b (l1 ++ l2) → tidy b l1.
Proof.
  revert b. induction l1 as [|c l1 IH]; intros b; simpl; [done|].
  destruct (is_white c); [|apply IH]. intros (H1 & H2 & H3). split_and!; [done|done|by apply IH].
Qed.

Lemma tidy_intro b l :
  (∀ c, c ∈ l → is_white c = true → c = " "%char) →
  (∀ pre post, l ≠ pre ++ " "%char :: " "%char :: post) →
  (b = true → ∀ c, head l = Some c → is_white c = false) →
  tidy b l.
Proof.
  revert b. induction l as [|c l IH]; intros b Hsp Hdb Hhd; simpl; [done|].
  assert (Htail : ∀ b', (b' = true → ∀ c', head l = Some c' → is_white c' = false) →
                        tidy b' l).
  { intros b' Hb'. apply IH; [|intros pre post ->; by apply (Hdb (c :: pre) post)|done].
    intros x Hx. apply Hsp. by apply list_elem_of_further. }
  destruct (is_white c) eqn:Hc; [|by apply Htail].
  assert (c = " "%char) as -> by (apply Hsp; [apply list_elem_of_here|done]).
  split_and!; [done| |].
  - destruct b; [|done]. by rewrite (Hhd eq_refl " "%char eq_refl) in Hc.
  - apply Htail. intros _ c' Hc'. destruct (is_white c') eqn:Hw; [|done].
    exfalso. destruct l as [|x l]; [done|]. simpl in Hc'. injection Hc' as ->.
    assert (c' = " "%char) as ->
      by (apply Hsp; [apply list_elem_of_further, list_elem_of_here|done]).
    by apply (Hdb [] l).
Qed.

Lemma collapse_fixed b l : tidy b l → collapse b l = l.
Proof.
  revert b. induction l as [|c l IH]; intros b; simpl; [done|].
  destruct (is_white c).
  - intros (-> & -> & Ht). by rewrite IH.
  - intros Ht. by rewrite IH.
Qed.

Lemma visible_collapse b l : visible (collapse b l) = visible l.
Proof.
  unfold visible. revert b. induction l as [|c l IH]; intros b; simpl; [done|].
  destruct (is_white c) eqn:Hc.
  - rewrite (filter_cons_False _ c l) by by rewrite Hc.
    destruct b; [apply IH|]. rewrite filter_cons_False by done. apply IH.
  - by rewrite !filter_cons_True, IH by done.
Qed.

Lemma trimStart_split l :
  ∃ ws, l = ws ++ trimStart l ∧ Forall (λ c, is_white c = true) ws.
Proof.
  induction l as [|c l (ws & IH1 & IH2)]; simpl; [by exists []|].
  destruct (is_white c) eqn:Hc.
  - exists (c :: ws). split; [by rewrite IH1 at 1|by constructor].
  - by exists [].
Qed.

Lemma trimStart_head l c : head (trimStart l) = Some c → is_white c = false.
Proof.
  induction l as [|x l IH]; simpl; [done|].
  destruct (is_white x) eqn:Hx; [done|]. by intros [= <-].
Qed.

Lemma trimStart_fixed l : (∀ c, head l = Some c → is_white c = false) → trimStart l = l.
Proof. destruct l as [|c l]; simpl; [done|]. intros H. by rewrite (H c eq_refl). Qed.

Lemma trimStart_tidy b l : tidy b l → tidy false (trimStart l).
Proof.
  revert b. induction l as [|c l IH]; intros b; simpl; [done|].
  destruct (is_white c) eqn:Hc.
  - intros (_ & _ & Ht). by eapply IH.
  - intros Ht. simpl. by rewrite Hc.
Qed.

Lemma trimEnd_split l :
  ∃ ws, l = trimEnd l ++ ws ∧ Forall (λ c, is_white c = true) ws.
Proof.
  destruct (trimStart_split (reverse l)) as (ws & Hl & Hws).
  exists (reverse ws). split; [|by apply Forall_reverse].
  unfold trimEnd. rewrite <- reverse_app, <- Hl. by rewrite reverse_involutive.
Qed.

Lemma trimEnd_last l c : last (trimEnd l) = Some c → is_white c = false.
Proof. unfold trimEnd. rewrite last_reverse. apply trimStart_head. Qed.

Lemma trimEnd_fixed l : (∀ c, last l = Some c → is_white c = false) → trimEnd l = l.
Proof.
  intros H. unfold trimEnd. rewrite trimStart_fixed; [apply reverse_involutive|].
  intros c. rewrite head_reverse. apply H.
Qed.

Lemma visible_white ws : Forall (λ c, is_white c = true) ws → visible ws = [].
Proof.
  intros H. apply filter_none. rewrite Forall_forall in H.
  intros c Hc Hv. by rewrite (H c Hc) in Hv.
Qed.

Lemma visible_trim l : visible (trim l) = visible l.
Proof.
  unfold trim.
  destruct (trimStart_split l) as (ws1 & H1 & Hw1).
  destruct (trimEnd_split (trimStart l)) as (ws2 & H2 & Hw2).
  rewrite H1 at 2. rewrite H2 at 2. unfold visible in *.
  rewrite !filter_app. fold (visible ws1) (visible ws2).
  by rewrite (visible_white ws1), (visible_white ws2), app_nil_r.
Qed.

Lemma trim_normalized b l : tidy b l → normalized (trim l).
Proof.
  intros Ht. apply trimStart_tidy in Ht.
  destruct (trimEnd_split (trimStart l)) as (ws & Hsplit & _).
  assert (Ht' : tidy false (trim l)).
  { unfold trim. rewrite Hsplit in Ht. by apply tidy_app in Ht. }
  split_and!.
  - intros c. by apply (tidy_spaces false).
  - intros c Hc. apply (trimStart_head l). unfold trim in Hc. rewrite Hsplit.
    destruct (trimEnd (trimStart l)); [done|]. done.
  - apply trimEnd_last.
  - intros pre post. by apply (tidy_no_double false).
Qed.

Lemma trim_collapse_fixed l : normalized l → trim (collapse false l) = l.
Proof.
  intros (Hsp & Hhd & Hlast & Hdb).
  rewrite collapse_fixed by (by apply tidy_intro).
  unfold trim. rewrite trimStart_fixed by done. by apply trimEnd_fixed.
Qed.

Lemma cleanText_fixed (s : string) :
  normalized (list_ascii_of_string s) → cleanText (Some s) = s.
Proof.
  intros Hn. unfold cleanText. destruct s as [|c s]; [done|].
  cbn [Js.truthy Js.or_default]. rewrite trim_collapse_fixed by done.
  apply string_of_list_ascii_of_string.
Qed.

Lemma cleanText_normalized (text : option string) :
  normalized (list_ascii_of_string (cleanText text)).
Proof.
  unfold cleanText. destruct (Js.truthy text).
  - rewrite list_ascii_of_string_of_list_ascii. eapply trim_normalized, collapse_tidy.
  - split_and!; try done. + by intros c ?%elem_of_nil. + by intros [|? ?] ?.
Qed.

(** X26. [cleanText] brings a text to normal form and changes
    nothing else: in the result the only white space is the single
    space, never at either end and never twice in a row, and the
    characters that are not white space are those of the input, in
    order.  A text already in normal form is returned as it is, so
    cleaning twice is cleaning once.  A missing text gives the empty
    string. *)
Theorem cleanText_normalizes (text : option string) :
  normalized (list_ascii_of_string (cleanText text)) ∧
  visible (list_ascii_of_string (cleanText text))
    = visible (list_ascii_of_string (Js.or_default text "")) ∧
  (∀ s, normalized (list_ascii_of_string s) → cleanText (Some s) = s) ∧
  cleanText (Some (cleanText text)) = cleanText text ∧
  cleanText None = "".
Proof.
  split_and!.
  - apply cleanText_normalized.
  - unfold cleanText. destruct text as [[|c s]|]; try done.
    cbn [Js.truthy Js.or_default].
    by rewrite list_ascii_of_string_of_list_ascii, visible_trim, visible_collapse.
  - apply cleanText_fixed.
  - apply cleanText_fixed, cleanText_normalized.
  - done.
Qed.

End CleanTextFacts.

Lemma tidy_normalized l :
  XmlParser.tidy false l →
  (∀ c, head l = Some c → XmlParser.is_white c = false) →
  (∀ c, last l = Some c → XmlParser.is_white c = false) →
  XmlParser.normalized l.
Proof.
  intros Ht Hh Hl. split_and!; [|done|done|].
  - intros c. by apply (tidy_spaces false).
  - intros pre post. by apply (tidy_no_double false).
Qed.

Lemma cleanText_normalizes_witness :
  XmlParser.cleanText (Some "Attention Is All You Need") = "Attention Is All You Need".
Proof.
  apply (proj1 (proj2 (proj2 (cleanText_normalizes None)))).
  apply tidy_normalized.
  - vm_compute. tauto.
  - intros c [= <-]. reflexivity.
  - intros c [= <-]. reflexivity.
Defined.

(** Runs of blanks, tabs and line breaks become one space each, and
    those at the ends go. *)
Example cleanText_example :
  XmlParser.cleanText
    (Some (String (ascii_of_nat 10) "  Attention " +:+ String (ascii_of_nat 10)
             ("   Is" +:+ String (ascii_of_nat 9) "All  You Need " +:+
              String (ascii_of_nat 10) "")))
  = "Attention Is All You Need".
Proof. vm_compute. reflexivity. Qed.

(** ** RateLimiter *)

Section RateLimiterFacts.
Import RateLimiter.

Lemma wait_spacing limiter r :
  timely limiter r →
  lastRequestTime limiter + delayMs limiter ≤ lastRequestTime (wait limiter r).
Proof.
  unfold timely, waitTime. cbv zeta. simpl. case_bool_decide; lia.
Qed.

Lemma recorded_spacing limiter rs :
  allTimely limiter rs →
  ∀ i t1 t2, recorded limiter rs !! i = Some t1 →
             recorded limiter rs !! S i = Some t2 →
             t1 + delayMs limiter ≤ t2.
Proof.
  revert limiter. induction rs as [|r rs IH]; intros limiter Hall i t1 t2; [done|].
  destruct Hall as [Hr Hall]. destruct i as [|i]; simpl.
  - intros [= <-] H2. destruct rs as [|r' rs]; [done|]. simpl in H2. injection H2 as <-.
    destruct Hall as [Hr' _]. apply wait_spacing in Hr'. simpl in Hr'. lia.
  - intros H1 H2. by apply (IH (wait limiter r) Hall i).
Qed.

(** X27. For calls of [wait] made one after the other, with a clock
    that does not run backwards and timers that do not fire early,
    the time recorded by a call is at least [delayMs] after the time
    recorded by the call before it.  A timer that [wait] sets has a
    positive delay, of at most [delayMs] when the clock has not gone
    back since the last call; and a new limiter makes its first
    caller wait only when the clock reads less than [delayMs]. *)
Theorem wait_keeps_requests_apart (limiter : t) :
  (∀ r, timely limiter r →
        lastRequestTime limiter + delayMs limiter ≤ lastRequestTime (wait limiter r) ∧
        delayMs (wait limiter r) = delayMs limiter) ∧
  (∀ rs, allTimely limiter rs →
         ∀ i t1 t2, recorded limiter rs !! i = Some t1 →
                    recorded limiter rs !! S i = Some t2 →
                    t1 + delayMs limiter ≤ t2) ∧
  (∀ now delay, waitTime limiter now = Some delay →
                0 < delay ∧ (lastRequestTime limiter ≤ now → delay ≤ delayMs limiter)) ∧
  (∀ delay now, waitTime (create delay) now = None ↔ delay ≤ now).
Proof.
  split_and!.
  - intros r Hr. split; [by apply wait_spacing|done].
  - apply recorded_spacing.
  - intros now delay. unfold waitTime. cbv zeta. case_bool_decide; [|done].
    intros [= <-]. lia.
  - intros delay now. unfold waitTime, create. cbv zeta. simpl.
    case_bool_decide; split; try done; lia.
Qed.

End RateLimiterFacts.

(** Three calls with the default delay: the first goes through at
    once, the second is entered 200 ms later and waits 2800 ms, the
    third is entered 5 s later and does not wait. *)
Lemma wait_keeps_requests_apart_witness :
  RateLimiter.recorded (RateLimiter.create 3000)
    [RateLimiter.mkReading 1700000000000 1700000000000;
     RateLimiter.mkReading 1700000000200 1700000003001;
     RateLimiter.mkReading 1700000008000 1700000008000] !! 1%nat = Some 1700000003001 ∧
  1700000000000 + 3000 ≤ 1700000003001.
Proof.
  split; [reflexivity|].
  apply (proj1 (proj2 (wait_keeps_requests_apart (RateLimiter.create 3000)))
               [RateLimiter.mkReading 1700000000000 1700000000000;
                RateLimiter.mkReading 1700000000200 1700000003001;
                RateLimiter.mkReading 1700000008000 1700000008000]
               ltac:(vm_compute; intuition discriminate) 0%nat
               1700000000000 1700000003001 eq_refl eq_refl).
Defined.

(** ** parseEntry and parseArxivXML *)

Section ParseFacts.
Import XmlParser.

Lemma extractArxivId_inr (url id : string) :
  extractArxivId url = inr id ↔ endsInId url id.
Proof.
  unfold extractArxivId, endsInId. split.
  - destruct (search (list_ascii_of_string url)) as [m|] eqn:Hs; [|done].
    intros [= <-]. apply search_sound in Hs as [pre Hend]. by exists pre, m.
  - intros (pre & m & Hend & ->). by rewrite (search_complete _ _ _ Hend).
Qed.

Lemma extractArxivId_of_id (url id pre : string) :
  endsInId url id → extractArxivId (pre +:+ id) = inr id.
Proof.
  intros (p & m & Hend & ->). apply extractArxivId_inr.
  exists (list_ascii_of_string pre), m. split; [|done].
  rewrite list_ascii_of_string_app, list_ascii_of_string_of_list_ascii.
  rewrite <- (app_nil_r (list_ascii_of_string pre)) at 1.
  apply idAtEnd_prefix. by eapply idAtEnd_bare.
Qed.

Lemma extractIdOf_inr (v : option Value) (id : string) :
  extractIdOf v = inr id ↔ ∃ url, v = Some (Text url) ∧ endsInId url id.
Proof.
  unfold extractIdOf. split.
  - destruct v as [[url| | |]|]; try done. intros H%extractArxivId_inr. by exists url.
  - intros (url & -> & H). by apply extractArxivId_inr.
Qed.

Lemma cleanValue_inr (v : option Value) (s : string) :
  cleanValue v = inr s → readableText v ∧ normalized (list_ascii_of_string s).
Proof.
  unfold cleanValue, readableText. destruct v as [[t|q|b|]|]; simpl.
  - intros [= <-]. split; [by exists t|apply cleanText_normalized].
  - destruct (negb _); [done|]. intros [= <-]. split; [done|]. apply (cleanText_normalized None).
  - destruct b; [done|]. intros [= <-]. split; [done|]. apply (cleanText_normalized None).
  - done.
  - intros [= <-]. split; [done|]. apply (cleanText_normalized None).
Qed.

Lemma cleanValue_readable (v : option Value) :
  readableText v ↔ ∃ s, cleanValue v = inr s.
Proof.
  split.
  - unfold readableText, cleanValue. intros Hr.
    destruct v as [[t|q|b|]|]; simpl in *; try by eexists.
    + destruct (negb _); [|by eexists]. by destruct (Hr eq_refl).
    + destruct b; [|by eexists]. by destruct (Hr eq_refl).
    + by destruct (Hr eq_refl).
  - intros [s Hs]. by apply cleanValue_inr in Hs as [? _].
Qed.

Lemma cleanOrNull_readable (v : option Value) :
  readableText v ↔ ∃ s, cleanOrNull v = inr s.
Proof.
  unfold cleanOrNull. rewrite cleanValue_readable. destruct (truthy v) eqn:Ht.
  - split; intros [s Hs].
    + rewrite Hs. by eexists.
    + destruct (cleanValue v); [done|by eexists].
  - split; [by eexists|]. intros _. unfold cleanValue.
    destruct v as [[t|q|b|]|]; rewrite ?Ht; by eexists.
Qed.

Lemma parseEntry_inr (entry : RawEntry.t) (paper : ArxivEntry.t) :
  parseEntry entry = inr paper →
  ∃ authors,
    extractIdOf (RawEntry.id entry) = inr (ArxivEntry.id paper) ∧
    RawEntry.author entry = Some authors ∧
    ArxivEntry.authors paper =
      ((λ author, ParsedAuthor.mk (RawAuthor.name author)
                                  (orNull (RawAuthor.affiliation author)))
         <$> asArray authors) ∧
    ArxivEntry.arxivUrl paper = "https://arxiv.org/abs/" +:+ ArxivEntry.id paper ∧
    cleanValue (RawEntry.title entry) = inr (ArxivEntry.title paper) ∧
    cleanValue (RawEntry.summary entry) = inr (ArxivEntry.abstract paper) ∧
    cleanOrNull (RawEntry.comment entry) = inr (ArxivEntry.comment paper) ∧
    cleanOrNull (RawEntry.journal_ref entry) = inr (ArxivEntry.journalRef paper) ∧
    ArxivEntry.arxivCategories paper = rawCategories entry ∧
    ArxivEntry.primaryCategory paper =
      (if truthy (RawEntry.primary_category entry)
       then RawEntry.primary_category entry else head (rawCategories entry) ≫= id) ∧
    ArxivEntry.pdfUrl paper = (pdfLink entry ≫= RawLink.href).
Proof.
  unfold parseEntry, rawAuthors, andThen.
  destruct (extractIdOf (RawEntry.id entry)) as [e|arxivId]; [done|].
  destruct (RawEntry.author entry) as [authors|]; [|done].
  destruct (cleanValue (RawEntry.title entry)) as [e|title]; [done|].
  destruct (cleanValue (RawEntry.summary entry)) as [e|abstract]; [done|].
  destruct (cleanOrNull (RawEntry.comment entry)) as [e|comment]; [done|].
  destruct (cleanOrNull (RawEntry.journal_ref entry)) as [e|journalRef]; [done|].
  intros [= <-]. exists authors. by repeat split.
Qed.

(** X28. What [parseEntry] returns hangs together: the id is the
    identifier that the text of the entry's [id] ends in, and the
    [arxivUrl] built from it leads back to it; title and abstract are
    in normal form; the authors are those of the entry, in order, none
    with a falsy affiliation; the primary category is missing only
    when the first category has no term either; and the PDF address is
    that of a link titled [pdf].  It throws exactly when the [id] is
    not a text that ends in an identifier, when the entry has no
    author, or when the title, the summary, the comment or the journal
    reference is a value that is not a text (a number other than 0
    and NaN, the boolean true, or an object, which is what an element
    with an attribute comes as): so an entry whose comment carries an
    attribute is not parsed. *)
Theorem parseEntry_consistent (entry : RawEntry.t) :
  (∀ paper, parseEntry entry = inr paper →
     (∃ url, RawEntry.id entry = Some (Text url) ∧ endsInId url (ArxivEntry.id paper)) ∧
     extractArxivId (ArxivEntry.arxivUrl paper) = inr (ArxivEntry.id paper) ∧
     normalized (list_ascii_of_string (ArxivEntry.title paper)) ∧
     normalized (list_ascii_of_string (ArxivEntry.abstract paper)) ∧
     (∃ authors, RawEntry.author entry = Some authors ∧
                 (ParsedAuthor.name <$> ArxivEntry.authors paper)
                   = (RawAuthor.name <$> asArray authors)) ∧
     (∀ a, a ∈ ArxivEntry.authors paper →
           ParsedAuthor.affiliation a = None ∨ truthy (ParsedAuthor.affiliation a) = true) ∧
     (ArxivEntry.primaryCategory paper = None →
      head (ArxivEntry.arxivCategories paper) ≫= id = None) ∧
     (∀ u, ArxivEntry.pdfUrl paper = Some u →
           ∃ links link, RawEntry.link entry = Some links ∧ link ∈ asArray links ∧
                         RawLink.title link = Some (Text "pdf") ∧
                         RawLink.href link = Some u)) ∧
  ((∃ e, parseEntry entry = inl e) ↔
   (¬ ∃ url id, RawEntry.id entry = Some (Text url) ∧ endsInId url id) ∨
   RawEntry.author entry = None ∨
   ¬ readableText (RawEntry.title entry) ∨
   ¬ readableText (RawEntry.summary entry) ∨
   ¬ readableText (RawEntry.comment entry) ∨
   ¬ readableText (RawEntry.journal_ref entry)) ∧
  parseEntry commentedEntry = inl (mkError "text.replace is not a function").
Proof.
  split_and!.
  - intros paper (authors & Hid & Hau & Hnames & Hurl & Ht & Ha & _ & _ & Hc & Hp & Hpdf)%parseEntry_inr.
    apply extractIdOf_inr in Hid as (url & Hraw & Hid). split_and!.
    + by exists url.
    + rewrite Hurl. by eapply extractArxivId_of_id.
    + by apply cleanValue_inr in Ht as [_ ?].
    + by apply cleanValue_inr in Ha as [_ ?].
    + exists authors. split; [done|]. rewrite Hnames, <- list_fmap_compose.
      by apply list_fmap_ext.
    + intros a. rewrite Hnames. intros (x & -> & _)%list_elem_of_fmap. simpl.
      unfold orNull. destruct (truthy (RawAuthor.affiliation x)) eqn:Hx; [by right|by left].
    + rewrite Hp, Hc.
      destruct (truthy (RawEntry.primary_category entry)) eqn:Hpc; [|done].
      intros Hnone. by rewrite Hnone in Hpc.
    + intros u. rewrite Hpdf. unfold pdfLink.
      destruct (RawEntry.link entry) as [links|]; [|done].
      destruct (list_find _ (asArray links)) as [[i link]|] eqn:Hfind; [|done].
      simpl. intros Hhref. apply list_find_Some in Hfind as (Hi & Htitle & _).
      exists links, link. split_and!; [done| |  |done].
      * by eapply list_elem_of_lookup_2.
      * unfold isPdf in Htitle. destruct (RawLink.title link) as [[t| | |]|]; try done.
        by apply bool_decide_eq_true in Htitle as ->.
  - rewrite (cleanValue_readable (RawEntry.title entry)),
      (cleanValue_readable (RawEntry.summary entry)),
      (cleanOrNull_readable (RawEntry.comment entry)),
      (cleanOrNull_readable (RawEntry.journal_ref entry)).
    unfold parseEntry, rawAuthors, andThen.
    destruct (extractIdOf (RawEntry.id entry)) as [e|arxivId] eqn:Hid.
    { split; [|by eexists]. intros _. left. intros (url & id & Hraw & Hends).
      assert (Hok : extractIdOf (RawEntry.id entry) = inr id)
        by (apply extractIdOf_inr; by exists url).
      congruence. }
    apply extractIdOf_inr in Hid as (url & Hraw & Hends).
    destruct (RawEntry.author entry) as [authors|]; [|split; [by right; left|by eexists]].
    destruct (cleanValue (RawEntry.title entry)) as [e|title].
    { split; [|by eexists]. intros _. do 2 right. left. by intros [? ?]. }
    destruct (cleanValue (RawEntry.summary entry)) as [e|abstract].
    { split; [|by eexists]. intros _. do 3 right. left. by intros [? ?]. }
    destruct (cleanOrNull (RawEntry.comment entry)) as [e|comment].
    { split; [|by eexists]. intros _. do 4 right. left. by intros [? ?]. }
    destruct (cleanOrNull (RawEntry.journal_ref entry)) as [e|journalRef].
    { split; [|by eexists]. intros _. do 5 right. by intros [? ?]. }
    split; [by intros [? ?]|].
    intros [Hno|[?|[Hno|[Hno|[Hno|Hno]]]]]; try done; exfalso; apply Hno;
      [by exists url, arxivId|by eexists..].
  - vm_compute. reflexivity.
Qed.

Lemma parseEntries_inr entries papers :
  parseEntries entries = inr papers ↔
  Forall2 (λ entry paper, parseEntry entry = inr paper) entries papers.
Proof.
  revert papers. induction entries as [|entry entries IH]; intros papers; simpl.
  - split; [by intros [= <-]; constructor|by intros ->%Forall2_nil_inv_l].
  - split.
    + destruct (parseEntry entry) as [e|paper] eqn:Hp; [done|].
      destruct (parseEntries entries) as [e|rest] eqn:Hrest; [done|].
      intros [= <-]. constructor; [done|]. by apply IH.
    + intros (paper & rest & Hp & Hrest & ->)%Forall2_cons_inv_l.
      rewrite Hp. apply IH in Hrest. by rewrite Hrest.
Qed.

Lemma parseEntries_inl entries e :
  parseEntries entries = inl e →
  ∃ done entry rest papers,
    entries = done ++ entry :: rest ∧
    parseEntries done = inr papers ∧ parseEntry entry = inl e.
Proof.
  induction entries as [|entry entries IH]; simpl; [done|].
  destruct (parseEntry entry) as [e'|paper] eqn:Hp.
  - intros [= <-]. by exists [], entry, entries, [].
  - destruct (parseEntries entries) as [e'|papers]; [|done].
    intros [= <-]. destruct (IH eq_refl) as (dn & x & rest & ps & -> & Hd & Hx).
    exists (entry :: dn), x, rest, (paper :: ps). simpl. by rewrite Hp, Hd.
Qed.

(** X29. [parseArxivXML] returns a page or nothing.  It returns one
    exactly when the XML parser returned a feed and every entry of
    the feed parses; the entries returned are then the parsed entries
    of the feed, one for one and in order, and the counts are those of
    the feed read as integers: a count the feed does not give is 0, a
    count that comes as a number is the integer its printed form
    starts with, and a count that comes as an object is not a number.  Otherwise it throws,
    with a message that starts with [XML parsing failed: ]; when an
    entry is at fault, it is the first entry that does not parse, and
    the entries parsed before it are dropped with it. *)
Theorem parseArxivXML_all_or_nothing (outcome : ParserOutcome) :
  (∀ parsed, parseArxivXML outcome = inr parsed ↔
     ∃ feed, outcome = ParserReturns (Some feed) ∧
             Forall2 (λ entry paper, parseEntry entry = inr paper)
                     (feedEntries feed) (Parsed.entries parsed) ∧
             Parsed.totalResults parsed = parseCount (Feed.totalResults feed) ∧
             Parsed.startIndex parsed = parseCount (Feed.startIndex feed) ∧
             Parsed.itemsPerPage parsed = parseCount (Feed.itemsPerPage feed)) ∧
  (parseCount None = Some 0 ∧
   parseCount (Some (Num "0")) = Some 0 ∧
   parseCount (Some (Num "1287")) = Some 1287 ∧
   parseCount (Some (Num "1e+21")) = Some 1 ∧
   (∀ printed, truthy (Some (Num printed)) = true →
               parseCount (Some (Num printed)) = Js.parseInt printed) ∧
   parseCount (Some Obj) = None) ∧
  (∀ e, parseArxivXML outcome = inl e →
     ∃ message, e = mkError ("XML parsing failed: " +:+ message) ∧
       (outcome = ParserThrows message ∨
        (outcome = ParserReturns None ∧ message = "Invalid XML: no feed element found") ∨
        ∃ feed done entry rest papers,
          outcome = ParserReturns (Some feed) ∧
          feedEntries feed = done ++ entry :: rest ∧
          parseEntries done = inr papers ∧
          parseEntry entry = inl (mkError message))).
Proof.
  unfold parseArxivXML, parseFeed. split_and!.
  - intros parsed. split.
    + destruct outcome as [message|[feed|]]; [done| |done].
      destruct (parseEntries (feedEntries feed)) as [[m]|entries] eqn:He; [done|].
      intros [= <-]. exists feed. split_and!; try done. by apply parseEntries_inr.
    + intros (feed & -> & Hall & Ht & Hs & Hi). apply parseEntries_inr in Hall.
      rewrite Hall. destruct parsed as [t s i es]. simpl in *. by subst.
  - done.
  - done.
  - done.
  - done.
  - intros printed Ht. unfold parseCount. by rewrite Ht.
  - done.
  - intros e. destruct outcome as [message|[feed|]].
    + intros [= <-]. exists message. split; [done|by left].
    + destruct (parseEntries (feedEntries feed)) as [[m]|entries] eqn:He; [|done].
      intros [= <-]. exists m. split; [done|]. right. right.
      destruct (parseEntries_inl _ _ He) as (dn & x & rest & ps & Hsplit & Hd & Hx).
      by exists feed, dn, x, rest, ps.
    + intros [= <-]. eexists. split; [done|]. right. by left.
Qed.

End ParseFacts.

Lemma parseEntry_consistent_witness :
  (∃ url, XmlParser.RawEntry.id XmlParser.exampleEntry = Some (XmlParser.Text url) ∧
          XmlParser.endsInId url "2401.12345") ∧
  XmlParser.normalized (list_ascii_of_string "Agents that plan") ∧
  (∃ e, XmlParser.parseEntry XmlParser.oldStyleEntry = inl e) ∧
  ∃ e, XmlParser.parseEntry XmlParser.commentedEntry = inl e.
Proof.
  destruct (parseEntry_consistent XmlParser.exampleEntry) as (Hparsed & _ & _).
  destruct (Hparsed
              {| XmlParser.ArxivEntry.id := "2401.12345";
                 XmlParser.ArxivEntry.title := "Agents that plan";
                 XmlParser.ArxivEntry.authors :=
                   [XmlParser.ParsedAuthor.mk (Some (XmlParser.Text "A. Author")) None];
                 XmlParser.ArxivEntry.abstract := "We study agents.";
                 XmlParser.ArxivEntry.publishedDate :=
                   Some (XmlParser.Text "2024-01-15T10:00:00Z");
                 XmlParser.ArxivEntry.updatedDate :=
                   Some (XmlParser.Text "2024-03-02T08:30:00Z");
                 XmlParser.ArxivEntry.primaryCategory := Some (XmlParser.Text "cs.CL");
                 XmlParser.ArxivEntry.arxivCategories :=
                   [Some (XmlParser.Text "cs.CL"); Some (XmlParser.Text "cs.AI")];
                 XmlParser.ArxivEntry.pdfUrl :=
                   Some (XmlParser.Text "http://arxiv.org/pdf/2401.12345v2");
                 XmlParser.ArxivEntry.arxivUrl := "https://arxiv.org/abs/2401.12345";
                 XmlParser.ArxivEntry.comment := None;
                 XmlParser.ArxivEntry.journalRef := None;
                 XmlParser.ArxivEntry.doi := None |})
    as (Hid & _ & Htitle & _).
  - vm_compute. reflexivity.
  - split; [exact Hid|]. split; [exact Htitle|]. split.
    + apply (proj1 (proj2 (parseEntry_consistent XmlParser.oldStyleEntry))).
      left. intros (url & id & Hraw & Hends). injection Hraw as <-.
      apply extractArxivId_inr in Hends. vm_compute in Hends. discriminate.
    + apply (proj1 (proj2 (parseEntry_consistent XmlParser.commentedEntry))).
      do 4 right. left. intros Hr. by destruct (Hr eq_refl).
Defined.

Lemma parseArxivXML_all_or_nothing_witness :
  ∃ message,
    XmlParser.mkError
      "XML parsing failed: Failed to extract arXiv ID from: http://arxiv.org/abs/hep-th/9901001v1"
    = XmlParser.mkError ("XML parsing failed: " +:+ message).
Proof.
  destruct (proj2 (proj2 (parseArxivXML_all_or_nothing
                     (XmlParser.ParserReturns
                        (Some (XmlParser.Feed.mk
                                 (Some (XmlParser.Many
                                          [XmlParser.exampleEntry; XmlParser.oldStyleEntry]))
                                 (Some XmlParser.Obj) (Some XmlParser.Obj)
                                 (Some XmlParser.Obj))))))
              (XmlParser.mkError
                 "XML parsing failed: Failed to extract arXiv ID from: http://arxiv.org/abs/hep-th/9901001v1"))
    as (message & Hm & _).
  - vm_compute. reflexivity.
  - exists message. exact Hm.
Defined.

(** ** SearchFilter: views and lists *)

Section SearchFilterFacts.
Import IndexBuilder SearchFilter.
Variable Date : string → option Z.
Variable fuse : list Entry.t → string → list (Entry.t * QArith_base.Q).

Lemma sortPapers_perm sf l : sortPapers Date sf l ≡ₚ l.
Proof.
  unfold sortPapers. cbv zeta. repeat case_decide; try done; apply sort_perm.
Qed.

Lemma byViewMode_sublist sf l : byViewMode sf l `sublist_of` l.
Proof. unfold byViewMode. repeat case_decide; apply sublist_filter. Qed.

Lemma byCategories_sublist sf l : byCategories sf l `sublist_of` l.
Proof. unfold byCategories. case_decide; [done|apply sublist_filter]. Qed.

Lemma byYears_sublist sf l : byYears sf l `sublist_of` l.
Proof. unfold byYears. case_decide; [done|apply sublist_filter]. Qed.

Lemma byViewMode_elem_of sf l paper :
  paper ∈ byViewMode sf l ↔
  paper ∈ l ∧
  (if decide (Filters.viewMode (filters sf) = "saved") then Entry.id paper ∈ savedlist sf
   else if decide (Filters.viewMode (filters sf) = "removed")
        then Entry.id paper ∈ blocklist sf
        else Entry.id paper ∉ blocklist sf).
Proof.
  unfold byViewMode. repeat case_decide; rewrite list_elem_of_filter; tauto.
Qed.

Lemma byCategories_elem_of sf l paper :
  paper ∈ byCategories sf l ↔
  paper ∈ l ∧
  (Filters.categories (filters sf) ≠ ∅ →
   ∃ cat, cat ∈ Entry.categories paper ∧ cat ∈ Filters.categories (filters sf)).
Proof.
  unfold byCategories. case_decide as Hsel.
  - split; [by intros ?|by intros [? _]].
  - rewrite list_elem_of_filter, Exists_exists. split.
    + intros [Hex Hin]. split; [done|]. by intros _.
    + intros [Hin Hex]. split; [by apply Hex|done].
Qed.

Lemma byYears_elem_of sf l paper :
  paper ∈ byYears sf l ↔
  paper ∈ l ∧
  (Filters.years (filters sf) ≠ ∅ →
   ∃ y, Entry.year paper = Some y ∧ y ∈ Filters.years (filters sf)).
Proof.
  unfold byYears. case_decide as Hsel.
  - split; [by intros ?|by intros [? _]].
  - rewrite list_elem_of_filter. unfold yearSelected. split.
    + intros [Hy Hin]. split; [done|]. intros _.
      destruct (Entry.year paper) as [y|]; [|done].
      apply bool_decide_eq_true in Hy. by exists y.
    + intros [Hin Hy]. split; [|done]. destruct (Hy Hsel) as (y & -> & Hsely).
      by apply bool_decide_eq_true.
Qed.

Lemma applyFilters_elem_of sf paper :
  paper ∈ applyFilters Date fuse sf ↔
  paper ∈ byYears sf (byCategories sf (byViewMode sf (papers sf))) ∧
  (Filters.searchQuery (filters sf) ≠ "" →
   Entry.id paper ∈
     (λ r : Entry.t * QArith_base.Q, Entry.id r.1)
       <$> fuse (papers sf) (Filters.searchQuery (filters sf))).
Proof.
  unfold applyFilters. cbv zeta. case_decide as Hq.
  - rewrite sortPapers_perm. split; [by intros ?|by intros [? _]].
  - case_decide.
    + rewrite sort_elem_of, list_elem_of_filter. split; [by intros [? ?]|].
      intros [? Hs]. split; [by apply Hs|done].
    + rewrite sortPapers_perm, list_elem_of_filter. split; [by intros [? ?]|].
      intros [? Hs]. split; [by apply Hs|done].
Qed.

(** X30. What [applyFilters] shows is a selection of the papers
    loaded, none more often than it is loaded.  The saved view shows
    only saved papers, the removed view only blocked ones, and every
    other view no blocked paper; a selection of categories or years
    keeps the papers that have one of them.  Without a search query,
    exactly the papers that pass these filters are shown; with one,
    only papers whose id the search returned.  Saving a paper takes
    it off the block-list, but blocking a saved paper leaves it
    saved: it is then shown in the saved view and in the removed
    view, and in no other. *)
Theorem applyFilters_views (sf : t) :
  applyFilters Date fuse sf ⊆+ papers sf ∧
  (∀ paper, paper ∈ applyFilters Date fuse sf ↔
     paper ∈ papers sf ∧
     (if decide (Filters.viewMode (filters sf) = "saved")
      then Entry.id paper ∈ savedlist sf
      else if decide (Filters.viewMode (filters sf) = "removed")
           then Entry.id paper ∈ blocklist sf
           else Entry.id paper ∉ blocklist sf) ∧
     (Filters.categories (filters sf) ≠ ∅ →
      ∃ cat, cat ∈ Entry.categories paper ∧ cat ∈ Filters.categories (filters sf)) ∧
     (Filters.years (filters sf) ≠ ∅ →
      ∃ y, Entry.year paper = Some y ∧ y ∈ Filters.years (filters sf)) ∧
     (Filters.searchQuery (filters sf) ≠ "" →
      ∃ item score, (item, score) ∈ fuse (papers sf) (Filters.searchQuery (filters sf)) ∧
                    Entry.id item = Entry.id paper)) ∧
  (∀ paperId,
     (paperId ∈ savedlist (savePaper paperId sf)) ∧
     (paperId ∉ blocklist (savePaper paperId sf)) ∧
     (paperId ∈ savedlist sf →
      (paperId ∈ savedlist (blockPaper paperId sf)) ∧
      (paperId ∈ blocklist (blockPaper paperId sf)) ∧
      ∀ viewMode paper,
        Entry.id paper = paperId →
        Filters.categories (filters sf) = ∅ → Filters.years (filters sf) = ∅ →
        Filters.searchQuery (filters sf) = "" →
        (paper ∈ applyFilters Date fuse (setViewMode viewMode (blockPaper paperId sf)) ↔
         paper ∈ papers sf ∧ (viewMode = "saved" ∨ viewMode = "removed")))).
Proof.
  assert (Hmem : ∀ s paper, paper ∈ applyFilters Date fuse s ↔
     paper ∈ papers s ∧
     (if decide (Filters.viewMode (filters s) = "saved")
      then Entry.id paper ∈ savedlist s
      else if decide (Filters.viewMode (filters s) = "removed")
           then Entry.id paper ∈ blocklist s
           else Entry.id paper ∉ blocklist s) ∧
     (Filters.categories (filters s) ≠ ∅ →
      ∃ cat, cat ∈ Entry.categories paper ∧ cat ∈ Filters.categories (filters s)) ∧
     (Filters.years (filters s) ≠ ∅ →
      ∃ y, Entry.year paper = Some y ∧ y ∈ Filters.years (filters s)) ∧
     (Filters.searchQuery (filters s) ≠ "" →
      ∃ item score, (item, score) ∈ fuse (papers s) (Filters.searchQuery (filters s)) ∧
                    Entry.id item = Entry.id paper)).
  { intros s paper.
    rewrite applyFilters_elem_of, byYears_elem_of, byCategories_elem_of, byViewMode_elem_of.
    assert (Hfound :
      Entry.id paper ∈ (λ r : Entry.t * QArith_base.Q, Entry.id r.1)
                         <$> fuse (papers s) (Filters.searchQuery (filters s)) ↔
      ∃ item score, (item, score) ∈ fuse (papers s) (Filters.searchQuery (filters s)) ∧
                    Entry.id item = Entry.id paper).
    { rewrite list_elem_of_fmap. split.
      - intros ([item score] & Hid & Hin). by exists item, score.
      - intros (item & score & Hin & Hid). by exists (item, score). }
    rewrite Hfound. tauto. }
  split_and!.
  - unfold applyFilters. cbv zeta.
    assert (Hbase : byYears sf (byCategories sf (byViewMode sf (papers sf))) ⊆+ papers sf).
    { apply sublist_submseteq. etrans; [apply byYears_sublist|].
      etrans; [apply byCategories_sublist|apply byViewMode_sublist]. }
    case_decide.
    + by rewrite sortPapers_perm.
    + etrans; [|exact Hbase]. case_decide.
      * rewrite sort_perm. apply sublist_submseteq, sublist_filter.
      * rewrite sortPapers_perm. apply sublist_submseteq, sublist_filter.
  - apply Hmem.
  - intros paperId.
    assert (Hin : ∀ X : gset string, paperId ∈ {[paperId]} ∪ X)
      by (intros X; apply elem_of_union; left; by apply elem_of_singleton).
    split_and!.
    + apply Hin.
    + simpl. rewrite elem_of_difference, elem_of_singleton. by intros [_ ?].
    + intros Hsaved. split_and!.
      * done.
      * apply Hin.
      * intros viewMode paper Hid Hc Hy Hq. rewrite Hmem. simpl.
        rewrite Hc, Hy, Hq. subst paperId. repeat case_decide; subst; split.
        -- intros (? & _). split; [done|by left].
        -- intros [? _]. split_and!; done.
        -- intros (? & _). split; [done|by right].
        -- intros [? _]. split_and!; [done|apply Hin|done|done|done].
        -- intros (_ & Hnb & _). exfalso. apply Hnb, Hin.
        -- intros [_ [?|?]]; done.
Qed.

End SearchFilterFacts.

Lemma applyFilters_views_witness :
  IndexBuilder.project IndexBuilder.p2 ∈
    SearchFilter.applyFilters IsoDate.value SearchFilter.noHits
      (SearchFilter.setViewMode "removed"
         (SearchFilter.blockPaper "2402.00002"
            (SearchFilter.savePaper "2402.00002" SearchFilter.exampleState))).
Proof.
  destruct (applyFilters_views IsoDate.value SearchFilter.noHits
              (SearchFilter.savePaper "2402.00002" SearchFilter.exampleState))
    as (_ & _ & Hlists).
  destruct (Hlists "2402.00002") as (_ & _ & Hblocked).
  destruct Hblocked as (_ & _ & Hviews).
  - apply elem_of_union. left. by apply elem_of_singleton.
  - apply (Hviews "removed" (IndexBuilder.project IndexBuilder.p2)
             eq_refl eq_refl eq_refl eq_refl).
    split; [|by right].
    apply list_elem_of_further, list_elem_of_here.
Defined.

Lemma deduplicatePapers_report_witness :
  ∃ first dup,
    first ∈ Deduplicator.unique
              (Deduplicator.deduplicatePapers [Fetcher.paperB; Fetcher.paperB_again]) ∧
    dup ∈ [Fetcher.paperB; Fetcher.paperB_again] ∧
    Paper.id first = Paper.id dup ∧
    Deduplicator.Duplicate.mk "2405.00002" "B, as the second query returns it" "B"
      = Deduplicator.Duplicate.mk (Paper.id dup) (Paper.title dup) (Paper.title first).
Proof.
  apply (deduplicatePapers_report [Fetcher.paperB; Fetcher.paperB_again]).
  vm_compute. apply list_elem_of_here.
Defined.

Lemma categorizePaper_ids_witness :
  NoDup (Categorizer.categorizePaper Categorizer.examplePaper Categorizer.exampleCategories).
Proof.
  apply (categorizePaper_ids Categorizer.examplePaper Categorizer.exampleCategories).
  refine (bool_decide_unpack _ _). vm_compute. exact I.
Defined.
